(** * Pazuzu: feature resolution, Dockerfile composition and test plans

    A shallow embedding of the Go sources of pazuzu, and what they
    guarantee.  First the code: the git-backed feature store with its
    dependency resolver ([Storageconnector]) and its search
    ([StorageSearch]), the Dockerfile writer with its COPY rewriting
    ([Dockerfile]), the registry-based generator with its test-spec runner
    ([Main]) and the commands that drive them ([Cli]).  Then, for each of
    them, the facts about it and the properties of its entry points
    ([ResolveClaims], [DockerfileClaims], [MainClaims], [RunnerClaims], and
    further ones in [ResolveExtras], [StoreExtras], [SearchExtras],
    [DockerfileExtras], [MainExtras], [RunnerExtras], [CliExtras]), with
    small stores, snippets and daemons to run them on.

    Conventions.  A Go [string] is a [string]; a function returning
    [(T, error)] returns a [res T]; a function that mutates an object it
    receives returns the new value of that object next to its error;
    recursion that Go does not bound takes a fuel argument and returns
    [None] when the fuel runs out.  Libraries the code calls (go-git,
    yaml, docker's parser, encoding/json, net/http, archive/tar,
    go-dockerclient) are parameters or records of replies. *)

From stdpp Require Import base strings list gmap pretty.
From Stdlib Require Import ZArith Ascii.

Set Warnings "-register-all".


(** ** Go errors *)

(** The error values that occur in the modelled code.  The two sentinels
    are package-level variables compared with [==] in Go; every other
    error is a message built with [fmt.Errorf] or handed up by a library. *)
Inductive error : Type :=
  | ErrFileNotFound            (* git.ErrFileNotFound *)
  | ErrInvalidCopyCmdSyntax    (* package pazuzu, the Dockerfile writer *)
  | Errorf (msg : string).

Global Instance error_eq_dec : EqDecision error.
Proof. solve_decision. Defined.

(** [err.Error()]; the text of [git.ErrFileNotFound] is go-git's. *)
Definition Error (e : error) : string :=
  match e with
  | ErrFileNotFound => "file not found"
  | ErrInvalidCopyCmdSyntax => "Invalid 'COPY' command syntax"
  | Errorf msg => msg
  end.

Inductive res (A : Type) : Type :=
  | Ok (a : A)
  | Err (e : error).
Arguments Ok {A} a.
Arguments Err {A} e.

Global Instance res_ret : MRet res := λ A a, Ok a.
Global Instance res_bind : MBind res := λ A B f m,
  match m with
  | Ok a => f a
  | Err e => Err e
  end.

(** ** package shared: the feature records *)

Module Shared.

Record FeatureMeta : Type := {
  Name : string;
  Description : string;
  Author : string;
  Dependencies : list string;
  UpdatedAt : Z
}.

Record Feature : Type := {
  Meta : FeatureMeta;
  Snippet : string;
  TestSnippet : string
}.

(** The zero value [shared.FeatureMeta{}] completed by [Feature{Meta: meta}]. *)
Definition Feature_of_meta (meta : FeatureMeta) : Feature :=
  {| Meta := meta; Snippet := ""; TestSnippet := "" |}.

End Shared.

(** ** package storageconnector: the git-backed store *)

Module Storageconnector.
Import Shared.

Definition featureDir : string := "features".
Definition featureFile : string := "meta.yml".
Definition featureSnippet : string := "Dockerfile".
Definition testSnippet : string := "test.bats".

Record yamlFeatureMeta : Type := {
  yDescription : string;
  yAuthor : string;
  yDependencies : list string
}.

(** What the code uses of go-git: a file of a commit can be read (or
    fails to), a commit maps paths to files and carries the committer's
    time, a repository has a head and commits by hash. *)
Record File : Type := { ReadAll : res string }.

Record Commit : Type := {
  Files : gmap string File;
  Committer_When : Z
}.

Record Repository : Type := {
  Head : res string;
  Commits : string → res Commit
}.

Record GitStorage : Type := { repo : Repository }.

(** [commit.File(path)]: the file, or the sentinel [git.ErrFileNotFound]. *)
Definition Commit_File (commit : Commit) (path : string) : res File :=
  match Files commit !! path with
  | Some file => Ok file
  | None => Err ErrFileNotFound
  end.

(** The library functions the store calls.  They are taken as they are:
    [path.Join], [yaml.Unmarshal] into a [yamlFeatureMeta], and
    [shared.ReadTestSpec]. *)
Record Libs : Type := {
  path_Join : list string → string;
  yaml_Unmarshal : string → res yamlFeatureMeta;
  ReadTestSpec : string → res string
}.

Section Store.
Variable L : Libs.

Definition latestCommit (storage : GitStorage) : res Commit :=
  head ← Head (repo storage);
  Commits (repo storage) head.

Definition getMeta (commit : Commit) (name : string) : res FeatureMeta :=
  file ← Commit_File commit (path_Join L [featureDir; name; featureFile]);
  content ← ReadAll file;
  meta ← yaml_Unmarshal L content;
  Ok {| Name := name;
        Dependencies := yDependencies meta;
        Description := yDescription meta;
        Author := yAuthor meta;
        UpdatedAt := Committer_When commit |}.

Definition getTestSpec (commit : Commit) (name : string) : string :=
  match Commit_File commit (path_Join L [featureDir; name; testSnippet]) with
  | Err _ => ""
  | Ok file =>
      match ReadAll file with
      | Err _ => ""
      | Ok reader =>
          match ReadTestSpec L reader with
          | Err _ => ""
          | Ok content => content
          end
      end
  end.

Definition getFeature (commit : Commit) (name : string) : res Feature :=
  meta ← getMeta commit name;
  match Commit_File commit (path_Join L [featureDir; name; featureSnippet]) with
  | Err err =>
      if decide (err = ErrFileNotFound) then Ok (Feature_of_meta meta)
      else Err err
  | Ok file =>
      snippet ← ReadAll file;
      Ok {| Meta := meta;
            Snippet := snippet;
            TestSnippet := getTestSpec commit name |}
  end.

Definition GetMeta (storage : GitStorage) (name : string) : res FeatureMeta :=
  commit ← latestCommit storage;
  getMeta commit name.

Definition GetFeature (storage : GitStorage) (name : string) : res Feature :=
  commit ← latestCommit storage;
  getFeature commit name.

(** *** Resolve and resolve *)

(** The two objects [resolve] mutates: the slice behind [list] (here [list'])
    and the map [result]. *)
Definition State : Type := list string * gmap string Feature.

(** A [for _, name := range names] loop whose body may fail: the first
    error leaves the loop; [None] is a body that does not return. *)
Fixpoint range {S : Type} (body : string → S → option (S * option error))
    (names : list string) (st : S) : option (S * option error) :=
  match names with
  | [] => Some (st, None)
  | name :: rest =>
      match body name st with
      | None => None
      | Some (st', Some err) => Some (st', Some err)
      | Some (st', None) => range body rest st'
      end
  end.

Fixpoint resolve (fuel : nat) (commit : Commit) (name : string) (st : State)
    : option (State * option error) :=
  match fuel with
  | 0 => None
  | S fuel =>
      match st.2 !! name with
      | Some _ => Some (st, None)
      | None =>
          match getFeature commit name with
          | Err err => Some (st, Some err)
          | Ok feature =>
              match range (resolve fuel commit) (Dependencies (Meta feature)) st with
              | None => None
              | Some (st', Some err) => Some (st', Some err)
              | Some ((list', result), None) =>
                  Some ((list' ++ [name], <[name := feature]> result), None)
              end
          end
      end
  end.

Definition Resolve (fuel : nat) (storage : GitStorage) (names : list string)
    : option (list string * gmap string Feature * option error) :=
  match latestCommit storage with
  | Err err => Some ([], ∅, Some err)
  | Ok commit =>
      match range (resolve fuel commit) names ([], ∅) with
      | None => None
      | Some (_, Some err) => Some ([], ∅, Some err)
      | Some ((slice, result), None) => Some (slice, result, None)
      end
  end.


(** *** resolve, with its fetches on record

    The same two functions; the extra component lists, in order, the names
    for which [getFeature] was called.  Nothing reads it. *)
Definition Traced : Type := State * list string.

Fixpoint resolve_traced (fuel : nat) (commit : Commit) (name : string) (st : Traced)
    : option (Traced * option error) :=
  match fuel with
  | 0 => None
  | S fuel =>
      match st.1.2 !! name with
      | Some _ => Some (st, None)
      | None =>
          let fetched := st.2 ++ [name] in
          match getFeature commit name with
          | Err err => Some ((st.1, fetched), Some err)
          | Ok feature =>
              match range (resolve_traced fuel commit) (Dependencies (Meta feature))
                      (st.1, fetched) with
              | None => None
              | Some (st', Some err) => Some (st', Some err)
              | Some (((list', result), fetched'), None) =>
                  Some (((list' ++ [name], <[name := feature]> result), fetched'), None)
              end
          end
      end
  end.

Definition Resolve_traced (fuel : nat) (storage : GitStorage) (names : list string)
    : option (list string * gmap string Feature * option error * list string) :=
  match latestCommit storage with
  | Err err => Some ([], ∅, Some err, [])
  | Ok commit =>
      match range (resolve_traced fuel commit) names (([], ∅), []) with
      | None => None
      | Some ((_, fetched), Some err) => Some ([], ∅, Some err, fetched)
      | Some (((slice, result), fetched), None) => Some (slice, result, None, fetched)
      end
  end.

End Store.
End Storageconnector.

(** ** package storageconnector: searching the git-backed store *)

Module StorageSearch.
Import Shared Storageconnector.

(** A call returns, or ends in a run-time panic of Go. *)
Inductive outcome (A : Type) : Type :=
  | Returns (a : A)
  | Panics (msg : string).
Arguments Returns {A} a.
Arguments Panics {A} msg.

(** [strings.Split(s, "/")]: the pieces of [s] between the slashes, empty
    pieces included; a text without a slash is its only piece. *)
Fixpoint Split_from (s : string) (piece : string) : list string :=
  match s with
  | EmptyString => [piece]
  | String c rest =>
      if Ascii.eqb c "/" then piece :: Split_from rest ""
      else Split_from rest (piece +:+ String c "")
  end.

Definition Split (s : string) : list string := Split_from s "".

(** The two objects the callback of [SearchMeta] updates: [matchedNames]
    and [matchedFeatures]. *)
Definition Found : Type := gmap string bool * list FeatureMeta.

Section Search.
Variable L : Libs.
(** [commit.Files()]: the names of the files of the commit, in the order
    in which the iterator hands them out. *)
Variable Commit_Files : Commit → res (list string).

(** The callback that [SearchMeta] passes to [ForEach], for the file with
    the name [file_Name]; [name] is [name.MatchString]. *)
Definition visit (name : string → bool) (commit : Commit) (file_Name : string)
    (st : Found) : outcome (Found * option error) :=
  let pathComponents := Split file_Name in
  match pathComponents !! 0 with
  | None => Panics "runtime error: index out of range"
  | Some dir =>
      if decide (dir ≠ featureDir) then Returns (st, None)
      else
        match pathComponents !! 1 with
        | None => Panics "runtime error: index out of range"
        | Some featureName =>
            if default false (st.1 !! featureName) then Returns (st, None)
            else if name featureName then
              match getMeta L commit featureName with
              | Err err => Returns (st, Some err)
              | Ok meta =>
                  Returns ((<[featureName := true]> st.1, st.2 ++ [meta]), None)
              end
            else Returns (st, None)
        end
  end.

(** [all.ForEach(cb)]: the callback on each file in turn, up to the first
    error. *)
Fixpoint ForEach (cb : string → Found → outcome (Found * option error))
    (all : list string) (st : Found) : outcome (Found * option error) :=
  match all with
  | [] => Returns (st, None)
  | file :: rest =>
      match cb file st with
      | Panics msg => Panics msg
      | Returns (st', Some err) => Returns (st', Some err)
      | Returns (st', None) => ForEach cb rest st'
      end
  end.

Definition SearchMeta (storage : GitStorage) (name : string → bool)
    : outcome (res (list FeatureMeta)) :=
  match latestCommit storage with
  | Err err => Returns (Err err)
  | Ok commit =>
      match Commit_Files commit with
      | Err err => Returns (Err err)
      | Ok all =>
          match ForEach (visit name commit) all (∅, []) with
          | Panics msg => Panics msg
          | Returns (_, Some err) => Returns (Err err)
          | Returns ((_, matchedFeatures), None) => Returns (Ok matchedFeatures)
          end
      end
  end.

End Search.
End StorageSearch.

(** ** package pazuzu: the Dockerfile writer *)

Module Dockerfile.
Import Shared.

(** The line feed that [AppendRaw] and the generators write. *)
Definition LF : string := String "010"%char "".

(** [parser.Node] of docker's Dockerfile parser, with the fields the writer
    reads: a parsed line has its lower-cased instruction in [Value], its
    arguments chained through [Next] and its source text in [Original];
    the root has the lines as [Children]. *)
Inductive Node : Type := mkNode {
  Value : string;
  Next : option Node;
  Children : list Node;
  Original : string
}.

Record DockerfileWriter : Type := { buf : string }.

Definition NewDockerfileWriter : DockerfileWriter := {| buf := "" |}.

(** [bytes.Buffer.WriteString] returns a nil error. *)
Definition WriteString (b : string) (s : string) : string * option error :=
  (b +:+ s, None).

Definition AppendRaw (chunk : string) (c : DockerfileWriter)
    : DockerfileWriter * option error :=
  match WriteString (buf c) (chunk +:+ LF) with
  | (b, Some err) => ({| buf := b |}, Some err)
  | (b, None) => ({| buf := b |}, None)
  end.

Definition fixCopyCmd (node : Node) (feature : Feature) : res string :=
  match Next node with
  | None => Err ErrInvalidCopyCmdSyntax
  | Some srcNode =>
      match Next srcNode with
      | None => Err ErrInvalidCopyCmdSyntax
      | Some dstNode =>
          let fixedCmd :=
            "COPY " +:+ Name (Meta feature) +:+ "/" +:+ Value srcNode
                    +:+ " " +:+ Value dstNode in
          Ok fixedCmd
      end
  end.

(** The loop of [AppendFeature] over [ast.Children]; the error that
    [AppendRaw] returns is dropped, as in the source. *)
Fixpoint appendChildren (feature : Feature) (children : list Node)
    (c : DockerfileWriter) : DockerfileWriter * option error :=
  match children with
  | [] => (c, None)
  | cmdNode :: rest =>
      if String.eqb (Value cmdNode) "copy" then
        match fixCopyCmd cmdNode feature with
        | Err err => (c, Some err)
        | Ok fixedCmd => appendChildren feature rest (AppendRaw fixedCmd c).1
        end
      else appendChildren feature rest (AppendRaw (Original cmdNode) c).1
  end.

Section Writer.
(** [parser.Parse] on the snippet's text, with the default escape token. *)
Variable parser_Parse : string → res Node.

Definition AppendFeature (feature : Feature) (c : DockerfileWriter)
    : DockerfileWriter * option error :=
  match parser_Parse (Snippet feature) with
  | Err err => (c, Some err)
  | Ok ast => appendChildren feature (Children ast) c
  end.

Definition Bytes (c : DockerfileWriter) : string := buf c.

End Writer.
End Dockerfile.

(** ** package main: the registry-based generator and the test-spec runner *)

Module Main.
Import Dockerfile.

Record Feature : Type := {
  Name : string;
  DockerData : string;
  TestInstruction : string
}.

(** [TestSpec]; its fields [Feature] and [Cmd] are the JSON members
    ["feature"] and ["cmd"]. *)
Record TestSpec : Type := {
  spec_Feature : string;
  spec_Cmd : string
}.

Record Pazuzu : Type := {
  registry : string;
  dockerfile : string;
  testSpec : string;
  dockerEndpoint : string;
  docker : option string
}.

Definition set_dockerfile (p : Pazuzu) (bytes : string) : Pazuzu :=
  {| registry := registry p; dockerfile := bytes; testSpec := testSpec p;
     dockerEndpoint := dockerEndpoint p; docker := docker p |}.

Definition set_docker (p : Pazuzu) (client : option string) : Pazuzu :=
  {| registry := registry p; dockerfile := dockerfile p; testSpec := testSpec p;
     dockerEndpoint := dockerEndpoint p; docker := client |}.

(** *** generateDockerfile *)

(** The [for _, feature := range features] loop of [generateDockerfile]
    on the buffer. *)
Fixpoint writeFeatures (features : list Feature) (b : string) : string * option error :=
  match features with
  | [] => (b, None)
  | feature :: rest =>
      match WriteString b ("# " +:+ Name feature +:+ LF) with
      | (b, Some err) => (b, Some err)
      | (b, None) =>
          match WriteString b (DockerData feature +:+ LF) with
          | (b, Some err) => (b, Some err)
          | (b, None) => writeFeatures rest b
          end
      end
  end.

Definition generateDockerfile (p : Pazuzu) (features : list Feature)
    : Pazuzu * option error :=
  match WriteString "" ("FROM ubuntu:latest" +:+ LF) with
  | (_, Some err) => (p, Some err)
  | (b, None) =>
      match writeFeatures features b with
      | (_, Some err) => (p, Some err)
      | (b, None) =>
          match WriteString b ("CMD /bin/bash" +:+ LF) with
          | (_, Some err) => (p, Some err)
          | (b, None) => (set_dockerfile p b, None)
          end
      end
  end.

(** *** The test spec file *)

(** The files the process can see: their contents by path, and the paths
    that [os.Create] is refused. *)
Record FileSystem : Type := {
  Files : gmap string string;
  Denied : gset string
}.

Definition os_Create (fs : FileSystem) (name : string) : res FileSystem :=
  if decide (name ∈ Denied fs) then Err (Errorf ("open " +:+ name +:+ ": permission denied"))
  else Ok {| Files := <[name := ""]> (Files fs); Denied := Denied fs |}.

Definition os_Open (fs : FileSystem) (name : string) : res string :=
  match Files fs !! name with
  | Some content => Ok content
  | None => Err (Errorf ("open " +:+ name +:+ ": no such file or directory"))
  end.

(** Writing to the file that [os.Create] has just opened. *)
Definition File_Write (fs : FileSystem) (name : string) (data : string) : FileSystem :=
  {| Files := <[name := default "" (Files fs !! name) +:+ data]> (Files fs);
     Denied := Denied fs |}.

(** The [range] loop of [generateTestSpec]. *)
Fixpoint collectSpecs (features : list Feature) (specs : list TestSpec) : list TestSpec :=
  match features with
  | [] => specs
  | feature :: rest =>
      let spec := {| spec_Feature := Name feature; spec_Cmd := TestInstruction feature |} in
      collectSpecs rest (specs ++ [spec])
  end.

Section TestSpecFile.
(** [encoding/json] on a [[]TestSpec]: what [Marshal] produces and what
    [Unmarshal] makes of a text.  [Encoder.Encode] writes the marshalled
    value followed by a line feed; [Decoder.Decode] reads one value. *)
Variable json_Marshal : list TestSpec → res string.
Variable json_Unmarshal : string → res (list TestSpec).

Definition Encode (fs : FileSystem) (name : string) (specs : list TestSpec)
    : FileSystem * option error :=
  match json_Marshal specs with
  | Err err => (fs, Some err)
  | Ok text => (File_Write fs name (text +:+ LF), None)
  end.

Definition generateTestSpec (p : Pazuzu) (fs : FileSystem) (features : list Feature)
    : FileSystem * option error :=
  match os_Create fs (testSpec p) with
  | Err err => (fs, Some err)
  | Ok fs =>
      let specs := collectSpecs features [] in
      Encode fs (testSpec p) specs
  end.

Definition readTestSpec (p : Pazuzu) (fs : FileSystem) : res (list TestSpec) :=
  match os_Open fs (testSpec p) with
  | Err err => Err err
  | Ok f =>
      match json_Unmarshal f with
      | Err err => Err err
      | Ok specs => Ok specs
      end
  end.

(** [getFeatures]: the answer of the registry to the request for the
    features of these names. *)
Variable getFeatures : Pazuzu → list string → res (list Feature).

Definition Generate (p : Pazuzu) (disk : FileSystem) (features : list string)
    : Pazuzu * FileSystem * option error :=
  match getFeatures p features with
  | Err err => (p, disk, Some err)
  | Ok fs =>
      match generateDockerfile p fs with
      | (p, Some err) => (p, disk, Some err)
      | (p, None) =>
          match generateTestSpec p disk fs with
          | (disk, Some err) => (p, disk, Some err)
          | (disk, None) => (p, disk, None)
          end
      end
  end.

End TestSpecFile.

(** *** The docker daemon

    The runner talks to the daemon through go-dockerclient.  A daemon is
    given by its replies: each reply may depend on every call made before,
    so a stateful daemon is one of them.  The calls are kept in the order
    they were made. *)
Inductive Call : Type :=
  | NewClient (endpoint : string)
  | CreateContainer (image : string) (tty : bool) (cmd : list string)
  | StartContainer (id : string)
  | CreateExec (container : string) (cmd : list string)
  | StartExec (id : string)
  | InspectExec (id : string)
  | StopContainer (id : string) (timeout : Z)
  | RemoveContainer (id : string).

Record Daemon : Type := {
  reply_NewClient : list Call → string → option error;
  reply_CreateContainer : list Call → string → res string;
  reply_StartContainer : list Call → string → option error;
  reply_CreateExec : list Call → string → list string → res string;
  (** what the command wrote to stdout and stderr, and the error *)
  reply_StartExec : list Call → string → string * string * option error;
  (** the exit code of the command *)
  reply_InspectExec : list Call → string → res Z;
  reply_StopContainer : list Call → string → option error;
  reply_RemoveContainer : list Call → string → option error
}.

(** What the process has done so far: its calls to the daemon and what it
    printed on standard output. *)
Record World : Type := {
  calls : list Call;
  stdout : string
}.

Definition called (w : World) (c : Call) : World :=
  {| calls := calls w ++ [c]; stdout := stdout w |}.

Definition printed (w : World) (text : string) : World :=
  {| calls := calls w; stdout := stdout w +:+ text |}.

Section Runner.
Variable D : Daemon.

Definition dockerStart (p : Pazuzu) (image : string) (w : World)
    : World * Pazuzu * res string :=
  let err := reply_NewClient D (calls w) (dockerEndpoint p) in
  let w := called w (NewClient (dockerEndpoint p)) in
  match err with
  | Some err => (w, set_docker p None, Err err)
  | None =>
      let p := set_docker p (Some (dockerEndpoint p)) in
      let container := reply_CreateContainer D (calls w) image in
      let w := called w (CreateContainer image true ["/bin/bash"]) in
      match container with
      | Err err => (w, p, Err err)
      | Ok container =>
          let err := reply_StartContainer D (calls w) container in
          let w := called w (StartContainer container) in
          match err with
          | Some err => (w, p, Err err)
          | None => (w, p, Ok container)
          end
      end
  end.

Definition dockerExec (ID : string) (cmd : string) (w : World) : World * option error :=
  let Cmd := ["/bin/bash"; "-c"; cmd] in
  let exec := reply_CreateExec D (calls w) ID Cmd in
  let w := called w (CreateExec ID Cmd) in
  match exec with
  | Err err => (w, Some err)
  | Ok exec =>
      let '(buf, errBuf, err) := reply_StartExec D (calls w) exec in
      let w := called w (StartExec exec) in
      match err with
      | Some err => (w, Some err)
      | None =>
          let inspect := reply_InspectExec D (calls w) exec in
          let w := called w (InspectExec exec) in
          match inspect with
          | Err err => (w, Some err)
          | Ok ExitCode =>
              if decide (ExitCode > 0)%Z
              then (w, Some (Errorf ("exit code " +:+ pretty ExitCode +:+ ": " +:+ buf)))
              else (w, None)
          end
      end
  end.

Definition dockerStop (ID : string) (w : World) : World * option error :=
  let err := reply_StopContainer D (calls w) ID in
  let w := called w (StopContainer ID 1) in
  match err with
  | Some err => (w, Some err)
  | None =>
      let err := reply_RemoveContainer D (calls w) ID in
      let w := called w (RemoveContainer ID) in
      match err with
      | Some err => (w, Some err)
      | None => (w, None)
      end
  end.

(** The [for _, spec := range specs] loop of [RunTestSpec], with its
    counter [failedTests]. *)
Fixpoint runSpecs (ID : string) (specs : list TestSpec) (w : World) (failedTests : Z)
    : World * Z :=
  match specs with
  | [] => (w, failedTests)
  | spec :: rest =>
      let w := printed w ("Running test spec for feature '" +:+ spec_Feature spec
                          +:+ "':" +:+ LF +:+ String "009"%char "" +:+ spec_Cmd spec
                          +:+ LF) in
      match dockerExec ID (spec_Cmd spec) w with
      | (w, Some err) =>
          let w := printed w (Error err +:+ LF) in
          runSpecs ID rest w (failedTests + 1)
      | (w, None) => runSpecs ID rest w failedTests
      end
  end.

Section Run.
Variable json_Unmarshal : string → res (list TestSpec).

Definition RunTestSpec (p : Pazuzu) (image : string) (fs : FileSystem) (w : World)
    : World * Pazuzu * option error :=
  match readTestSpec json_Unmarshal p fs with
  | Err err => (w, p, Some err)
  | Ok specs =>
      match dockerStart p image w with
      | (w, p, Err err) => (w, p, Some err)
      | (w, p, Ok container) =>
          let '(w, failedTests) := runSpecs container specs w 0 in
          match dockerStop container w with
          | (w, Some err) => (w, p, Some err)
          | (w, None) =>
              if decide (failedTests > 0)%Z
              then (w, p, Some (Errorf ("number of failing tests: " +:+ pretty failedTests)))
              else (w, p, None)
          end
      end
  end.

End Run.
End Runner.

End Main.
(** ** package main: the registry client, the image build and the commands *)

Module Cli.
Import Dockerfile Main.

(** [strings.Join]. *)
Fixpoint strings_Join (elems : list string) (sep : string) : string :=
  match elems with
  | [] => ""
  | e :: rest =>
      match rest with
      | [] => e
      | _ => e +:+ sep +:+ strings_Join rest sep
      end
  end.

(** *** getFeatures *)

(** What [getFeatures] reads of a [http.Response]. *)
Record Response : Type := {
  StatusCode : Z;
  Body : string
}.

Record APIError : Type := {
  Code : string;
  Message : string;
  DetailedMessage : string
}.

Section Registry.
(** [http.Get]; [json.Decoder.Decode] on the body, into an [APIError] and
    into a [[]Feature]; and [fmt.Sprintf] of a format without operands, by
    which [fmt.Errorf] makes its message. *)
Variable http_Get : string → res Response.
Variable decode_APIError : string → res APIError.
Variable decode_Features : string → res (list Feature).
Variable fmt_Sprintf : string → string.

Definition getFeatures (p : Pazuzu) (features : list string) : res (list Feature) :=
  match http_Get (registry p +:+ "/features?name=" +:+ strings_Join features ",") with
  | Err err => Err err
  | Ok resp =>
      if decide (StatusCode resp ≠ 200%Z)
      then
        match decode_APIError (Body resp) with
        | Err err => Err err
        | Ok errResp => Err (Errorf (fmt_Sprintf (Message errResp)))
        end
      else
        match decode_Features (Body resp) with
        | Err err => Err err
        | Ok res => Ok res
        end
  end.

End Registry.

(** *** DockerBuild *)

(** The fields of a [tar.Header] that [DockerBuild] sets. *)
Record Header : Type := {
  hdr_Name : string;
  hdr_Size : Z;
  hdr_ModTime : Z;
  hdr_AccessTime : Z;
  hdr_ChangeTime : Z
}.

(** [docker.BuildImageOptions]; the output stream is always [os.Stdout]. *)
Record BuildImageOptions : Type := {
  opts_Name : string;
  opts_InputStream : string
}.

(** What a command works on: the files, the daemon and the standard
    output, and the builds that the daemon has been asked for. *)
Record Machine : Type := {
  m_disk : FileSystem;
  m_world : World;
  m_built : list BuildImageOptions
}.

Definition set_disk (m : Machine) (fs : FileSystem) : Machine :=
  {| m_disk := fs; m_world := m_world m; m_built := m_built m |}.

Definition set_world (m : Machine) (w : World) : Machine :=
  {| m_disk := m_disk m; m_world := w; m_built := m_built m |}.

(** [cli.Context], as the commands read it: the flags with their defaults
    filled in, and the arguments. *)
Record Context : Type := {
  flag_image_name : string;
  flag_test_spec : string;
  flag_verify : bool;
  flag_docker_endpoint : string;
  Args : list string
}.

(** [c.Args().First()]. *)
Definition Args_First (c : Context) : string := default "" (head (Args c)).

Section Commands.
Variable D : Daemon.
(** [time.Now]; the archive that a [tar.Writer] makes of one header and
    the bytes written after it; and the reply of the daemon to
    [BuildImage]: what it writes to the output stream, and the error. *)
Variable time_Now : Z.
Variable tar_archive : Header → string → string.
Variable reply_BuildImage :
  list Call → list BuildImageOptions → BuildImageOptions → string * option error.

Definition DockerBuild (p : Pazuzu) (name : string) (m : Machine) : Machine * option error :=
  let w := m_world m in
  let err := reply_NewClient D (calls w) (dockerEndpoint p) in
  let w := called w (NewClient (dockerEndpoint p)) in
  match err with
  | Some err => (set_world m w, Some err)
  | None =>
      let t := time_Now in
      let inputBuf :=
        tar_archive {| hdr_Name := "Dockerfile";
                       hdr_Size := Z.of_nat (String.length (dockerfile p));
                       hdr_ModTime := t; hdr_AccessTime := t; hdr_ChangeTime := t |}
                    (dockerfile p) in
      let opts := {| opts_Name := name; opts_InputStream := inputBuf |} in
      let '(out, err) := reply_BuildImage (calls w) (m_built m) opts in
      let m := {| m_disk := m_disk m; m_world := printed w out;
                  m_built := m_built m ++ [opts] |} in
      match err with
      | Some err => (m, Some err)
      | None => (m, None)
      end
  end.

(** *** The commands *)

Variable json_Marshal : list TestSpec → res string.
Variable json_Unmarshal : string → res (list TestSpec).
Variable getFeatures : Pazuzu → list string → res (list Feature).

(** The generator that both commands set up. *)
Definition pazuzu_of (c : Context) : Pazuzu :=
  {| registry := "http://localhost:8080/api"; dockerfile := "";
     testSpec := flag_test_spec c; dockerEndpoint := flag_docker_endpoint c;
     docker := None |}.

Definition verifyImage (c : Context) (m : Machine) : Machine * option error :=
  let pazuzu := pazuzu_of c in
  match RunTestSpec D json_Unmarshal pazuzu (Args_First c) (m_disk m) (m_world m) with
  | (w, _, Some err) => (set_world m w, Some err)
  | (w, _, None) => (set_world m w, None)
  end.

Definition buildFeatures (c : Context) (m : Machine) : Machine * option error :=
  let pazuzu := pazuzu_of c in
  if decide (length (Args c) = 0%nat)
  then (m, Some (Errorf "no features specified"))
  else
    match Generate json_Marshal getFeatures pazuzu (m_disk m) (Args c) with
    | (_, fs, Some err) => (set_disk m fs, Some err)
    | (pazuzu, fs, None) =>
        match DockerBuild pazuzu (flag_image_name c) (set_disk m fs) with
        | (m, Some err) => (m, Some err)
        | (m, None) =>
            if flag_verify c
            then
              match RunTestSpec D json_Unmarshal pazuzu (flag_image_name c)
                      (m_disk m) (m_world m) with
              | (w, _, Some err) => (set_world m w, Some err)
              | (w, _, None) => (set_world m w, None)
              end
            else (m, None)
        end
    end.

End Commands.

End Cli.
(** ** The resolver: what a successful run guarantees *)

Module ResolveFacts.
Import Shared Storageconnector.

Section Facts.
Variable L : Libs.
Variable commit : Commit.

(** [dep] is listed among the dependencies of the stored feature [name]. *)
Definition depends (name dep : string) : Prop :=
  ∃ feature, getFeature L commit name = Ok feature
             ∧ dep ∈ Dependencies (Meta feature).

(** The slice and the map describe the same features, the map holds
    what the store holds, and no recorded feature misses a dependency. *)
Record consistent (st : State) : Prop := {
  cons_keys : ∀ n, n ∈ st.1 ↔ is_Some (st.2 !! n);
  cons_store : ∀ n f, st.2 !! n = Some f → getFeature L commit n = Ok f;
  cons_closed : ∀ n f d,
    st.2 !! n = Some f → d ∈ Dependencies (Meta f) → d ∈ st.1
}.

(** Every recorded feature sits behind each of its dependencies. *)
Definition ordered (st : State) : Prop :=
  ∀ j n f d, st.1 !! j = Some n → st.2 !! n = Some f →
    d ∈ Dependencies (Meta f) → ∃ i, i < j ∧ st.1 !! i = Some d.

(** [st'] extends [st] by names reachable from [roots], all of which
    are recorded in [st']. *)
Definition grows (roots : list string) (st st' : State) : Prop :=
  consistent st'
  ∧ (∃ new, st'.1 = st.1 ++ new
            ∧ ∀ x, x ∈ new → ∃ r, r ∈ roots ∧ rtc depends r x)
  ∧ (∀ r, r ∈ roots → r ∈ st'.1).

Lemma consistent_empty : consistent ([], ∅).
Proof.
  split; simpl.
  - intros n. rewrite lookup_empty. split; [by intros ?%elem_of_nil | by intros [? ?]].
  - intros n f. by rewrite lookup_empty.
  - intros n f d. by rewrite lookup_empty.
Qed.

Lemma ordered_empty : ordered ([], ∅).
Proof. intros j n f d. simpl. by rewrite lookup_nil. Qed.

Lemma range_nil {S : Type} (body : string → S → option (S * option error)) st r :
  range body [] st = Some r ↔ r = (st, None).
Proof. simpl. split; [by intros [= <-] | by intros ->]. Qed.

Lemma range_cons_ok {S : Type} (body : string → S → option (S * option error))
    n ns st st' :
  range body (n :: ns) st = Some (st', None) ↔
  ∃ s1, body n st = Some (s1, None) ∧ range body ns s1 = Some (st', None).
Proof.
  simpl. destruct (body n st) as [[s1 [e|]]|] eqn:Hb.
  - split; [done | by intros (? & [=] & _)].
  - split; [by exists s1 | by intros (? & [= <-] & ?)].
  - split; [done | by intros (? & [=] & _)].
Qed.

Lemma depends_closed st n x :
  consistent st → n ∈ st.1 → rtc depends n x → x ∈ st.1.
Proof.
  intros Hc Hn Hr. induction Hr as [|a b z (f & Hf & Hd) _ IH]; [done|].
  apply IH. apply (cons_keys _ Hc) in Hn as [f' Hf'].
  pose proof (cons_store _ Hc _ _ Hf') as Hs.
  rewrite Hf in Hs. injection Hs as ->.
  by eapply cons_closed.
Qed.

Lemma grows_refl roots st :
  consistent st → (∀ r, r ∈ roots → r ∈ st.1) → grows roots st st.
Proof.
  intros Hc Hr. split; [done|]. split; [|done].
  exists []. split; [by rewrite app_nil_r | by intros x ?%elem_of_nil].
Qed.

(** One more root, resolved before the others. *)
Lemma grows_cons n ns st s1 st' :
  grows [n] st s1 → grows ns s1 st' → grows (n :: ns) st st'.
Proof.
  intros (Hc1 & (new1 & E1 & R1) & In1) (Hc2 & (new2 & E2 & R2) & In2).
  split; [done|]. split.
  - exists (new1 ++ new2). split; [by rewrite E2, E1, app_assoc|].
    intros x [Hx|Hx]%elem_of_app.
    + destruct (R1 x Hx) as (r & ->%list_elem_of_singleton & Hr).
      exists n. split; [left | done].
    + destruct (R2 x Hx) as (r & Hr & Hrx). exists r. split; [by right | done].
  - intros r [-> | Hr]%elem_of_cons; [|by apply In2].
    rewrite E2. apply elem_of_app. left. apply In1. by left.
Qed.

Lemma range_grows (body : string → State → option (State * option error)) names :
  (∀ n st st', consistent st → body n st = Some (st', None) → grows [n] st st') →
  ∀ st st', consistent st → range body names st = Some (st', None) →
    grows names st st'.
Proof.
  intros Hbody. induction names as [|n ns IH]; intros st st' Hc Hr.
  - apply range_nil in Hr as [= <-]. apply grows_refl; [done|].
    by intros r ?%elem_of_nil.
  - apply range_cons_ok in Hr as (s1 & Hb & Hr).
    pose proof (Hbody _ _ _ Hc Hb) as Hg1.
    eapply grows_cons; [done|]. apply IH; [apply Hg1 | done].
Qed.

Lemma resolve_grows fuel name st st' :
  consistent st → resolve L fuel commit name st = Some (st', None) →
  grows [name] st st'.
Proof.
  revert name st st'. induction fuel as [|fuel IH]; intros name st st' Hc; [done|].
  simpl. destruct (st.2 !! name) as [f|] eqn:Hlk.
  { intros [= <-]. apply grows_refl; [done|].
    intros r ->%list_elem_of_singleton. apply (cons_keys _ Hc). by exists f. }
  destruct (getFeature L commit name) as [feature|err] eqn:Hget; [|done].
  destruct (range _ _ st) as [[[list' result] [e|]]|] eqn:Hrange; [done| |done].
  intros [= <-].
  destruct (range_grows _ _ IH _ _ Hc Hrange) as (Hc' & (new & E & R) & Hin).
  simpl in E. split; [|split].
  - split; simpl.
    + intros n. rewrite elem_of_app, list_elem_of_singleton, lookup_insert_is_Some.
      rewrite <- (cons_keys _ Hc' n). simpl.
      destruct (decide (name = n)) as [->|]; intuition congruence.
    + intros n f. rewrite lookup_insert. case_decide as Hn.
      * intros [= <-]. by subst n.
      * apply (cons_store _ Hc').
    + intros n f d. rewrite lookup_insert, elem_of_app. case_decide as Hn.
      * intros [= <-] Hd. left. by apply Hin.
      * intros Hf Hd. left. by apply (cons_closed _ Hc' n f d).
  - exists (new ++ [name]). simpl. split; [by rewrite E, app_assoc|].
    intros x [Hx | ->%list_elem_of_singleton]%elem_of_app.
    + destruct (R x Hx) as (r & Hr & Hrx). exists name. split; [by left|].
      eapply rtc_l; [|done]. by exists feature.
    + exists name. split; [by left | done].
  - intros r ->%list_elem_of_singleton. simpl. apply elem_of_app. right. by left.
Qed.

(** A name that a successful call adds was resolved by a successful
    call of its own, with no more fuel, from a state without it. *)
Definition resolved_within (fuel : nat) (x : string) : Prop :=
  ∃ (fuel' : nat) (st0 st0' : State), (fuel' ≤ fuel)%nat ∧ consistent st0
    ∧ (x ∉ st0.1) ∧ resolve L fuel' commit x st0 = Some (st0', None).

Lemma range_added fuel names x :
  (∀ n st st', consistent st → resolve L fuel commit n st = Some (st', None) →
     x ∈ st'.1 → x ∉ st.1 → resolved_within fuel x) →
  ∀ st st', consistent st →
    range (resolve L fuel commit) names st = Some (st', None) →
    x ∈ st'.1 → x ∉ st.1 → resolved_within fuel x.
Proof.
  intros Hbody. induction names as [|n ns IH]; intros st st' Hc Hr Hin Hout.
  - by apply range_nil in Hr as [= <-].
  - apply range_cons_ok in Hr as (s1 & Hb & Hr).
    destruct (decide (x ∈ s1.1)) as [Hx|Hx].
    + by eapply Hbody.
    + eapply IH; [|done..]. by eapply resolve_grows.
Qed.

Lemma resolve_added fuel name st st' x :
  consistent st → resolve L fuel commit name st = Some (st', None) →
  x ∈ st'.1 → x ∉ st.1 → resolved_within fuel x.
Proof.
  revert name st st'. induction fuel as [|fuel IH]; intros name st st' Hc; [done|].
  intros Hres Hin Hout. pose proof Hres as Hcall. simpl in Hres.
  destruct (st.2 !! name) as [f|] eqn:Hlk; [by injection Hres as <-|].
  destruct (getFeature L commit name) as [feature|err] eqn:Hget; [|done].
  destruct (range _ _ st) as [[[list' result] [e|]]|] eqn:Hrange; [done| |done].
  injection Hres as Hst'. rewrite <- Hst' in Hin. simpl in Hin.
  apply elem_of_app in Hin as [Hx | ->%list_elem_of_singleton].
  - destruct (range_added fuel _ x IH _ _ Hc Hrange Hx Hout)
      as (fuel' & st0 & st0' & Hle & ?). exists fuel', st0, st0'. split; [lia | done].
  - by exists (S fuel), st, st'.
Qed.

(** A feature on a dependency cycle is never resolved: each successful
    call would contain a successful call for the same name on less fuel. *)
Lemma resolve_cycle fuel name st st' :
  consistent st → name ∉ st.1 → tc depends name name →
  resolve L fuel commit name st ≠ Some (st', None).
Proof.
  revert name st st'. induction (lt_wf fuel) as [fuel _ IH].
  intros name st st' Hc Hout Hcyc Hres.
  destruct fuel as [|fuel]; [done|]. simpl in Hres.
  destruct (st.2 !! name) as [f|] eqn:Hlk.
  { apply Hout, (cons_keys _ Hc). by exists f. }
  destruct (getFeature L commit name) as [feature|err] eqn:Hget; [|done].
  destruct (range _ _ st) as [[[list' result] [e|]]|] eqn:Hrange; [done| |done].
  assert (∃ d, d ∈ Dependencies (Meta feature) ∧ rtc depends d name)
    as (d & Hd & Hdn).
  { inversion Hcyc as [? ? (f & Hf & Hd)|? y ? (f & Hf & Hd) Hy]; subst;
      rewrite Hget in Hf; injection Hf as <-.
    - by exists name.
    - exists y. split; [done|]. by apply tc_rtc. }
  destruct (range_grows _ _ (resolve_grows fuel) _ _ Hc Hrange)
    as (Hc' & _ & Hin).
  assert (name ∈ list') as Hname.
  { apply (depends_closed (list', result) d name Hc'); [by apply Hin | done]. }
  destruct (range_added fuel _ name (λ n s s', resolve_added fuel n s s' name)
              _ _ Hc Hrange Hname Hout)
    as (fuel' & st0 & st0' & Hle & Hc0 & Hout0 & Hres0).
  eapply (IH fuel'); [lia|done..].
Qed.

Lemma range_ordered fuel names :
  (∀ n st st', consistent st → NoDup st.1 → ordered st →
     resolve L fuel commit n st = Some (st', None) → NoDup st'.1 ∧ ordered st') →
  ∀ st st', consistent st → NoDup st.1 → ordered st →
    range (resolve L fuel commit) names st = Some (st', None) →
    NoDup st'.1 ∧ ordered st'.
Proof.
  intros Hbody. induction names as [|n ns IH]; intros st st' Hc Hnd Hord Hr.
  - by apply range_nil in Hr as [= <-].
  - apply range_cons_ok in Hr as (s1 & Hb & Hr).
    destruct (Hbody _ _ _ Hc Hnd Hord Hb) as [Hnd1 Hord1].
    eapply IH; [|done..]. by eapply resolve_grows.
Qed.

Lemma resolve_ordered fuel name st st' :
  consistent st → NoDup st.1 → ordered st →
  resolve L fuel commit name st = Some (st', None) →
  NoDup st'.1 ∧ ordered st'.
Proof.
  revert name st st'. induction fuel as [|fuel IH]; intros name st st' Hc Hnd Hord; [done|].
  intros Hres. pose proof Hres as Hcall. simpl in Hres.
  destruct (st.2 !! name) as [f|] eqn:Hlk; [by injection Hres as <-|].
  destruct (getFeature L commit name) as [feature|err] eqn:Hget; [|done].
  destruct (range _ _ st) as [[[list' result] [e|]]|] eqn:Hrange; [done| |done].
  injection Hres as <-. simpl.
  destruct (range_ordered fuel _ IH _ _ Hc Hnd Hord Hrange) as [Hnd' Hord'].
  destruct (range_grows _ _ (resolve_grows fuel) _ _ Hc Hrange)
    as (Hc' & (new & E & R) & Hin). simpl in *.
  assert (name ∉ st.1) as Hout.
  { rewrite (cons_keys _ Hc), Hlk. by intros [? ?]. }
  assert (name ∉ list') as Hfresh.
  { intros Hname. rewrite E in Hname. apply elem_of_app in Hname as [?|Hname]; [done|].
    destruct (R _ Hname) as (d & Hd & Hdn).
    eapply (resolve_cycle (S fuel) name st); [done..| |exact Hcall].
    eapply tc_rtc_r; [|done]. apply tc_once. by exists feature. }
  split.
  - apply NoDup_app. split; [done|]. split; [|apply NoDup_singleton].
    by intros x Hx ->%list_elem_of_singleton.
  - intros j n f d Hj Hf Hd. simpl in Hj, Hf |- *.
    apply lookup_snoc_Some in Hj as [[Hlt Hj]|[-> <-]].
    + assert (n ≠ name) as Hne.
      { intros ->. apply Hfresh. by eapply list_elem_of_lookup_2. }
      rewrite lookup_insert_ne in Hf by done.
      destruct (Hord' j n f d Hj Hf Hd) as (i & Hi & Hid). exists i. split; [done|].
      by apply lookup_app_l_Some.
    + rewrite lookup_insert_eq in Hf. injection Hf as <-.
      apply Hin, list_elem_of_lookup in Hd as [i Hi]. exists i. split.
      * by eapply lookup_lt_Some.
      * by apply lookup_app_l_Some.
Qed.

(** The invariant read through transitive dependencies. *)
Lemma ordered_transitive st name dep :
  consistent st → NoDup st.1 → ordered st →
  tc (λ a b, ∃ f, st.2 !! a = Some f ∧ b ∈ Dependencies (Meta f)) name dep →
  ∃ i j, i < j ∧ st.1 !! i = Some dep ∧ st.1 !! j = Some name.
Proof.
  intros Hc Hnd Hord Htc.
  assert (∀ a b, (∃ f, st.2 !! a = Some f ∧ b ∈ Dependencies (Meta f)) →
            ∃ i j, i < j ∧ st.1 !! i = Some b ∧ st.1 !! j = Some a) as Hstep.
  { intros a b (f & Hf & Hb).
    assert (a ∈ st.1) as [j Hj]%list_elem_of_lookup.
    { apply (cons_keys _ Hc). by exists f. }
    destruct (Hord j a f b Hj Hf Hb) as (i & Hi & Hib). by exists i, j. }
  induction Htc as [a b Hab|a b c Hab _ IH]; [by apply Hstep|].
  destruct (Hstep _ _ Hab) as (i1 & j1 & Hlt1 & Hi1 & Hj1).
  destruct IH as (i2 & j2 & Hlt2 & Hi2 & Hj2).
  assert (j2 = i1) as -> by (by eapply NoDup_lookup).
  exists i2, j1. split; [lia | done].
Qed.

(** *** Errors *)

Lemma range_error {S : Type} (body : string → S → option (S * option error))
    names st st' err :
  range body names st = Some (st', Some err) →
  ∃ n s, n ∈ names ∧ body n s = Some (st', Some err).
Proof.
  revert st. induction names as [|n ns IH]; intros st; [done|].
  simpl. destruct (body n st) as [[s1 [e|]]|] eqn:Hb; [| |done].
  - intros [= <- <-]. exists n, st. split; [by left | done].
  - intros (m & s & Hm & Hbody)%IH. exists m, s. split; [by right | done].
Qed.

(** A failing call returns the error of [getFeature] for a name it reached,
    as it got it. *)
Lemma resolve_error fuel name st st' err :
  resolve L fuel commit name st = Some (st', Some err) →
  ∃ missing, rtc depends name missing ∧ getFeature L commit missing = Err err.
Proof.
  revert name st st'. induction fuel as [|fuel IH]; intros name st st'; [done|].
  simpl. destruct (st.2 !! name); [done|].
  destruct (getFeature L commit name) as [feature|e] eqn:Hget.
  - destruct (range _ _ st) as [[[list' result] [e|]]|] eqn:Hrange; [|done..].
    intros [= <- <-]. apply range_error in Hrange as (d & s & Hd & Hres).
    apply IH in Hres as (missing & Hreach & Hmissing).
    exists missing. split; [|done]. eapply rtc_l; [|done]. by exists feature.
  - intros [= <- <-]. by exists name.
Qed.

(** *** The fetches of a run *)

Definition untraced (r : Traced * option error) : State * option error := (r.1.1, r.2).

Lemma range_untraced (body_t : string → Traced → option (Traced * option error))
    (body : string → State → option (State * option error)) names :
  (∀ n st tr, untraced <$> body_t n (st, tr) = body n st) →
  ∀ st tr, untraced <$> range body_t names (st, tr) = range body names st.
Proof.
  intros Hbody. induction names as [|n ns IH]; intros st tr; [done|].
  simpl. rewrite <- (Hbody n st tr).
  destruct (body_t n (st, tr)) as [[[s1 tr1] [e|]]|]; simpl; [done| |done].
  apply IH.
Qed.

Lemma resolve_untraced fuel name st tr :
  untraced <$> resolve_traced L fuel commit name (st, tr) = resolve L fuel commit name st.
Proof.
  revert name st tr. induction fuel as [|fuel IH]; intros name st tr; [done|].
  simpl. destruct (st.2 !! name); [done|].
  destruct (getFeature L commit name) as [feature|err]; [|done].
  rewrite <- (range_untraced (resolve_traced L fuel commit) (resolve L fuel commit)
               _ IH st (tr ++ [name])).
  by destruct (range (resolve_traced L fuel commit) _ (st, tr ++ [name]))
    as [[[[list' result] tr1] [e|]]|].
Qed.

(** The names fetched during a successful call are the names it adds. *)
Definition fetches_added (st : Traced) (st' : Traced) : Prop :=
  ∃ new fetched, st'.1.1 = st.1.1 ++ new ∧ st'.2 = st.2 ++ fetched ∧ fetched ≡ₚ new.

Lemma fetches_added_trans st1 st2 st3 :
  fetches_added st1 st2 → fetches_added st2 st3 → fetches_added st1 st3.
Proof.
  intros (n1 & f1 & E1 & F1 & P1) (n2 & f2 & E2 & F2 & P2).
  exists (n1 ++ n2), (f1 ++ f2). rewrite E2, E1, F2, F1, !app_assoc.
  split; [done|]. split; [done|]. by apply Permutation_app.
Qed.

Lemma range_fetches (body : string → Traced → option (Traced * option error)) names :
  (∀ n st st', body n st = Some (st', None) → fetches_added st st') →
  ∀ st st', range body names st = Some (st', None) → fetches_added st st'.
Proof.
  intros Hbody. induction names as [|n ns IH]; intros st st' Hr.
  - apply range_nil in Hr as [= <-]. exists [], []. by rewrite !app_nil_r.
  - apply range_cons_ok in Hr as (s1 & Hb & Hr).
    eapply fetches_added_trans; [by eapply Hbody | by apply IH].
Qed.

Lemma resolve_fetches fuel name st st' :
  resolve_traced L fuel commit name st = Some (st', None) → fetches_added st st'.
Proof.
  revert name st st'. induction fuel as [|fuel IH]; intros name st st'; [done|].
  simpl. destruct (st.1.2 !! name).
  { intros [= <-]. exists [], []. by rewrite !app_nil_r. }
  destruct (getFeature L commit name) as [feature|err]; [|done].
  destruct (range _ _ _) as [[[[list' result] tr1] [e|]]|] eqn:Hrange; [done| |done].
  intros [= <-]. apply (range_fetches _ _ IH) in Hrange as (new & fetched & E & F & P).
  simpl in *. exists (new ++ [name]), (name :: fetched).
  split; [by rewrite E, app_assoc|]. split; [by rewrite F, <- app_assoc|].
  rewrite <- P. apply Permutation_cons_append.
Qed.

(** *** Fuel *)

(** More fuel does not change what a call returns. *)
Lemma range_fuel_mono {S : Type} (body body' : string → S → option (S * option error)) names :
  (∀ n st r, body n st = Some r → body' n st = Some r) →
  ∀ st r, range body names st = Some r → range body' names st = Some r.
Proof.
  intros Hbody. induction names as [|n ns IH]; intros st r; [done|].
  simpl. destruct (body n st) as [[s1 [e|]]|] eqn:Hb; [| |done].
  - by rewrite (Hbody _ _ _ Hb).
  - rewrite (Hbody _ _ _ Hb). apply IH.
Qed.

Lemma resolve_fuel_mono fuel fuel' name st r :
  (fuel ≤ fuel')%nat → resolve L fuel commit name st = Some r →
  resolve L fuel' commit name st = Some r.
Proof.
  revert fuel' name st r. induction fuel as [|fuel IH]; intros fuel' name st r Hle; [done|].
  destruct fuel' as [|fuel']; [lia|]. simpl.
  destruct (st.2 !! name); [done|].
  destruct (getFeature L commit name) as [feature|err]; [|done].
  destruct (range (resolve L fuel commit) _ st) as [r1|] eqn:Hrange; [|done].
  rewrite (range_fuel_mono _ (resolve L fuel' commit) _
             (λ n s r, IH fuel' n s r ltac:(lia)) _ _ Hrange). done.
Qed.

End Facts.

(** When the dependencies of stored features go down along a rank, every
    call returns: the rank of the name bounds the fuel it needs. *)
Section Ranked.
Variable L : Libs.
Variable commit : Commit.
Variable rank : string → nat.
Hypothesis rank_decreases : ∀ name dep, depends L commit name dep → rank dep < rank name.

Lemma range_total {S : Type} (body : string → S → option (S * option error)) names :
  (∀ n st, n ∈ names → is_Some (body n st)) →
  ∀ st, is_Some (range body names st).
Proof.
  induction names as [|n ns IH]; intros Hbody st; [by eexists|].
  simpl. destruct (Hbody n st) as [[s1 [e|]] ->]; [by left|by eexists|].
  apply IH. intros m s Hm. apply Hbody. by right.
Qed.

Lemma resolve_total fuel name st :
  rank name < fuel → is_Some (resolve L fuel commit name st).
Proof.
  revert name st. induction fuel as [|fuel IH]; intros name st Hlt; [lia|].
  simpl. destruct (st.2 !! name); [by eexists|].
  destruct (getFeature L commit name) as [feature|err] eqn:Hget; [|by eexists].
  destruct (range_total (resolve L fuel commit) (Dependencies (Meta feature))) with (st := st)
    as [[[list' result] [e|]] ->]; [|by eexists..].
  intros d s Hd. apply IH.
  assert (rank d < rank name) by (apply rank_decreases; by exists feature). lia.
Qed.

End Ranked.
End ResolveFacts.

(** ** The resolver: the store of the tests *)

Module Demo.
Import Shared Storageconnector.

(** [path.Join] on plain path elements: the elements with a slash between. *)
Definition join (elem : list string) : string := String.concat "/" elem.

(** The non-empty pieces of a text between occurrences of [sep]. *)
Fixpoint split (sep : ascii) (s : string) (piece : string) : list string :=
  match s with
  | EmptyString => if decide (piece = "") then [] else [piece]
  | String c rest =>
      if Ascii.eqb c sep
      then (if decide (piece = "") then split sep rest "" else piece :: split sep rest "")
      else split sep rest (piece +:+ String c "")
  end.

(** Stand-ins for the libraries: a [meta.yml] here is the blank-separated
    list of the feature's dependencies, by SomeAuthor; a test spec is read
    as it is. *)
Definition libs : Libs := {|
  path_Join := join;
  yaml_Unmarshal := λ content,
    Ok {| yDescription := ""; yAuthor := "SomeAuthor"; yDependencies := split " " content "" |};
  ReadTestSpec := λ content, Ok content
|}.

Definition meta_file (name : string) (dependencies : string) : string * File :=
  (join [featureDir; name; featureFile], {| ReadAll := Ok dependencies |}).

(** The four features of [TestDummyResolve]: A needs B and C, C needs D. *)
Definition commit : Commit := {|
  Files := list_to_map [
    meta_file "FeatureA" "FeatureB FeatureC";
    meta_file "FeatureB" "";
    meta_file "FeatureC" "FeatureD";
    meta_file "FeatureD" "" ];
  Committer_When := 0
|}.

Definition storage : GitStorage :=
  {| repo := {| Head := Ok "HEAD"; Commits := λ _, Ok commit |} |}.

(** B needs itself through C: a cycle. *)
Definition cyclic : GitStorage :=
  {| repo := {| Head := Ok "HEAD";
                Commits := λ _, Ok {|
                  Files := list_to_map [ meta_file "FeatureB" "FeatureC";
                                         meta_file "FeatureC" "FeatureB" ];
                  Committer_When := 0 |} |} |}.

(** The two features of [TestMemoryGet]: A needs B and C, and C is not stored. *)
Definition partial : GitStorage :=
  {| repo := {| Head := Ok "HEAD";
                Commits := λ _, Ok {|
                  Files := list_to_map [ meta_file "FeatureA" "FeatureB FeatureC";
                                         meta_file "FeatureB" "" ];
                  Committer_When := 0 |} |} |}.

End Demo.

(** ** The resolver: the properties of [Resolve] *)

Module ResolveClaims.
Import Shared Storageconnector ResolveFacts.

(** [dep] is listed among the dependencies of the resolved feature [name]. *)
Definition requires (result : gmap string Feature) (name dep : string) : Prop :=
  ∃ feature, result !! name = Some feature ∧ dep ∈ Dependencies (Meta feature).

(** How often [name] occurs in a sequence. *)
Definition occurrences (name : string) (names : list string) : nat :=
  length (filter (λ n, n = name) names).

Lemma occurrences_absent name names :
  name ∉ names → occurrences name names = 0.
Proof.
  unfold occurrences. induction names as [|n ns IH]; [done|].
  intros [Hne Hns]%not_elem_of_cons.
  rewrite filter_cons_False by (by intros ->). by apply IH.
Qed.

Lemma occurrences_NoDup name names :
  NoDup names → name ∈ names → occurrences name names = 1.
Proof.
  induction 1 as [|n ns Hn Hnd IH]; [by intros ?%elem_of_nil|].
  intros [-> | Hin]%elem_of_cons; unfold occurrences.
  - rewrite filter_cons_True by done. simpl. f_equal. by apply occurrences_absent.
  - rewrite filter_cons_False; [by apply IH|]. by intros ->.
Qed.

Section Resolved.
Variable L : Libs.

(** What holds of the state after the loop of a successful [Resolve]. *)
Lemma Resolve_ok_inv fuel storage names slice result :
  Resolve L fuel storage names = Some (slice, result, None) →
  ∃ commit, latestCommit storage = Ok commit
    ∧ range (resolve L fuel commit) names ([], ∅) = Some ((slice, result), None)
    ∧ grows L commit names ([], ∅) (slice, result)
    ∧ NoDup slice ∧ ordered (slice, result).
Proof.
  unfold Resolve. destruct (latestCommit storage) as [commit|err]; [|done].
  destruct (range _ names _) as [[[slice' result'] [e|]]|] eqn:Hrange; [done| |done].
  intros [= <- <-]. exists commit. split; [done|]. split; [done|].
  pose proof (consistent_empty L commit) as Hc. split.
  - by apply (range_grows L commit _ _ (resolve_grows L commit fuel)) in Hrange.
  - apply (range_ordered L commit fuel names (resolve_ordered L commit fuel)
             ([], ∅) (slice', result')); [done|apply NoDup_nil_2|apply ordered_empty|done].
Qed.

(** C1.  When [Resolve] succeeds, every feature it returns stands in the
    returned sequence strictly behind each of its direct and transitive
    dependencies, and everything a feature lists as a dependency is in the
    part of the sequence that was appended before the feature. *)
Theorem Resolve_dependencies_first fuel storage names slice result :
  Resolve L fuel storage names = Some (slice, result, None) →
  (∀ name dep, tc (requires result) name dep →
     ∃ i j, i < j ∧ slice !! i = Some dep ∧ slice !! j = Some name)
  ∧ (∀ before name after feature dep,
       slice = before ++ name :: after → result !! name = Some feature →
       dep ∈ Dependencies (Meta feature) → dep ∈ before).
Proof.
  intros (commit & _ & _ & (Hc & _ & _) & Hnd & Hord)%Resolve_ok_inv. split.
  - intros name dep Htc.
    by apply (ordered_transitive L commit (slice, result) name dep Hc Hnd Hord).
  - intros before name after feature dep -> Hf Hdep.
    destruct (Hord (length before) name feature dep) as (i & Hi & Hid); [|done..|].
    { simpl. by rewrite list_lookup_middle. }
    simpl in Hid. rewrite lookup_app_l in Hid by done.
    by eapply list_elem_of_lookup_2.
Qed.

(** C2.  When [Resolve] succeeds, the returned sequence has no name twice,
    its names are exactly the keys of the returned map, every name reachable
    from a requested one occurs exactly once in it, and the run called
    [getFeature] exactly once for each of these names. *)
Theorem Resolve_each_feature_once fuel storage names slice result :
  Resolve L fuel storage names = Some (slice, result, None) →
  NoDup slice
  ∧ (∀ name, name ∈ slice ↔ is_Some (result !! name))
  ∧ ∃ fetched,
      Resolve_traced L fuel storage names = Some (slice, result, None, fetched)
      ∧ fetched ≡ₚ slice
      ∧ ∀ root name, root ∈ names → rtc (requires result) root name →
          occurrences name slice = 1 ∧ occurrences name fetched = 1.
Proof.
  intros Hres. pose proof Hres as (commit & Hcommit & Hrange & (Hc & _ & Hroots) & Hnd & _)%Resolve_ok_inv.
  split; [done|]. split; [apply (cons_keys _ _ _ Hc)|].
  pose proof (range_untraced _ _ names (resolve_untraced L commit fuel) ([], ∅) [])
    as Herase.
  rewrite Hrange in Herase. unfold Resolve_traced. rewrite Hcommit.
  destruct (range (resolve_traced L fuel commit) names _)
    as [[[[slice' result'] fetched] e]|] eqn:Htraced; [|done].
  injection Herase as -> -> ->. exists fetched. split; [done|].
  apply (range_fetches _ _ (resolve_fetches L commit fuel)) in Htraced
    as (new & fetched' & E & F & P). simpl in E, F. subst.
  split; [done|]. intros root name Hroot Hreach.
  assert (name ∈ new) as Hin.
  { apply Hroots in Hroot. simpl in Hroot.
    induction Hreach as [|a b c (f & Hf & Hb) _ IH]; [done|].
    apply IH. by apply (cons_closed _ _ _ Hc a f b). }
  split; apply occurrences_NoDup; by rewrite ?P.
Qed.

(** [Resolve] returns when the dependencies of the stored features go
    down along a rank, and what it returns does not depend on the fuel. *)
Lemma Resolve_returns (rank : string → nat) storage commit names :
  latestCommit storage = Ok commit →
  (∀ name dep, depends L commit name dep → rank dep < rank name) →
  ∃ fuel, is_Some (Resolve L fuel storage names).
Proof.
  intros Hcommit Hrank. exists (S (list_sum (rank <$> names))).
  unfold Resolve. rewrite Hcommit.
  destruct (range_total (resolve L (S (list_sum (rank <$> names))) commit) names)
    with (st := ([], ∅) : State) as [[[slice result] [e|]] ->]; [|by eexists..].
  intros n st Hn. apply (resolve_total L commit rank Hrank).
  apply list_elem_of_split in Hn as (l1 & l2 & ->).
  rewrite fmap_app, list_sum_app. simpl. lia.
Qed.

Lemma Resolve_fuel_mono fuel fuel' storage names r :
  (fuel ≤ fuel')%nat → Resolve L fuel storage names = Some r →
  Resolve L fuel' storage names = Some r.
Proof.
  intros Hle. unfold Resolve. destruct (latestCommit storage) as [commit|err]; [|done].
  destruct (range (resolve L fuel commit) names _) as [r1|] eqn:Hrange; [|done].
  by rewrite (range_fuel_mono _ (resolve L fuel' commit) names
                (λ n s r, resolve_fuel_mono L commit fuel fuel' n s r Hle) _ _ Hrange).
Qed.

(** Without names the loop of [Resolve] has nothing to do: the call
    returns what it started with, and no error of its own. *)
Lemma Resolve_nil fuel storage :
  Resolve L fuel storage [] =
    match latestCommit storage with
    | Ok _ => Some ([], ∅, None)
    | Err err => Some ([], ∅, Some err)
    end.
Proof. unfold Resolve. by destruct (latestCommit storage). Qed.

(** A name without a [meta.yml] makes [getFeature] return the sentinel of
    [commit.File], whatever the name. *)
Lemma getFeature_missing commit name :
  Files commit !! path_Join L [featureDir; name; featureFile] = None →
  getFeature L commit name = Err ErrFileNotFound.
Proof.
  intros Hnone. unfold getFeature, getMeta, Commit_File. by rewrite Hnone.
Qed.

(** The first error ends the run: [Resolve] hands it on unchanged and
    returns neither names nor features. *)
Lemma Resolve_first_missing fuel storage commit name rest :
  latestCommit storage = Ok commit →
  Files commit !! path_Join L [featureDir; name; featureFile] = None →
  Resolve L (S fuel) storage (name :: rest) = Some ([], ∅, Some ErrFileNotFound).
Proof.
  intros Hcommit Hnone. unfold Resolve. rewrite Hcommit. simpl.
  rewrite lookup_empty. by rewrite (getFeature_missing commit name Hnone).
Qed.

(** An error of [Resolve] is the error of the repository or of
    [getFeature] for a requested name or one of its dependencies, handed on
    unchanged; nothing of what was resolved before is returned. *)
Lemma Resolve_error fuel storage names slice result err :
  Resolve L fuel storage names = Some (slice, result, Some err) →
  slice = [] ∧ result = ∅
  ∧ (latestCommit storage = Err err
     ∨ ∃ commit root missing,
         latestCommit storage = Ok commit ∧ root ∈ names
         ∧ rtc (depends L commit) root missing
         ∧ getFeature L commit missing = Err err).
Proof.
  unfold Resolve. destruct (latestCommit storage) as [commit|e].
  - destruct (range _ names _) as [[[slice' result'] [e|]]|] eqn:Hrange; [|done..].
    intros [= <- <- <-]. split; [done|]. split; [done|]. right.
    apply range_error in Hrange as (root & s & Hroot & Hres).
    apply resolve_error in Hres as (missing & Hreach & Hmissing).
    by exists commit, root, missing.
  - intros [= <- <- <-]. by repeat split; [..|left].
Qed.

(** With ranked dependencies, requesting a name that the store cannot
    deliver, or a name that depends on one, makes [Resolve] fail. *)
Lemma Resolve_missing_fails (rank : string → nat) storage commit names root missing e :
  latestCommit storage = Ok commit →
  (∀ name dep, depends L commit name dep → rank dep < rank name) →
  root ∈ names → rtc (depends L commit) root missing →
  getFeature L commit missing = Err e →
  ∃ fuel err, Resolve L fuel storage names = Some ([], ∅, Some err).
Proof.
  intros Hcommit Hrank Hroot Hreach Hmissing.
  destruct (Resolve_returns rank storage commit names Hcommit Hrank)
    as (fuel & [[slice result] [err|]] & Hres).
  - exists fuel, err. by destruct (Resolve_error _ _ _ _ _ _ Hres) as (-> & -> & _).
  - exfalso.
    apply Resolve_ok_inv in Hres as (commit' & Hcommit' & _ & (Hc & _ & Hroots) & _).
    rewrite Hcommit in Hcommit'. injection Hcommit' as <-.
    apply Hroots in Hroot.
    apply (depends_closed L commit _ _ _ Hc Hroot) in Hreach.
    apply (cons_keys _ _ _ Hc) in Hreach as [f Hf].
    apply (cons_store _ _ _ Hc) in Hf. congruence.
Qed.

End Resolved.

(** *** On the store of the tests *)

Definition stored (name : string) (dependencies : list string) : Feature :=
  {| Meta := {| Name := name; Description := ""; Author := "SomeAuthor";
                Dependencies := dependencies; UpdatedAt := 0 |};
     Snippet := ""; TestSnippet := "" |}.

Definition resolved_A : gmap string Feature :=
  list_to_map [ ("FeatureA", stored "FeatureA" ["FeatureB"; "FeatureC"]);
                ("FeatureB", stored "FeatureB" []);
                ("FeatureC", stored "FeatureC" ["FeatureD"]);
                ("FeatureD", stored "FeatureD" []) ].

Example Resolve_FeatureA :
  Resolve Demo.libs 4 Demo.storage ["FeatureA"]
  = Some (["FeatureB"; "FeatureD"; "FeatureC"; "FeatureA"], resolved_A, None).
Proof. vm_compute. reflexivity. Qed.

(** The example scenario: A needs B, so B comes first. *)
Example Resolve_scenario :
  Resolve Demo.libs 2
    {| repo := {| Head := Ok "HEAD";
                  Commits := λ _, Ok {|
                    Files := list_to_map [ Demo.meta_file "A" "B"; Demo.meta_file "B" "" ];
                    Committer_When := 0 |} |} |} ["A"]
  = Some (["B"; "A"],
          list_to_map [ ("A", stored "A" ["B"]); ("B", stored "B" []) ], None).
Proof. vm_compute. reflexivity. Qed.

(** On a cycle [Resolve] does not return, whatever the fuel. *)
Example Resolve_cyclic fuel :
  Resolve Demo.libs fuel Demo.cyclic ["FeatureB"] = None.
Proof.
  unfold Resolve. simpl latestCommit. cbn -[resolve]. set (c := {| Files := _ |}).
  assert (∀ st : State, st.2 !! "FeatureB" = None → st.2 !! "FeatureC" = None →
            resolve Demo.libs fuel c "FeatureB" st = None
            ∧ resolve Demo.libs fuel c "FeatureC" st = None) as Hnone.
  { induction fuel as [|fuel IH]; intros st HB HC; [done|].
    destruct (IH st HB HC) as [IHB IHC]. simpl. rewrite HB, HC.
    change (getFeature Demo.libs c "FeatureB") with (Ok (stored "FeatureB" ["FeatureC"])).
    change (getFeature Demo.libs c "FeatureC") with (Ok (stored "FeatureC" ["FeatureB"])).
    simpl. by rewrite IHB, IHC. }
  destruct (Hnone (([], ∅) : State)) as [-> _]; [apply lookup_empty..|done].
Qed.

(** D, a dependency of C and so of A, stands before A in the sequence that
    [Resolve] returns for A. *)
Lemma Resolve_dependencies_first_witness :
  ∃ i j, i < j
    ∧ ["FeatureB"; "FeatureD"; "FeatureC"; "FeatureA"] !! i = Some "FeatureD"
    ∧ ["FeatureB"; "FeatureD"; "FeatureC"; "FeatureA"] !! j = Some "FeatureA".
Proof.
  refine (proj1 (Resolve_dependencies_first Demo.libs 4 Demo.storage ["FeatureA"]
                   _ resolved_A _) "FeatureA" "FeatureD" _).
  - vm_compute. reflexivity.
  - apply tc_l with "FeatureC".
    + exists (stored "FeatureA" ["FeatureB"; "FeatureC"]). split; [reflexivity|].
      right. left.
    + apply tc_once. exists (stored "FeatureC" ["FeatureD"]). split; [reflexivity|].
      left.
Defined.

(** D is needed by A (through C) and by C, both requested: it is in the
    sequence once and was fetched once. *)
Lemma Resolve_each_feature_once_witness :
  occurrences "FeatureD" ["FeatureB"; "FeatureD"; "FeatureC"; "FeatureA"] = 1
  ∧ ∃ fetched,
      Resolve_traced Demo.libs 4 Demo.storage ["FeatureA"; "FeatureC"]
      = Some (["FeatureB"; "FeatureD"; "FeatureC"; "FeatureA"], resolved_A, None, fetched)
      ∧ occurrences "FeatureD" fetched = 1.
Proof.
  destruct (Resolve_each_feature_once Demo.libs 4 Demo.storage ["FeatureA"; "FeatureC"]
              ["FeatureB"; "FeatureD"; "FeatureC"; "FeatureA"] resolved_A)
    as (_ & _ & fetched & Htraced & _ & Honce).
  { vm_compute. reflexivity. }
  destruct (Honce "FeatureC" "FeatureD") as [Hslice Hfetched].
  { right. left. }
  { apply rtc_once. exists (stored "FeatureC" ["FeatureD"]). split; [reflexivity | left]. }
  split; [exact Hslice|]. exists fetched. split; [exact Htraced | exact Hfetched].
Defined.

(** C5, on the code.  [Resolve] without names does not fail: when the
    repository has its head commit the call returns the empty sequence, the
    empty map and no error, where the test of the in-memory store expects
    the error "No features provided to resolve". *)
Theorem Resolve_empty_input (L : Libs) (fuel : nat) (storage : GitStorage) :
  Resolve L fuel storage [] =
    match latestCommit storage with
    | Ok _ => Some ([], ∅, None)
    | Err err => Some ([], ∅, Some err)
    end
  ∧ Resolve Demo.libs fuel Demo.storage [] = Some ([], ∅, None).
Proof. split; [apply Resolve_nil | reflexivity]. Qed.

(** C6, on the code.  For a name that the store does not hold, requested
    or reached as a dependency, [Resolve] returns the error of
    [commit.File], the one value [git.ErrFileNotFound]: it is the same for
    FooBoo, for Quux and for FeatureC, so it names none of them, where the
    test of the in-memory store expects "Feature 'FooBoo' was not found". *)
Theorem Resolve_unknown_name (fuel : nat) :
  Resolve Demo.libs (S fuel) Demo.storage ["FooBoo"; "FeatureD"]
    = Some ([], ∅, Some ErrFileNotFound)
  ∧ Resolve Demo.libs (S fuel) Demo.storage ["Quux"; "FeatureD"]
    = Some ([], ∅, Some ErrFileNotFound)
  ∧ Resolve Demo.libs (S (S fuel)) Demo.partial ["FeatureA"]
    = Some ([], ∅, Some ErrFileNotFound)
  ∧ Error ErrFileNotFound ≠ "Feature 'FooBoo' was not found".
Proof.
  split; [|split; [|split]].
  - by apply (Resolve_first_missing Demo.libs fuel Demo.storage Demo.commit).
  - by apply (Resolve_first_missing Demo.libs fuel Demo.storage Demo.commit).
  - unfold Resolve. simpl latestCommit. cbn -[resolve].
    set (c := {| Files := _ |}).
    assert (resolve Demo.libs (S (S fuel)) c "FeatureA" ([], ∅)
            = Some (["FeatureB"], {["FeatureB" := stored "FeatureB" []]}, Some ErrFileNotFound))
      as ->; [|done].
    destruct fuel; vm_compute; reflexivity.
  - done.
Qed.

End ResolveClaims.

(** ** The resolver: closure, request order, termination and errors *)

Module ResolveExtras.
Import Shared Storageconnector ResolveFacts ResolveClaims.

(** [dep] is listed among the dependencies of the feature that
    [GetFeature] returns for [name]. *)
Definition needs (L : Libs) (storage : GitStorage) (name dep : string) : Prop :=
  ∃ feature, GetFeature L storage name = Ok feature
             ∧ dep ∈ Dependencies (Meta feature).

Section Extras.
Variable L : Libs.

Lemma GetFeature_latest storage commit name :
  latestCommit storage = Ok commit →
  GetFeature L storage name = getFeature L commit name.
Proof. intros Hcommit. unfold GetFeature. by rewrite Hcommit. Qed.

Lemma needs_depends storage commit name dep :
  latestCommit storage = Ok commit →
  needs L storage name dep ↔ depends L commit name dep.
Proof.
  intros Hcommit. unfold needs, depends.
  by setoid_rewrite (GetFeature_latest storage commit _ Hcommit).
Qed.

Lemma rtc_needs_depends storage commit name x :
  latestCommit storage = Ok commit →
  rtc (needs L storage) name x ↔ rtc (depends L commit) name x.
Proof.
  intros Hcommit. split; induction 1 as [|a b c Hab _ IH]; try done;
    (eapply rtc_l; [|exact IH]); by apply (needs_depends storage commit a b Hcommit).
Qed.

Lemma tc_needs_depends storage commit name x :
  latestCommit storage = Ok commit →
  tc (needs L storage) name x ↔ tc (depends L commit) name x.
Proof.
  intros Hcommit. split; induction 1 as [a b Hab|a b c Hab _ IH].
  - apply tc_once. by apply (needs_depends storage commit a b Hcommit).
  - eapply tc_l; [|exact IH]. by apply (needs_depends storage commit a b Hcommit).
  - apply tc_once. by apply (needs_depends storage commit a b Hcommit).
  - eapply tc_l; [|exact IH]. by apply (needs_depends storage commit a b Hcommit).
Qed.

(** [getMeta] gives the feature the name it was asked for. *)
Lemma getMeta_Name commit name meta :
  getMeta L commit name = Ok meta → Name meta = name.
Proof.
  unfold getMeta.
  destruct (Commit_File commit _) as [file|e]; [|done]. simpl.
  destruct (ReadAll file) as [content|e]; [|done]. simpl.
  destruct (yaml_Unmarshal L content) as [m|e]; [|done]. simpl.
  by intros [= <-].
Qed.

Lemma getFeature_Name commit name feature :
  getFeature L commit name = Ok feature → Name (Meta feature) = name.
Proof.
  unfold getFeature. destruct (getMeta L commit name) as [meta|e] eqn:Hmeta; [|done].
  apply getMeta_Name in Hmeta. simpl.
  destruct (Commit_File commit _) as [file|e].
  - destruct (ReadAll file) as [snippet|e]; [|done]. simpl. by intros [= <-].
  - case_decide; [|done]. by intros [= <-].
Qed.

(** A loop over two lists is the loop over the first, then over the second. *)
Lemma range_app {S : Type} (body : string → S → option (S * option error))
    names1 names2 st :
  range body (names1 ++ names2) st
  = match range body names1 st with
    | Some (st', None) => range body names2 st'
    | r => r
    end.
Proof.
  revert st. induction names1 as [|n ns IH]; intros st; [done|].
  simpl. destruct (body n st) as [[s1 [e|]]|]; [done| |done]. apply IH.
Qed.

(** Names that are resolved already leave the state as it is. *)
Lemma range_resolved fuel commit names st :
  (∀ n, n ∈ names → is_Some (st.2 !! n)) →
  range (resolve L (S fuel) commit) names st = Some (st, None).
Proof.
  induction names as [|n ns IH]; intros Hall; [done|].
  cbn [range resolve]. destruct (Hall n) as [f ->]; [by left|].
  apply IH. intros m Hm. apply Hall. by right.
Qed.

(** X1.  What a successful [Resolve] returns is the dependency closure of
    the request, no more and no less: a name is in the sequence exactly when
    a requested name reaches it through dependencies; the map has an entry
    for every name of the sequence and for no other name; and each entry is
    the feature that [GetFeature] returns for its name, which carries this
    name. *)
Theorem Resolve_closure fuel storage names slice result :
  Resolve L fuel storage names = Some (slice, result, None) →
  (∀ name, name ∈ slice ↔ ∃ root, root ∈ names ∧ rtc (needs L storage) root name)
  ∧ (∀ name, name ∈ slice → ∃ feature, result !! name = Some feature)
  ∧ (∀ name feature, result !! name = Some feature →
       name ∈ slice
       ∧ GetFeature L storage name = Ok feature ∧ Name (Meta feature) = name).
Proof.
  intros (commit & Hcommit & _ & (Hc & (new & E & Hnew) & Hroots) & _)%Resolve_ok_inv.
  simpl in E. subst new. split; [|split].
  - intros name. split.
    + intros (root & Hroot & Hreach)%Hnew. exists root. split; [done|].
      by apply (rtc_needs_depends storage commit).
    + intros (root & Hroot & Hreach).
      apply (rtc_needs_depends storage commit _ _ Hcommit) in Hreach.
      apply (depends_closed L commit (slice, result) root name Hc); [|done].
      by apply Hroots.
  - intros name Hname. by apply (cons_keys _ _ _ Hc) in Hname as [feature Hf]; exists feature.
  - intros name feature Hf. split.
    { apply (cons_keys _ _ _ Hc). by exists feature. }
    apply (cons_store _ _ _ Hc) in Hf.
    rewrite (GetFeature_latest storage commit name Hcommit).
    split; [done|]. by eapply getFeature_Name.
Qed.

(** X2.  Requests are served in the order given: when [Resolve] succeeds
    for a request, it succeeds for every front part of the request, and
    what it returns for the front part is the front part of the sequence
    and a part of the map.  Later names only add behind. *)
Theorem Resolve_request_order fuel storage names1 names2 slice result :
  Resolve L fuel storage (names1 ++ names2) = Some (slice, result, None) →
  ∃ slice1 result1,
    Resolve L fuel storage names1 = Some (slice1, result1, None)
    ∧ slice1 `prefix_of` slice
    ∧ result1 ⊆ result.
Proof.
  intros Hres.
  pose proof Hres as (commit & Hcommit & Hrange & (Hc & _ & _) & _)%Resolve_ok_inv.
  rewrite range_app in Hrange.
  destruct (range (resolve L fuel commit) names1 ([], ∅))
    as [[[slice1 result1] [e|]]|] eqn:Hrange1; [done| |done].
  pose proof (range_grows L commit _ _ (resolve_grows L commit fuel) _ _
                (consistent_empty L commit) Hrange1) as (Hc1 & _ & _).
  pose proof (range_grows L commit _ _ (resolve_grows L commit fuel) _ _ Hc1 Hrange)
    as (_ & (new & E & _) & _). simpl in E.
  exists slice1, result1. split; [|split].
  - unfold Resolve. by rewrite Hcommit, Hrange1.
  - exists new. exact E.
  - apply map_subseteq_spec. intros n f Hf.
    assert (n ∈ slice) as [f' Hf']%(cons_keys _ _ _ Hc).
    { rewrite E. apply elem_of_app. left. apply (cons_keys _ _ _ Hc1). by exists f. }
    simpl in Hf'. rewrite Hf'.
    apply (cons_store _ _ _ Hc1) in Hf. apply (cons_store _ _ _ Hc) in Hf'.
    simpl in Hf, Hf'. congruence.
Qed.

(** X3.  Asking again for what is resolved changes nothing: names that
    are already in the returned sequence, repeated or dependencies of
    earlier names, may follow in the request without any effect on the
    result. *)
Theorem Resolve_repeated_names fuel storage names again slice result :
  Resolve L fuel storage names = Some (slice, result, None) →
  (∀ name, name ∈ again → name ∈ slice) →
  Resolve L fuel storage (names ++ again) = Some (slice, result, None).
Proof.
  intros Hres Hagain.
  pose proof Hres as (commit & Hcommit & Hrange & (Hc & _ & _) & _)%Resolve_ok_inv.
  destruct again as [|a again]; [by rewrite app_nil_r|].
  destruct fuel as [|fuel].
  { exfalso. destruct names as [|n names]; [|done].
    apply range_nil in Hrange. injection Hrange as Hslice _.
    apply (elem_of_nil a). rewrite <- Hslice. apply Hagain. by left. }
  unfold Resolve. rewrite Hcommit, range_app, Hrange.
  rewrite range_resolved; [done|].
  intros n Hn. apply (cons_keys _ _ _ Hc). by apply Hagain.
Qed.

(** *** Termination *)

(** The rank of a name bounds the fuel its resolution needs, when ranks go
    down along the dependencies that the name reaches. *)
Lemma resolve_total_reach (rank : string → nat) commit fuel name st :
  (∀ n d, rtc (depends L commit) name n → depends L commit n d → rank d < rank n) →
  rank name < fuel → is_Some (resolve L fuel commit name st).
Proof.
  revert name st. induction fuel as [|fuel IH]; intros name st Hrank Hlt; [lia|].
  simpl. destruct (st.2 !! name); [by eexists|].
  destruct (getFeature L commit name) as [feature|err] eqn:Hget; [|by eexists].
  destruct (range_total (resolve L fuel commit) (Dependencies (Meta feature)))
    with (st := st) as [[[list' result] [e|]] ->]; [|by eexists..].
  intros d s Hd.
  assert (depends L commit name d) as Hdep by (by exists feature).
  apply IH.
  - intros n m Hreach. apply Hrank. by eapply rtc_l.
  - specialize (Hrank name d (rtc_refl _ _) Hdep). lia.
Qed.

Lemma Resolve_total_reach (rank : string → nat) storage names :
  (∀ root n d, root ∈ names → rtc (needs L storage) root n → needs L storage n d →
     rank d < rank n) →
  is_Some (Resolve L (S (list_sum (rank <$> names))) storage names).
Proof.
  intros Hrank. unfold Resolve.
  destruct (latestCommit storage) as [commit|err] eqn:Hcommit; [|by eexists].
  destruct (range_total (resolve L (S (list_sum (rank <$> names))) commit) names)
    with (st := ([], ∅) : State) as [[[slice result] [e|]] ->]; [|by eexists..].
  intros root st Hroot. apply (resolve_total_reach rank).
  - intros n d Hreach Hdep. apply (Hrank root n d Hroot).
    + by apply (rtc_needs_depends storage commit).
    + by apply (needs_depends storage commit).
  - apply list_elem_of_split in Hroot as (l1 & l2 & ->).
    rewrite fmap_app, list_sum_app. simpl. lia.
Qed.

(** X4.  On dependencies without a cycle [Resolve] returns: when the names
    that the request reaches can be ranked so that every dependency ranks
    below its dependent, there is an amount of fuel from which on every run
    returns the same result. *)
Theorem Resolve_terminates (rank : string → nat) storage names :
  (∀ root n d, root ∈ names → rtc (needs L storage) root n → needs L storage n d →
     rank d < rank n) →
  ∃ fuel r, ∀ fuel', fuel ≤ fuel' → Resolve L fuel' storage names = Some r.
Proof.
  intros Hrank. destruct (Resolve_total_reach rank storage names Hrank) as [r Hr].
  eexists _, r. intros fuel' Hle. by eapply Resolve_fuel_mono.
Qed.

(** *** Cycles *)

(** In a consistent state the recorded dependencies of recorded names are
    the dependencies in the store. *)
Lemma tc_depends_recorded commit (st : State) a b :
  consistent L commit st → a ∈ st.1 → tc (depends L commit) a b →
  tc (λ x y, ∃ f, st.2 !! x = Some f ∧ y ∈ Dependencies (Meta f)) a b.
Proof.
  intros Hc Ha Htc.
  assert (∀ x y, x ∈ st.1 → depends L commit x y →
            (∃ f, st.2 !! x = Some f ∧ y ∈ Dependencies (Meta f)) ∧ y ∈ st.1) as Hstep.
  { intros x y [f' Hf']%(cons_keys _ _ _ Hc) (f & Hf & Hy).
    pose proof (cons_store _ _ _ Hc _ _ Hf') as Hs. rewrite Hf in Hs.
    injection Hs as ->. split; [by exists f'|]. by eapply cons_closed. }
  induction Htc as [x y Hxy|x y z Hxy _ IH].
  - apply tc_once. by apply Hstep.
  - destruct (Hstep x y Ha Hxy) as [Hrec Hy]. eapply tc_l; [done|]. by apply IH.
Qed.

Lemma Resolve_no_success_on_cycle fuel storage names root name slice result :
  root ∈ names → rtc (needs L storage) root name → tc (needs L storage) name name →
  Resolve L fuel storage names ≠ Some (slice, result, None).
Proof.
  intros Hroot Hreach Hcycle
    (commit & Hcommit & _ & (Hc & _ & Hroots) & Hnd & Hord)%Resolve_ok_inv.
  apply (rtc_needs_depends storage commit _ _ Hcommit) in Hreach.
  apply (tc_needs_depends storage commit _ _ Hcommit) in Hcycle.
  assert (name ∈ slice) as Hname.
  { apply (depends_closed L commit (slice, result) root name Hc); [|done]. by apply Hroots. }
  apply (tc_depends_recorded commit (slice, result) name name Hc Hname) in Hcycle.
  destruct (ordered_transitive L commit (slice, result) name name Hc Hnd Hord Hcycle)
    as (i & j & Hlt & Hi & Hj).
  simpl in Hi, Hj. pose proof (NoDup_lookup _ _ _ _ Hnd Hi Hj). lia.
Qed.

(** X5.  On a dependency cycle [Resolve] does not return: when a requested
    name reaches a feature that depends on itself, directly or through
    others, and every feature the request reaches can be fetched, no amount
    of fuel yields a result, neither a resolution nor an error. *)
Theorem Resolve_cycle_diverges storage names root name :
  root ∈ names → rtc (needs L storage) root name → tc (needs L storage) name name →
  (∀ r n, r ∈ names → rtc (needs L storage) r n →
     ∃ feature, GetFeature L storage n = Ok feature) →
  ∀ fuel, Resolve L fuel storage names = None.
Proof.
  intros Hroot Hreach Hcycle Hfetch fuel.
  destruct (Resolve L fuel storage names) as [[[slice result] [err|]]|] eqn:Hres;
    [| |done]; exfalso.
  - apply Resolve_error in Hres as (_ & _ & [Hhead|Hmissing]).
    + destruct (Hfetch root root Hroot (rtc_refl _ _)) as [f Hf].
      unfold GetFeature in Hf. by rewrite Hhead in Hf.
    + destruct Hmissing as (commit & r & missing & Hcommit & Hr & Hrm & Hget).
      apply (rtc_needs_depends storage commit _ _ Hcommit) in Hrm.
      destruct (Hfetch r missing Hr Hrm) as [f Hf].
      rewrite (GetFeature_latest storage commit missing Hcommit) in Hf. congruence.
  - by eapply Resolve_no_success_on_cycle.
Qed.

(** *** Errors *)

(** X6.  An error of [Resolve] is never of its own making and never comes
    with a partial result: the sequence and the map are empty, and the error
    is the error of reading the head commit or the error that [GetFeature]
    returns for a requested name or for a name one of them reaches. *)
Theorem Resolve_error_verbatim fuel storage names slice result err :
  Resolve L fuel storage names = Some (slice, result, Some err) →
  slice = [] ∧ result = ∅
  ∧ (latestCommit storage = Err err
     ∨ ∃ root missing, root ∈ names ∧ rtc (needs L storage) root missing
                       ∧ GetFeature L storage missing = Err err).
Proof.
  intros (-> & -> & [Hhead|Hmissing])%Resolve_error; (split; [done|]; split; [done|]).
  - by left.
  - right. destruct Hmissing as (commit & root & missing & Hcommit & Hroot & Hreach & Hget).
    exists root, missing. split; [done|]. split.
    + by apply (rtc_needs_depends storage commit).
    + by rewrite (GetFeature_latest storage commit missing Hcommit).
Qed.

(** X7.  A feature that cannot be fetched fails every request that reaches
    it: on ranked dependencies [Resolve] then returns an error, with an
    empty sequence and an empty map, however much was resolved before. *)
Theorem Resolve_unfetchable_fails (rank : string → nat) storage names root missing e :
  (∀ r n d, r ∈ names → rtc (needs L storage) r n → needs L storage n d →
     rank d < rank n) →
  root ∈ names → rtc (needs L storage) root missing →
  GetFeature L storage missing = Err e →
  ∃ fuel err, ∀ fuel', fuel ≤ fuel' →
    Resolve L fuel' storage names = Some ([], ∅, Some err).
Proof.
  intros Hrank Hroot Hreach Hmissing.
  destruct (Resolve_total_reach rank storage names Hrank) as [[[slice result] [err|]] Hres].
  - eexists _, err. intros fuel' Hle.
    apply (Resolve_fuel_mono L _ fuel') in Hres; [|done].
    by destruct (Resolve_error L _ _ _ _ _ _ Hres) as (-> & -> & _).
  - exfalso.
    apply Resolve_ok_inv in Hres as (commit & Hcommit & _ & (Hc & _ & Hroots) & _).
    apply (rtc_needs_depends storage commit _ _ Hcommit) in Hreach.
    apply Hroots in Hroot.
    apply (depends_closed L commit _ _ _ Hc Hroot) in Hreach.
    apply (cons_keys _ _ _ Hc) in Hreach as [f Hf].
    apply (cons_store _ _ _ Hc) in Hf.
    rewrite (GetFeature_latest storage commit missing Hcommit) in Hmissing. congruence.
Qed.

End Extras.
(** *** On the stores of the tests *)

(** Reads the dependencies off [H : needs _ _ name d] for a stored [name]. *)
Ltac needs_of H :=
  let f := fresh "f" in
  let Hf := fresh "Hf" in
  destruct H as (f & Hf & H);
  vm_compute in Hf; first [discriminate Hf | injection Hf as <-];
  simpl in H;
  repeat (apply elem_of_cons in H as [->|H]);
  try (by apply elem_of_nil in H).

Lemma storage_reach name :
  rtc (needs Demo.libs Demo.storage) "FeatureA" name →
  name ∈ ["FeatureA"; "FeatureB"; "FeatureC"; "FeatureD"].
Proof.
  revert name. apply rtc_ind_r; [by left|]. intros n m Hn Hnm IH.
  repeat (apply elem_of_cons in IH as [->|IH]); [..|by apply elem_of_nil in IH];
    needs_of Hnm; set_solver.
Qed.

Lemma partial_reach name :
  rtc (needs Demo.libs Demo.partial) "FeatureA" name →
  name ∈ ["FeatureA"; "FeatureB"; "FeatureC"].
Proof.
  revert name. apply rtc_ind_r; [by left|]. intros n m Hn Hnm IH.
  repeat (apply elem_of_cons in IH as [->|IH]); [..|by apply elem_of_nil in IH];
    needs_of Hnm; set_solver.
Qed.

Lemma cyclic_reach name :
  rtc (needs Demo.libs Demo.cyclic) "FeatureB" name →
  name ∈ ["FeatureB"; "FeatureC"].
Proof.
  revert name. apply rtc_ind_r; [by left|]. intros n m Hn Hnm IH.
  repeat (apply elem_of_cons in IH as [->|IH]); [..|by apply elem_of_nil in IH];
    needs_of Hnm; set_solver.
Qed.

(** A ranks above C, and C above B and D. *)
Definition rank (name : string) : nat :=
  if String.eqb name "FeatureA" then 2
  else if String.eqb name "FeatureC" then 1
  else 0.

Lemma storage_ranked root n d :
  root ∈ ["FeatureA"] → rtc (needs Demo.libs Demo.storage) root n →
  needs Demo.libs Demo.storage n d → rank d < rank n.
Proof.
  intros ->%list_elem_of_singleton Hn%storage_reach Hd.
  repeat (apply elem_of_cons in Hn as [->|Hn]); [..|by apply elem_of_nil in Hn];
    needs_of Hd; vm_compute; lia.
Qed.

Lemma partial_ranked root n d :
  root ∈ ["FeatureA"] → rtc (needs Demo.libs Demo.partial) root n →
  needs Demo.libs Demo.partial n d → rank d < rank n.
Proof.
  intros ->%list_elem_of_singleton Hn%partial_reach Hd.
  repeat (apply elem_of_cons in Hn as [->|Hn]); [..|by apply elem_of_nil in Hn];
    needs_of Hd; vm_compute; lia.
Qed.

Lemma Resolve_closure_witness :
  (∀ name, name ∈ ["FeatureB"; "FeatureD"; "FeatureC"; "FeatureA"]
           ↔ ∃ root, root ∈ ["FeatureA"]
                     ∧ rtc (needs Demo.libs Demo.storage) root name)
  ∧ (∀ name, name ∈ ["FeatureB"; "FeatureD"; "FeatureC"; "FeatureA"] →
       ∃ feature, resolved_A !! name = Some feature)
  ∧ (∀ name feature, resolved_A !! name = Some feature →
       name ∈ ["FeatureB"; "FeatureD"; "FeatureC"; "FeatureA"]
       ∧ GetFeature Demo.libs Demo.storage name = Ok feature
       ∧ Name (Meta feature) = name).
Proof.
  apply (Resolve_closure Demo.libs 4 Demo.storage ["FeatureA"]).
  vm_compute. reflexivity.
Defined.

Lemma Resolve_request_order_witness :
  ∃ slice1 result1,
    Resolve Demo.libs 4 Demo.storage ["FeatureC"] = Some (slice1, result1, None)
    ∧ slice1 `prefix_of` ["FeatureD"; "FeatureC"; "FeatureB"; "FeatureA"]
    ∧ result1 ⊆ resolved_A.
Proof.
  apply (Resolve_request_order Demo.libs 4 Demo.storage ["FeatureC"] ["FeatureA"]).
  vm_compute. reflexivity.
Defined.

Lemma Resolve_repeated_names_witness :
  Resolve Demo.libs 4 Demo.storage (["FeatureA"] ++ ["FeatureD"; "FeatureA"])
  = Some (["FeatureB"; "FeatureD"; "FeatureC"; "FeatureA"], resolved_A, None).
Proof.
  apply (Resolve_repeated_names Demo.libs 4 Demo.storage ["FeatureA"]).
  - vm_compute. reflexivity.
  - intros name Hname.
    repeat (apply elem_of_cons in Hname as [->|Hname]); [..|by apply elem_of_nil in Hname].
    + right. left.
    + do 3 right. left.
Defined.

Lemma Resolve_terminates_witness :
  ∃ fuel r, ∀ fuel', fuel ≤ fuel' →
    Resolve Demo.libs fuel' Demo.storage ["FeatureA"] = Some r.
Proof.
  apply (Resolve_terminates Demo.libs rank Demo.storage ["FeatureA"]).
  exact storage_ranked.
Defined.

Lemma Resolve_cycle_diverges_witness :
  Resolve Demo.libs 1000 Demo.cyclic ["FeatureB"] = None.
Proof.
  apply (Resolve_cycle_diverges Demo.libs Demo.cyclic ["FeatureB"] "FeatureB" "FeatureB").
  - by left.
  - done.
  - apply tc_l with "FeatureC"; [|apply tc_once].
    + exists (stored "FeatureB" ["FeatureC"]). split; [vm_compute; reflexivity | left].
    + exists (stored "FeatureC" ["FeatureB"]). split; [vm_compute; reflexivity | left].
  - intros r n ->%list_elem_of_singleton Hn%cyclic_reach.
    repeat (apply elem_of_cons in Hn as [->|Hn]); [..|by apply elem_of_nil in Hn];
      eexists; vm_compute; reflexivity.
Defined.

Lemma Resolve_error_verbatim_witness :
  @nil string = [] ∧ (∅ : gmap string Feature) = ∅
  ∧ (latestCommit Demo.partial = Err ErrFileNotFound
     ∨ ∃ root missing, root ∈ ["FeatureA"]
         ∧ rtc (needs Demo.libs Demo.partial) root missing
         ∧ GetFeature Demo.libs Demo.partial missing = Err ErrFileNotFound).
Proof.
  apply (Resolve_error_verbatim Demo.libs 2 Demo.partial ["FeatureA"]).
  vm_compute. reflexivity.
Defined.

Lemma Resolve_unfetchable_fails_witness :
  ∃ fuel err, ∀ fuel', fuel ≤ fuel' →
    Resolve Demo.libs fuel' Demo.partial ["FeatureA"] = Some ([], ∅, Some err).
Proof.
  apply (Resolve_unfetchable_fails Demo.libs rank Demo.partial ["FeatureA"]
           "FeatureA" "FeatureC" ErrFileNotFound).
  - exact partial_ranked.
  - by left.
  - apply rtc_once. exists (stored "FeatureA" ["FeatureB"; "FeatureC"]).
    split; [vm_compute; reflexivity | right; left].
  - vm_compute. reflexivity.
Defined.

End ResolveExtras.

(** ** The git-backed store: what [getFeature] reads and when it fails *)

Module StoreExtras.
Import Shared Storageconnector ResolveExtras.

Section Fetch.
Variable L : Libs.

(** X8.  The test snippet hangs on the Dockerfile: a feature without a
    Dockerfile is returned with an empty snippet and an empty test snippet,
    whatever its test.bats holds, and a test snippet that is not empty is
    what [ReadTestSpec] makes of a readable test.bats next to a Dockerfile. *)
Theorem getFeature_snippets commit name feature :
  getFeature L commit name = Ok feature →
  (Files commit !! path_Join L [featureDir; name; featureSnippet] = None →
     Snippet feature = "" ∧ TestSnippet feature = "")
  ∧ (TestSnippet feature ≠ "" →
       ∃ dockerfile tests content,
         Files commit !! path_Join L [featureDir; name; featureSnippet] = Some dockerfile
         ∧ Files commit !! path_Join L [featureDir; name; testSnippet] = Some tests
         ∧ ReadAll tests = Ok content
         ∧ ReadTestSpec L content = Ok (TestSnippet feature)).
Proof.
  unfold getFeature, Commit_File.
  destruct (getMeta L commit name) as [meta|e]; [|done]. simpl.
  destruct (Files commit !! path_Join L [featureDir; name; featureSnippet])
    as [dockerfile|] eqn:Hdockerfile.
  - destruct (ReadAll dockerfile) as [snippet|e]; [|done]. simpl.
    intros [= <-]. split; [done|]. simpl. unfold getTestSpec, Commit_File.
    destruct (Files commit !! path_Join L [featureDir; name; testSnippet])
      as [tests|] eqn:Htests; [|done].
    destruct (ReadAll tests) as [content|e] eqn:Hcontent; [|done].
    destruct (ReadTestSpec L content) as [spec|e] eqn:Hspec; [|done].
    intros _. by exists dockerfile, tests, content.
  - rewrite decide_True by done. intros [= <-]. split; [by intros _; split|].
    intros Hne. by destruct Hne.
Qed.

(** X9.  [getFeature] fails for two reasons only, and hands on the error as
    it is: [getMeta] failed, or the Dockerfile is there and cannot be read.
    Nothing about test.bats makes it fail. *)
Theorem getFeature_failure commit name e :
  getFeature L commit name = Err e ↔
  getMeta L commit name = Err e
  ∨ ((∃ meta, getMeta L commit name = Ok meta)
     ∧ ∃ dockerfile,
         Files commit !! path_Join L [featureDir; name; featureSnippet] = Some dockerfile
         ∧ ReadAll dockerfile = Err e).
Proof.
  unfold getFeature, Commit_File.
  destruct (getMeta L commit name) as [meta|e']; simpl.
  - destruct (Files commit !! path_Join L [featureDir; name; featureSnippet])
      as [dockerfile|] eqn:Hdockerfile.
    + destruct (ReadAll dockerfile) as [snippet|e'] eqn:Hread; simpl.
      * split; [done|]. intros [?|[_ (d & [= <-] & Hd)]]; congruence.
      * split.
        -- intros [= ->]. right. split; [by eexists|]. by exists dockerfile.
        -- intros [?|[_ (d & [= <-] & Hd)]]; congruence.
    + rewrite decide_True by done. split; [done|].
      by intros [?|[_ (d & ? & _)]].
  - split; [intros [= ->]; by left|]. by intros [[= ->]|[[? ?] _]].
Qed.

(** X10.  [GetFeature] and [GetMeta] agree: the metadata of the feature
    that [GetFeature] returns is what [GetMeta] returns for the name, it
    carries the name that was asked for and the time of the head commit,
    and an error of [GetMeta] is the error of [GetFeature]. *)
Theorem GetFeature_GetMeta storage name :
  (∀ feature, GetFeature L storage name = Ok feature →
     GetMeta L storage name = Ok (Meta feature)
     ∧ Name (Meta feature) = name
     ∧ ∃ commit, latestCommit storage = Ok commit
                 ∧ UpdatedAt (Meta feature) = Committer_When commit)
  ∧ (∀ e, GetMeta L storage name = Err e → GetFeature L storage name = Err e).
Proof.
  unfold GetFeature, GetMeta.
  destruct (latestCommit storage) as [commit|e0]; simpl; [|split; [done | by intros e [= ->]]].
  unfold getFeature.
  assert (∀ meta, getMeta L commit name = Ok meta →
            Name meta = name ∧ UpdatedAt meta = Committer_When commit) as Hmeta.
  { intros meta Hm. split; [by eapply getMeta_Name|]. revert Hm. unfold getMeta.
    destruct (Commit_File commit _) as [file|e]; [|done]. simpl.
    destruct (ReadAll file) as [content|e]; [|done]. simpl.
    destruct (yaml_Unmarshal L content) as [m|e]; [|done]. simpl.
    by intros [= <-]. }
  destruct (getMeta L commit name) as [meta|e']; simpl; [|split; [done | by intros e [= ->]]].
  destruct (Hmeta meta eq_refl) as [Hname Htime]. split; [|done].
  intros feature Hf.
  assert (Meta feature = meta) as ->.
  { destruct (Commit_File commit _) as [file|e].
    - destruct (ReadAll file) as [snippet|e]; [|done]. simpl in Hf. by injection Hf as <-.
    - case_decide; [|done]. by injection Hf as <-. }
  split; [done|]. split; [done|]. by exists commit.
Qed.

End Fetch.

(** *** On a store with snippets *)

(** python has all three files; bats has a test.bats and no Dockerfile;
    the Dockerfile of broken cannot be read. *)
Definition snippets : Commit := {|
  Files := list_to_map [
    Demo.meta_file "python" "";
    (Demo.join [featureDir; "python"; featureSnippet],
     {| ReadAll := Ok "RUN apt-get install python --yes" |});
    (Demo.join [featureDir; "python"; testSnippet], {| ReadAll := Ok "python -V" |});
    Demo.meta_file "bats" "";
    (Demo.join [featureDir; "bats"; testSnippet], {| ReadAll := Ok "bats -v" |});
    Demo.meta_file "broken" "";
    (Demo.join [featureDir; "broken"; featureSnippet],
     {| ReadAll := Err (Errorf "unexpected EOF") |}) ];
  Committer_When := 1480000000
|}.

Definition snippet_store : GitStorage :=
  {| repo := {| Head := Ok "HEAD"; Commits := λ _, Ok snippets |} |}.

Definition meta_of (name : string) : FeatureMeta :=
  {| Name := name; Description := ""; Author := "SomeAuthor"; Dependencies := [];
     UpdatedAt := 1480000000 |}.

Lemma getFeature_snippets_witness :
  (Files snippets !! Demo.join [featureDir; "bats"; featureSnippet] = None →
     Snippet (Feature_of_meta (meta_of "bats")) = ""
     ∧ TestSnippet (Feature_of_meta (meta_of "bats")) = "")
  ∧ (TestSnippet (Feature_of_meta (meta_of "bats")) ≠ "" →
       ∃ dockerfile tests content,
         Files snippets !! Demo.join [featureDir; "bats"; featureSnippet] = Some dockerfile
         ∧ Files snippets !! Demo.join [featureDir; "bats"; testSnippet] = Some tests
         ∧ ReadAll tests = Ok content
         ∧ ReadTestSpec Demo.libs content = Ok (TestSnippet (Feature_of_meta (meta_of "bats")))).
Proof.
  apply (getFeature_snippets Demo.libs snippets "bats").
  vm_compute. reflexivity.
Defined.

Example getFeature_python :
  getFeature Demo.libs snippets "python"
  = Ok {| Meta := meta_of "python"; Snippet := "RUN apt-get install python --yes";
          TestSnippet := "python -V" |}.
Proof. vm_compute. reflexivity. Qed.

Lemma getFeature_failure_witness :
  getMeta Demo.libs snippets "broken" = Err (Errorf "unexpected EOF")
  ∨ ((∃ meta, getMeta Demo.libs snippets "broken" = Ok meta)
     ∧ ∃ dockerfile,
         Files snippets !! Demo.join [featureDir; "broken"; featureSnippet] = Some dockerfile
         ∧ ReadAll dockerfile = Err (Errorf "unexpected EOF")).
Proof.
  apply (getFeature_failure Demo.libs snippets "broken" (Errorf "unexpected EOF")).
  vm_compute. reflexivity.
Defined.

Lemma GetFeature_GetMeta_witness :
  GetMeta Demo.libs snippet_store "python" = Ok (meta_of "python")
  ∧ Name (meta_of "python") = "python"
  ∧ ∃ commit, latestCommit snippet_store = Ok commit
              ∧ UpdatedAt (meta_of "python") = Committer_When commit.
Proof.
  apply (proj1 (GetFeature_GetMeta Demo.libs snippet_store "python")
           {| Meta := meta_of "python"; Snippet := "RUN apt-get install python --yes";
              TestSnippet := "python -V" |}).
  vm_compute. reflexivity.
Defined.

End StoreExtras.

(** ** The git-backed store: what [SearchMeta] finds *)

Module SearchExtras.
Import Shared Storageconnector StorageSearch ResolveExtras.

(** [file] lies in the directory of the feature [n]: its path starts with
    the feature directory and [n]. *)
Definition candidate (file n : string) : Prop :=
  ∃ rest, Split file = featureDir :: n :: rest.

Lemma Split_from_cons s piece : ∃ first rest, Split_from s piece = first :: rest.
Proof.
  revert piece. induction s as [|c s IH]; intros piece; simpl; [by eexists _, _|].
  destruct (Ascii.eqb c "/"); [by eexists _, _ | apply IH].
Qed.

Section Facts.
Variable L : Libs.
Variable name : string → bool.
Variable commit : Commit.

(** What holds of [matchedNames] and [matchedFeatures] when the files
    [seen] have been visited without an error. *)
Record searched (seen : list string) (st : Found) : Prop := {
  sr_names : ∀ n, default false (st.1 !! n) = true ↔ n ∈ Name <$> st.2;
  sr_nodup : NoDup (Name <$> st.2);
  sr_sound : ∀ meta, meta ∈ st.2 →
    name (Name meta) = true ∧ getMeta L commit (Name meta) = Ok meta
    ∧ ∃ file, file ∈ seen ∧ candidate file (Name meta);
  sr_complete : ∀ file n, file ∈ seen → candidate file n → name n = true →
    n ∈ Name <$> st.2
}.

Lemma searched_nil : searched [] (∅, []).
Proof.
  split; simpl.
  - intros n. rewrite lookup_empty. simpl. split; [done | by intros ?%elem_of_nil].
  - apply NoDup_nil_2.
  - by intros meta ?%elem_of_nil.
  - by intros file n ?%elem_of_nil.
Qed.

(** One more file seen, nothing found: the files seen so far stay covered. *)
Lemma searched_skip seen st file :
  searched seen st →
  (∀ n, candidate file n → name n = true → n ∈ Name <$> st.2) →
  searched (seen ++ [file]) st.
Proof.
  intros [Hn Hd Hs Hc] Hfile. split; [done|done| |].
  - intros meta Hmeta. destruct (Hs meta Hmeta) as (? & ? & f & Hf & Hcand).
    split; [done|]. split; [done|]. exists f. split; [|done].
    apply elem_of_app. by left.
  - intros f n [Hf| ->%list_elem_of_singleton]%elem_of_app; [by apply Hc | by apply Hfile].
Qed.

Lemma visit_searched seen st file st' :
  searched seen st →
  visit L name commit file st = Returns (st', None) →
  searched (seen ++ [file]) st'.
Proof.
  intros Hst. unfold visit, candidate.
  destruct (Split_from_cons file "") as (dir & rest & Hsplit).
  unfold Split at 1 2. rewrite Hsplit. cbn [lookup list_lookup].
  case_decide as Hdir.
  { intros [= <-]. apply searched_skip; [done|].
    intros n [rest' Hn]. unfold Split in Hn. congruence. }
  subst dir.
  destruct rest as [|featureName rest]; [done|]. cbn [lookup list_lookup].
  assert (∀ n, (∃ rest', Split file = featureDir :: n :: rest') → n = featureName) as Hthis.
  { intros n [rest' Hn]. unfold Split in Hn. congruence. }
  destruct (default false (st.1 !! featureName)) eqn:Hmatched.
  { intros [= <-]. apply searched_skip; [done|].
    intros n ->%Hthis _. by apply (sr_names _ _ Hst). }
  destruct (name featureName) eqn:Hname.
  2: { intros [= <-]. apply searched_skip; [done|]. intros n ->%Hthis. congruence. }
  destruct (getMeta L commit featureName) as [meta|err] eqn:Hmeta; [|done].
  intros [= <-]. pose proof (getMeta_Name L _ _ _ Hmeta) as HN.
  destruct Hst as [Hn Hd Hs Hc]. split; simpl.
  - intros n. rewrite fmap_app, elem_of_app. simpl. rewrite list_elem_of_singleton, HN.
    rewrite lookup_insert. case_decide as Hfn.
    + subst n. simpl. split; [by right | done].
    + rewrite (Hn n). split; [by left | by intros [?|?]].
  - rewrite fmap_app. apply NoDup_app. split; [done|]. split.
    + intros n Hin ->%list_elem_of_singleton. rewrite HN in Hin.
      apply Hn in Hin. congruence.
    + apply NoDup_singleton.
  - intros m [Hm| ->%list_elem_of_singleton]%elem_of_app.
    + destruct (Hs m Hm) as (? & ? & f & Hf & Hcand).
      split; [done|]. split; [done|]. exists f. split; [|done]. apply elem_of_app. by left.
    + rewrite HN. split; [done|]. split; [done|]. exists file. split.
      * apply elem_of_app. right. by left.
      * by exists rest.
  - intros f n [Hf| ->%list_elem_of_singleton]%elem_of_app Hcand Hmatch;
      rewrite fmap_app, elem_of_app.
    + left. by eapply Hc.
    + right. apply Hthis in Hcand as ->. simpl. rewrite HN. by left.
Qed.

Lemma ForEach_searched seen all st st' :
  searched seen st →
  ForEach (visit L name commit) all st = Returns (st', None) →
  searched (seen ++ all) st'.
Proof.
  revert seen st. induction all as [|file rest IH]; intros seen st Hst.
  - simpl. intros [= <-]. by rewrite app_nil_r.
  - simpl. destruct (visit L name commit file st) as [[s1 [err|]]|msg] eqn:Hvisit; [done| |done].
    intros Hrest. rewrite (cons_middle file seen rest), app_assoc.
    eapply IH; [|done]. by eapply visit_searched.
Qed.



(** A file that is called like the feature directory has no second path
    component: the callback panics on it. *)
Lemma visit_root_file st :
  ∃ msg, visit L name commit featureDir st = Panics msg.
Proof. by eexists. Qed.

Lemma ForEach_root_file all st :
  featureDir ∈ all →
  (∃ msg, ForEach (visit L name commit) all st = Panics msg)
  ∨ ∃ st' err, ForEach (visit L name commit) all st = Returns (st', Some err).
Proof.
  revert st. induction all as [|file rest IH]; intros st Hin; [by apply elem_of_nil in Hin|].
  cbn [ForEach]. apply elem_of_cons in Hin as [<-|Hin].
  - destruct (visit_root_file st) as [msg ->]. left. by exists msg.
  - destruct (visit L name commit file st) as [[s1 [e|]]|msg].
    + right. by exists s1, e.
    + by apply IH.
    + left. by exists msg.
Qed.

End Facts.

Section Search.
Variable L : Libs.
Variable Commit_Files : Commit → res (list string).

(** X11.  A search that succeeds returns every feature whose directory
    holds a file and whose name matches, each once however many files the
    directory has, and nothing else; each result is the metadata that
    [GetMeta] returns for its name. *)
Theorem SearchMeta_found storage name commit all metas :
  latestCommit storage = Ok commit → Commit_Files commit = Ok all →
  SearchMeta L Commit_Files storage name = Returns (Ok metas) →
  NoDup (Name <$> metas)
  ∧ (∀ n, n ∈ Name <$> metas ↔
          name n = true ∧ ∃ file, file ∈ all ∧ candidate file n)
  ∧ (∀ meta, meta ∈ metas → GetMeta L storage (Name meta) = Ok meta).
Proof.
  intros Hcommit Hall. unfold SearchMeta. rewrite Hcommit, Hall.
  destruct (ForEach _ all _) as [[[matched found] [err|]]|msg] eqn:Hrun; [done| |done].
  intros [= <-].
  apply (ForEach_searched L name commit [] _ _ _ (searched_nil L name commit)) in Hrun
    as [Hn Hd Hs Hc]. simpl in *. split; [done|]. split.
  - intros n. split.
    + intros (meta & -> & Hmeta)%list_elem_of_fmap.
      destruct (Hs meta Hmeta) as (? & _ & file & ? & ?). split; [done|]. by exists file.
    + intros [Hname (file & Hfile & Hcand)]. by eapply Hc.
  - intros meta Hmeta. unfold GetMeta. rewrite Hcommit. apply (Hs meta Hmeta).
Qed.


(** X13.  A file called like the feature directory breaks the search: its
    path has no second component, so the search panics when it comes to
    this file, unless an error has ended it before; it never succeeds. *)
Theorem SearchMeta_root_file storage name commit all :
  latestCommit storage = Ok commit → Commit_Files commit = Ok all →
  featureDir ∈ all →
  (∃ msg, SearchMeta L Commit_Files storage name = Panics msg)
  ∨ (∃ err, SearchMeta L Commit_Files storage name = Returns (Err err)).
Proof.
  intros Hcommit Hall Hin. unfold SearchMeta. rewrite Hcommit, Hall.
  destruct (ForEach_root_file L name commit all (∅, []) Hin)
    as [[msg ->]|([matched found] & err & ->)].
  - left. by exists msg.
  - right. by exists err.
Qed.

End Search.

(** *** On a store with snippets *)

(** The files of [StoreExtras.snippets], feature by feature. *)
Definition listing (commit : Commit) : res (list string) :=
  Ok [ "features/python/meta.yml"; "features/python/Dockerfile";
       "features/python/test.bats"; "features/bats/meta.yml";
       "features/bats/test.bats"; "features/broken/meta.yml";
       "features/broken/Dockerfile"; "README.md" ].



(** A repository in which [features] is a file. *)
Definition flat_listing (commit : Commit) : res (list string) :=
  Ok [ "README.md"; "features" ].

(** The names that start with [b]. *)
Definition starts_b (n : string) : bool :=
  match n with
  | String c _ => Ascii.eqb c "b"
  | EmptyString => false
  end.

Lemma SearchMeta_found_witness :
  NoDup (Name <$> [StoreExtras.meta_of "bats"; StoreExtras.meta_of "broken"])
  ∧ (∀ n, n ∈ Name <$> [StoreExtras.meta_of "bats"; StoreExtras.meta_of "broken"] ↔
          starts_b n = true
          ∧ ∃ file, file ∈ [ "features/python/meta.yml"; "features/python/Dockerfile";
                             "features/python/test.bats"; "features/bats/meta.yml";
                             "features/bats/test.bats"; "features/broken/meta.yml";
                             "features/broken/Dockerfile"; "README.md" ]
                    ∧ candidate file n)
  ∧ (∀ meta, meta ∈ [StoreExtras.meta_of "bats"; StoreExtras.meta_of "broken"] →
       GetMeta Demo.libs StoreExtras.snippet_store (Name meta) = Ok meta).
Proof.
  apply (SearchMeta_found Demo.libs listing StoreExtras.snippet_store starts_b
           StoreExtras.snippets).
  - reflexivity.
  - reflexivity.
  - vm_compute. reflexivity.
Defined.


Lemma SearchMeta_root_file_witness :
  (∃ msg, SearchMeta Demo.libs flat_listing Demo.storage (λ _, true) = Panics msg)
  ∨ (∃ err, SearchMeta Demo.libs flat_listing Demo.storage (λ _, true) = Returns (Err err)).
Proof.
  apply (SearchMeta_root_file Demo.libs flat_listing Demo.storage (λ _, true)
           Demo.commit [ "README.md"; "features" ]).
  - reflexivity.
  - reflexivity.
  - right. left.
Defined.

Example SearchMeta_root_file_panics :
  SearchMeta Demo.libs flat_listing Demo.storage (λ _, true)
  = Panics "runtime error: index out of range".
Proof. vm_compute. reflexivity. Qed.

End SearchExtras.

(** ** The Dockerfile writer: what [AppendFeature] appends *)

Module DockerfileFacts.
Import Shared Dockerfile.

(** The values of a node and of the nodes chained behind it. *)
Fixpoint chain (node : Node) : list string :=
  Value node :: match Next node with
                | None => []
                | Some next => chain next
                end.

(** The tokens after the instruction of a parsed line. *)
Definition arguments (node : Node) : list string :=
  match Next node with
  | None => []
  | Some next => chain next
  end.

(** Lines, each closed by a line feed. *)
Definition unlines (lines : list string) : string :=
  foldr (λ line text, line +:+ LF +:+ text) "" lines.

(** The text that stands for a parsed line in the composed document. *)
Definition emitted (feature : Feature) (node : Node) : string :=
  if String.eqb (Value node) "copy" then
    match arguments node with
    | src :: dst :: _ => "COPY " +:+ Name (Meta feature) +:+ "/" +:+ src +:+ " " +:+ dst
    | _ => ""
    end
  else Original node.

(** A COPY line that [fixCopyCmd] refuses: fewer than two tokens. *)
Definition malformed (node : Node) : Prop :=
  Value node = "copy" ∧ length (arguments node) < 2.

Global Instance malformed_dec node : Decision (malformed node).
Proof. unfold malformed. apply _. Defined.

(** [error] mentions [name] when the name is part of its message. *)
Definition mentions (e : error) (name : string) : Prop :=
  ∃ pre post, Error e = pre +:+ name +:+ post.

Fixpoint starts_with (p s : string) : bool :=
  match p, s with
  | EmptyString, _ => true
  | String a p', String b s' => Ascii.eqb a b && starts_with p' s'
  | String _ _, EmptyString => false
  end.

Fixpoint contains (p s : string) : bool :=
  starts_with p s || match s with
                     | EmptyString => false
                     | String _ s' => contains p s'
                     end.

Lemma string_app_cons x (a b : string) : String x a +:+ b = String x (a +:+ b).
Proof. reflexivity. Qed.

Lemma string_app_assoc (a b c : string) : (a +:+ b) +:+ c = a +:+ (b +:+ c).
Proof. induction a as [|x a IH]; [done|]. by rewrite !string_app_cons, IH. Qed.

Lemma string_app_nil_r (a : string) : a +:+ "" = a.
Proof. induction a as [|x a IH]; [done|]. by rewrite string_app_cons, IH. Qed.

Lemma starts_with_app p s : starts_with p (p +:+ s) = true.
Proof.
  induction p as [|a p IH]; [done|].
  rewrite string_app_cons. simpl. by rewrite Ascii.eqb_refl, IH.
Qed.

Lemma contains_app pre p post : contains p (pre +:+ p +:+ post) = true.
Proof.
  induction pre as [|a pre IH].
  - change ("" +:+ p +:+ post) with (p +:+ post).
    destruct (p +:+ post) eqn:E; simpl; rewrite <- E, starts_with_app; done.
  - rewrite string_app_cons. simpl. rewrite IH. apply orb_true_r.
Qed.

Lemma mentions_contains e name : mentions e name → contains name (Error e) = true.
Proof. intros (pre & post & ->). apply contains_app. Qed.

Lemma unlines_cons line lines : unlines (line :: lines) = line +:+ LF +:+ unlines lines.
Proof. reflexivity. Qed.

Lemma unlines_app l1 l2 : unlines (l1 ++ l2) = unlines l1 +:+ unlines l2.
Proof.
  induction l1 as [|x l1 IH]; [done|].
  by rewrite <- app_comm_cons, !unlines_cons, IH, !string_app_assoc.
Qed.

Lemma AppendRaw_buf chunk c : (AppendRaw chunk c).1 = {| buf := buf c +:+ chunk +:+ LF |}.
Proof. reflexivity. Qed.

Lemma appendChildren_cons feature node rest c :
  appendChildren feature (node :: rest) c =
    if String.eqb (Value node) "copy" then
      match fixCopyCmd node feature with
      | Err err => (c, Some err)
      | Ok fixedCmd => appendChildren feature rest (AppendRaw fixedCmd c).1
      end
    else appendChildren feature rest (AppendRaw (Original node) c).1.
Proof. reflexivity. Qed.

Lemma fixCopyCmd_arguments node feature :
  fixCopyCmd node feature =
    match arguments node with
    | src :: dst :: _ =>
        Ok ("COPY " +:+ Name (Meta feature) +:+ "/" +:+ src +:+ " " +:+ dst)
    | _ => Err ErrInvalidCopyCmdSyntax
    end.
Proof.
  unfold fixCopyCmd, arguments. destruct (Next node) as [srcNode|]; [|done].
  destruct srcNode as [src [dstNode|] ? ?]; [|done].
  by destruct dstNode.
Qed.

Lemma fixCopyCmd_malformed node feature :
  length (arguments node) < 2 → fixCopyCmd node feature = Err ErrInvalidCopyCmdSyntax.
Proof.
  rewrite fixCopyCmd_arguments. destruct (arguments node) as [|src [|dst rest]]; [done..|].
  simpl. lia.
Qed.

(** A line that is not a malformed COPY is appended as [emitted]. *)
Lemma appendChildren_step feature node rest c :
  ¬ malformed node →
  appendChildren feature (node :: rest) c
  = appendChildren feature rest {| buf := buf c +:+ emitted feature node +:+ LF |}.
Proof.
  intros Hnode. rewrite appendChildren_cons. unfold emitted.
  destruct (String.eqb (Value node) "copy") eqn:Hcopy; [|by rewrite AppendRaw_buf].
  rewrite fixCopyCmd_arguments.
  destruct (arguments node) as [|src [|dst more]] eqn:Hargs.
  - exfalso. apply Hnode. split; [by apply String.eqb_eq|]. rewrite Hargs. simpl. lia.
  - exfalso. apply Hnode. split; [by apply String.eqb_eq|]. rewrite Hargs. simpl. lia.
  - by rewrite AppendRaw_buf.
Qed.

(** Without a malformed COPY line every line is appended, in order. *)
Lemma appendChildren_ok feature children c :
  Forall (λ node, ¬ malformed node) children →
  appendChildren feature children c
  = ({| buf := buf c +:+ unlines (emitted feature <$> children) |}, None).
Proof.
  intros Hall. revert c. induction Hall as [|node rest Hnode _ IH]; intros c.
  - simpl. rewrite string_app_nil_r. by destruct c.
  - rewrite (appendChildren_step _ _ _ _ Hnode), IH, fmap_cons, unlines_cons.
    cbn [buf]. by rewrite !string_app_assoc.
Qed.

(** The first malformed COPY line ends the loop: the lines before it have
    been appended, and the error is [ErrInvalidCopyCmdSyntax]. *)
Lemma appendChildren_malformed feature before node after c :
  Forall (λ node, ¬ malformed node) before → malformed node →
  appendChildren feature (before ++ node :: after) c
  = ({| buf := buf c +:+ unlines (emitted feature <$> before) |},
     Some ErrInvalidCopyCmdSyntax).
Proof.
  intros Hall [Hcopy Hargs]. revert c. induction Hall as [|n rest Hn _ IH]; intros c.
  - rewrite app_nil_l, appendChildren_cons.
    apply String.eqb_eq in Hcopy. rewrite Hcopy, (fixCopyCmd_malformed _ _ Hargs).
    simpl. rewrite string_app_nil_r. by destruct c.
  - rewrite <- app_comm_cons, (appendChildren_step _ _ _ _ Hn), IH, fmap_cons, unlines_cons.
    cbn [buf]. by rewrite !string_app_assoc.
Qed.

(** The children up to the first malformed COPY line, if there is one. *)
Lemma first_malformed children :
  Forall (λ node, ¬ malformed node) children
  ∨ ∃ before node after, children = before ++ node :: after
      ∧ Forall (λ node, ¬ malformed node) before ∧ malformed node.
Proof.
  induction children as [|n rest IH]; [by left|].
  destruct (decide (malformed n)) as [Hn|Hn].
  - right. exists [], n, rest. split; [done|]. split; [constructor | done].
  - destruct IH as [Hall|(before & node & after & -> & Hall & Hnode)].
    + left. by constructor.
    + right. exists (n :: before), node, after. split; [done|].
      split; [by constructor | done].
Qed.

Lemma appendChildren_error feature children c c' err :
  appendChildren feature children c = (c', Some err) → err = ErrInvalidCopyCmdSyntax.
Proof.
  destruct (first_malformed children) as [Hall|(before & node & after & -> & Hall & Hnode)].
  - by rewrite appendChildren_ok.
  - rewrite (appendChildren_malformed _ _ _ _ _ Hall Hnode). by intros [= _ <-].
Qed.

(** Lines that are no COPY are appended as they were written. *)
Lemma appendChildren_no_copy feature children c :
  Forall (λ node, Value node ≠ "copy") children →
  appendChildren feature children c
  = ({| buf := buf c +:+ unlines (Original <$> children) |}, None).
Proof.
  intros Hall. rewrite appendChildren_ok.
  - do 4 f_equal. apply list_fmap_ext. intros i node Hnode.
    unfold emitted. rewrite Forall_forall in Hall.
    apply list_elem_of_lookup_2, Hall in Hnode.
    by destruct (String.eqb_spec (Value node) "copy").
  - eapply Forall_impl; [done|]. by intros node Hne [Hcopy _].
Qed.

End DockerfileFacts.
(** ** The Dockerfile writer: a parser for plain snippets *)

Module DemoParser.
Import Dockerfile.

Definition lower (c : ascii) : ascii :=
  let n := nat_of_ascii c in
  if (65 <=? n) && (n <=? 90) then ascii_of_nat (n + 32) else c.

Fixpoint lowercase (s : string) : string :=
  match s with
  | EmptyString => EmptyString
  | String c rest => String (lower c) (lowercase rest)
  end.

Fixpoint chained (tokens : list string) : option Node :=
  match tokens with
  | [] => None
  | token :: rest =>
      Some {| Value := token; Next := chained rest; Children := []; Original := "" |}
  end.

Definition parse_line (line : string) : option Node :=
  match Demo.split " " line "" with
  | [] => None
  | instruction :: tokens =>
      Some {| Value := lowercase instruction; Next := chained tokens;
              Children := []; Original := line |}
  end.

(** A stand-in for [parser.Parse] on snippets of one-line instructions
    with blank-separated tokens. *)
Definition parse (snippet : string) : res Node :=
  Ok {| Value := ""; Next := None;
        Children := omap parse_line (Demo.split "010" snippet ""); Original := "" |}.

(** [unicode.IsSpace] on the ASCII characters. *)
Definition is_space (c : ascii) : bool :=
  let n := nat_of_ascii c in
  ((9 <=? n) && (n <=? 13)) || Nat.eqb n 32.

(** [strings.TrimLeftFunc] with it. *)
Fixpoint trim_left (s : string) : string :=
  match s with
  | EmptyString => EmptyString
  | String c rest => if is_space c then trim_left rest else s
  end.

(** The stand-in on indented lines.  Docker's [Parse] strips the white
    space that a scanned line starts with before [ParseLine] keeps the line
    as [Original]; a line of white space alone gives no node. *)
Definition parse_trimmed (snippet : string) : res Node :=
  Ok {| Value := ""; Next := None;
        Children := omap (λ line, parse_line (trim_left line))
                         (Demo.split "010" snippet "");
        Original := "" |}.

End DemoParser.

(** ** The Dockerfile writer: the properties of [AppendFeature] *)

Module DockerfileClaims.
Import Shared Dockerfile DockerfileFacts.

Definition feature_of (name snippet : string) : Feature :=
  {| Meta := {| Name := name; Description := ""; Author := ""; Dependencies := [];
                UpdatedAt := 0 |};
     Snippet := snippet; TestSnippet := "" |}.

Section Composition.
Variable parser_Parse : string → res Node.

Lemma not_malformed_children children :
  (∀ node, node ∈ children → Value node = "copy" → 2 ≤ length (arguments node)) →
  Forall (λ node, ¬ malformed node) children.
Proof.
  intros Hall. apply Forall_forall. intros node Hin [Hcopy Hargs].
  specialize (Hall node Hin Hcopy). lia.
Qed.

(** C3, as the code has it.  When the COPY lines of a feature's snippet
    all have a source and a destination, [AppendFeature] appends one line
    per parsed line, in order and without error: [COPY src dst] as
    [COPY name/src dst], the destination unchanged, and a line that is not a
    COPY as the parser has recorded it in [Original], which is not always
    the line as the snippet has it. *)
Theorem AppendFeature_rewrites_copy feature c ast :
  parser_Parse (Snippet feature) = Ok ast →
  (∀ node, node ∈ Children ast → Value node = "copy" → 2 ≤ length (arguments node)) →
  ∃ lines,
    AppendFeature parser_Parse feature c = ({| buf := buf c +:+ unlines lines |}, None)
    ∧ Forall2 (λ node line,
         (Value node ≠ "copy" → line = Original node)
         ∧ (∀ src dst, Value node = "copy" → arguments node = [src; dst] →
              line = "COPY " +:+ Name (Meta feature) +:+ "/" +:+ src +:+ " " +:+ dst))
        (Children ast) lines.
Proof.
  intros Hparse Hall%not_malformed_children.
  exists (emitted feature <$> Children ast). split.
  - unfold AppendFeature. rewrite Hparse. by apply appendChildren_ok.
  - apply Forall2_fmap_r, Forall_Forall2_diag, Forall_forall.
    intros node _. unfold emitted. split.
    + intros Hne. destruct (String.eqb_spec (Value node) "copy"); done.
    + intros src dst -> ->. done.
Qed.

(** C7, as the code has it.  A COPY line with fewer than two tokens makes
    [AppendFeature] return [ErrInvalidCopyCmdSyntax], the same value and the
    same message for every feature; the call returns nothing else.  The
    loop stops at the first such line: the writer has gained the lines of
    the directives that stand before it, each as a well-formed snippet would
    have it, and nothing of this line or of the lines behind it. *)
Theorem AppendFeature_malformed_copy feature c ast node :
  parser_Parse (Snippet feature) = Ok ast →
  node ∈ Children ast → Value node = "copy" → length (arguments node) < 2 →
  ∃ before bad after lines,
    Children ast = before ++ bad :: after
    ∧ Forall (λ n, Value n = "copy" → 2 ≤ length (arguments n)) before
    ∧ Value bad = "copy" ∧ length (arguments bad) < 2
    ∧ AppendFeature parser_Parse feature c
      = ({| buf := buf c +:+ unlines lines |}, Some ErrInvalidCopyCmdSyntax)
    ∧ Forall2 (λ n line,
         (Value n ≠ "copy" → line = Original n)
         ∧ (∀ src dst extra, Value n = "copy" → arguments n = src :: dst :: extra →
              line = "COPY " +:+ Name (Meta feature) +:+ "/" +:+ src +:+ " " +:+ dst))
        before lines
    ∧ Error ErrInvalidCopyCmdSyntax = "Invalid 'COPY' command syntax".
Proof.
  intros Hparse Hin Hcopy Hargs. unfold AppendFeature. rewrite Hparse.
  destruct (first_malformed (Children ast))
    as [Hall|(before & bad & after & Hsplit & Hall & Hbad)].
  { exfalso. rewrite Forall_forall in Hall. by apply (Hall node Hin). }
  exists before, bad, after, (emitted feature <$> before).
  split; [done|]. split.
  { eapply Forall_impl; [exact Hall|]. intros n Hn Hn_copy.
    destruct (decide (2 ≤ length (arguments n))) as [|Hshort]; [done|].
    exfalso. apply Hn. split; [done | lia]. }
  split; [by destruct Hbad|]. split; [by destruct Hbad|]. split.
  { rewrite Hsplit. by apply appendChildren_malformed. }
  split; [|done].
  apply Forall2_fmap_r, Forall_Forall2_diag, Forall_forall.
  intros n _. unfold emitted. split.
  - intros Hne. by destruct (String.eqb_spec (Value n) "copy").
  - by intros src dst extra -> ->.
Qed.

(** C10.  Tokens behind the destination of a COPY line are dropped without
    an error: when no COPY line of the snippet lacks a token, a line
    [COPY src dst extra...] is appended as [COPY name/src dst], whatever
    the extra tokens are, and [AppendFeature] returns no error. *)
Theorem AppendFeature_copy_extra_tokens feature c ast :
  parser_Parse (Snippet feature) = Ok ast →
  (∀ node, node ∈ Children ast → Value node = "copy" → 2 ≤ length (arguments node)) →
  ∃ lines,
    AppendFeature parser_Parse feature c = ({| buf := buf c +:+ unlines lines |}, None)
    ∧ Forall2 (λ node line,
         ∀ src dst extra, Value node = "copy" → arguments node = src :: dst :: extra →
           fixCopyCmd node feature = Ok line
           ∧ line = "COPY " +:+ Name (Meta feature) +:+ "/" +:+ src +:+ " " +:+ dst)
        (Children ast) lines.
Proof.
  intros Hparse Hok%not_malformed_children.
  exists (emitted feature <$> Children ast). split.
  - unfold AppendFeature. rewrite Hparse. by apply appendChildren_ok.
  - apply Forall2_fmap_r, Forall_Forall2_diag, Forall_forall.
    intros node _ src dst extra Hcopy Hargs.
    rewrite fixCopyCmd_arguments. unfold emitted. by rewrite Hcopy, Hargs.
Qed.

End Composition.

(** *** On the snippets of the examples *)

(** The feature B of the example scenario, with a RUN line added. *)
Lemma AppendFeature_rewrites_copy_witness :
  AppendFeature DemoParser.parse
    (feature_of "B" ("RUN apt-get update" +:+ LF +:+ "COPY f.txt /f.txt"))
    {| buf := "FROM ubuntu" +:+ LF |}
  = ({| buf := "FROM ubuntu" +:+ LF +:+ "RUN apt-get update" +:+ LF
                +:+ "COPY B/f.txt /f.txt" +:+ LF |}, None).
Proof.
  destruct (AppendFeature_rewrites_copy DemoParser.parse
              (feature_of "B" ("RUN apt-get update" +:+ LF +:+ "COPY f.txt /f.txt"))
              {| buf := "FROM ubuntu" +:+ LF |}
              {| Value := ""; Next := None; Original := "";
                 Children := omap DemoParser.parse_line
                               ["RUN apt-get update"; "COPY f.txt /f.txt"] |})
    as (lines & -> & Hlines).
  - vm_compute. reflexivity.
  - intros node Hin Hcopy. vm_compute in Hin.
    apply elem_of_cons in Hin as [->|Hin]; [discriminate Hcopy|].
    apply list_elem_of_singleton in Hin as ->. vm_compute. lia.
  - vm_compute in Hlines.
    apply Forall2_cons_inv_l in Hlines as (l1 & rest & [H1 _] & Hrest & ->).
    apply Forall2_cons_inv_l in Hrest as (l2 & rest' & [_ H2] & Hnil & ->).
    apply Forall2_nil_inv_l in Hnil as ->.
    rewrite H1 by discriminate.
    rewrite (H2 "f.txt" "/f.txt" eq_refl eq_refl). reflexivity.
Defined.

(** Against C3 as it is stated: a line that is no COPY is not always
    emitted as the snippet has it.  The indented line of the feature X comes
    out without its indentation, as the parser recorded it. *)
Lemma AppendFeature_indented_line :
  ¬ (∀ feature c ast,
       DemoParser.parse_trimmed (Snippet feature) = Ok ast →
       (∀ node, node ∈ Children ast → Value node = "copy" →
          length (arguments node) = 2) →
       ∃ lines,
         AppendFeature DemoParser.parse_trimmed feature c
         = ({| buf := buf c +:+ unlines lines |}, None)
         ∧ Forall2 (λ node line,
              (Value node ≠ "copy" → line ∈ Demo.split "010" (Snippet feature) "")
              ∧ (∀ src dst, Value node = "copy" → arguments node = [src; dst] →
                   line = "COPY " +:+ Name (Meta feature) +:+ "/" +:+ src
                          +:+ " " +:+ dst))
             (Children ast) lines).
Proof.
  intros Hclaim.
  destruct (Hclaim (feature_of "X" " RUN a") NewDockerfileWriter
              {| Value := ""; Next := None; Original := "";
                 Children := omap DemoParser.parse_line ["RUN a"] |})
    as (lines & Hrun & Hlines).
  - vm_compute. reflexivity.
  - intros node Hin Hcopy. vm_compute in Hin.
    apply list_elem_of_singleton in Hin as ->. discriminate Hcopy.
  - vm_compute in Hlines.
    apply Forall2_cons_inv_l in Hlines as (line & rest & [Hline _] & Hnil & ->).
    apply Forall2_nil_inv_l in Hnil as ->.
    specialize (Hline ltac:(discriminate)).
    apply list_elem_of_singleton in Hline as ->.
    vm_compute in Hrun. discriminate Hrun.
Qed.

(** The snippets used below, as the stand-in parser reads them. *)
Definition parsed (lines : list string) : Node :=
  {| Value := ""; Next := None; Original := "";
     Children := omap DemoParser.parse_line lines |}.

(** A COPY without a destination, between two RUN lines: the first RUN
    line is in the buffer, the second is not, and the error is the fixed
    one. *)
Lemma AppendFeature_malformed_copy_witness :
  AppendFeature DemoParser.parse
    (feature_of "python"
       ("RUN apt-get update" +:+ LF +:+ "COPY setup.py" +:+ LF +:+ "RUN python -V"))
    {| buf := "FROM ubuntu" +:+ LF |}
  = ({| buf := "FROM ubuntu" +:+ LF +:+ "RUN apt-get update" +:+ LF |},
     Some ErrInvalidCopyCmdSyntax).
Proof.
  destruct (AppendFeature_malformed_copy DemoParser.parse
              (feature_of "python"
                 ("RUN apt-get update" +:+ LF +:+ "COPY setup.py" +:+ LF
                  +:+ "RUN python -V"))
              {| buf := "FROM ubuntu" +:+ LF |}
              (parsed ["RUN apt-get update"; "COPY setup.py"; "RUN python -V"])
              {| Value := "copy"; Original := "COPY setup.py"; Children := [];
                 Next := DemoParser.chained ["setup.py"] |})
    as (before & bad & after & lines & Hsplit & _ & Hbad & _ & -> & Hlines & _).
  - vm_compute. reflexivity.
  - vm_compute. right. left.
  - reflexivity.
  - vm_compute. lia.
  - vm_compute in Hsplit. destruct before as [|n [|n' before]].
    + injection Hsplit as <- _. discriminate Hbad.
    + injection Hsplit as <- _ _.
      apply Forall2_cons_inv_l in Hlines as (line & rest & [Hline _] & Hnil & ->).
      apply Forall2_nil_inv_l in Hnil as ->.
      rewrite Hline by discriminate. reflexivity.
    + injection Hsplit as <- <- Hrest.
      exfalso. destruct before as [|n'' before].
      * injection Hrest as <- _. discriminate Hbad.
      * injection Hrest as _ Hrest. by destruct before.
Defined.

(** Against C7 as it is stated: the error of a malformed COPY line in the
    feature python does not mention python. *)
Lemma AppendFeature_error_names_no_feature :
  ¬ (∀ (parser_Parse : string → res Node) feature c ast node,
       parser_Parse (Snippet feature) = Ok ast →
       node ∈ Children ast → Value node = "copy" → length (arguments node) = 1 →
       ∃ c' err, AppendFeature parser_Parse feature c = (c', Some err)
                 ∧ mentions err (Name (Meta feature))).
Proof.
  intros Hclaim.
  destruct (Hclaim DemoParser.parse (feature_of "python" "COPY setup.py")
              NewDockerfileWriter (parsed ["COPY setup.py"])
              {| Value := "copy"; Original := "COPY setup.py"; Children := [];
                 Next := DemoParser.chained ["setup.py"] |})
    as (c' & err & Hrun & Hnamed).
  - vm_compute. reflexivity.
  - vm_compute. left.
  - reflexivity.
  - reflexivity.
  - vm_compute in Hrun. injection Hrun as _ <-.
    apply mentions_contains in Hnamed. vm_compute in Hnamed. discriminate.
Qed.

(** [COPY a b c] in the feature X: the line is [COPY X/a b]. *)
Lemma AppendFeature_copy_extra_tokens_witness :
  AppendFeature DemoParser.parse (feature_of "X" "COPY a b c") NewDockerfileWriter
  = ({| buf := "COPY X/a b" +:+ LF |}, None).
Proof.
  destruct (AppendFeature_copy_extra_tokens DemoParser.parse
              (feature_of "X" "COPY a b c") NewDockerfileWriter (parsed ["COPY a b c"]))
    as (lines & -> & Hlines).
  - vm_compute. reflexivity.
  - intros node Hin Hcopy. vm_compute in Hin.
    apply list_elem_of_singleton in Hin as ->. vm_compute. lia.
  - vm_compute in Hlines.
    apply Forall2_cons_inv_l in Hlines as (l1 & rest & H1 & Hnil & ->).
    apply Forall2_nil_inv_l in Hnil as ->.
    destruct (H1 "a" "b" ["c"] eq_refl eq_refl) as [_ ->]. reflexivity.
Defined.

End DockerfileClaims.

(** ** The Dockerfile writer: appending only *)

Module DockerfileExtras.
Import Shared Dockerfile DockerfileFacts.

Section Appending.
Variable parser_Parse : string → res Node.

(** X14.  What [AppendFeature] does depends on the feature alone: it
    appends a text to whatever the writer holds, never changing what was
    written before, and the text and the error are the same for every
    writer.  An error is the error of the parser, with nothing appended, or
    [ErrInvalidCopyCmdSyntax]. *)
Theorem AppendFeature_appends (feature : Feature) :
  ∃ text err,
    (∀ c, AppendFeature parser_Parse feature c = ({| buf := buf c +:+ text |}, err))
    ∧ (∀ e, err = Some e →
         (parser_Parse (Snippet feature) = Err e ∧ text = "")
         ∨ e = ErrInvalidCopyCmdSyntax).
Proof.
  unfold AppendFeature. destruct (parser_Parse (Snippet feature)) as [ast|e0].
  - destruct (first_malformed (Children ast))
      as [Hall|(before & node & after & -> & Hall & Hnode)].
    + exists (unlines (emitted feature <$> Children ast)), None.
      split; [|done]. intros c. by apply appendChildren_ok.
    + exists (unlines (emitted feature <$> before)), (Some ErrInvalidCopyCmdSyntax).
      split; [|intros e [= <-]; by right]. intros c. by apply appendChildren_malformed.
  - exists "", (Some e0). split.
    + intros [b]. by rewrite string_app_nil_r.
    + intros e [= <-]. by left.
Qed.

End Appending.
End DockerfileExtras.

(** ** The generator: the document and the test spec file *)

Module MainFacts.
Import Dockerfile DockerfileFacts Main.

(** The two lines a feature contributes: its comment and its snippet. *)
Definition feature_lines (feature : Feature) : list string :=
  ["# " +:+ Name feature; DockerData feature].

(** The test plan of a feature sequence: one entry per feature, in order. *)
Definition plan (features : list Feature) : list TestSpec :=
  (λ feature, {| spec_Feature := Name feature; spec_Cmd := TestInstruction feature |})
    <$> features.

Lemma writeFeatures_buffer features b :
  writeFeatures features b = (b +:+ unlines (features ≫= feature_lines), None).
Proof.
  revert b. induction features as [|feature rest IH]; intros b.
  - simpl. by rewrite string_app_nil_r.
  - cbn [writeFeatures WriteString]. rewrite IH. f_equal.
    rewrite bind_cons. unfold feature_lines at 2.
    cbn [app]. rewrite !unlines_cons. by rewrite !string_app_assoc.
Qed.

Lemma collectSpecs_plan features specs :
  collectSpecs features specs = specs ++ plan features.
Proof.
  revert specs. induction features as [|feature rest IH]; intros specs.
  - simpl. by rewrite app_nil_r.
  - cbn [collectSpecs]. rewrite IH. unfold plan. rewrite fmap_cons.
    by rewrite <- app_assoc.
Qed.

(** *** The file system *)

Lemma os_Open_Create fs fs' name :
  os_Create fs name = Ok fs' → os_Open fs' name = Ok "".
Proof.
  unfold os_Create, os_Open. case_decide; [done|]. intros [= <-]. simpl.
  by rewrite lookup_insert_eq.
Qed.

Lemma os_Open_Write fs name content data :
  os_Open fs name = Ok content →
  os_Open (File_Write fs name data) name = Ok (content +:+ data).
Proof.
  unfold os_Open, File_Write. simpl. destruct (Files fs !! name) eqn:Hf; [|done].
  intros [= <-]. by rewrite lookup_insert_eq.
Qed.

End MainFacts.

(** ** The test spec file: a JSON text for plans *)

Module DemoJson.
Import Dockerfile DockerfileFacts Main.

(** The double quote. *)
Definition dq : ascii := "034"%char.

Fixpoint escape (s : string) : string :=
  match s with
  | EmptyString => EmptyString
  | String c rest =>
      (if Ascii.eqb c dq then String "\" (String dq "")
       else if Ascii.eqb c "\" then "\\"
       else if Ascii.eqb c "010" then "\n"
       else if Ascii.eqb c "013" then "\r"
       else if Ascii.eqb c "009" then "\t"
       else String c "") +:+ escape rest
  end.

Definition quoted (s : string) : string := String dq (escape s +:+ String dq "").

Definition object (spec : TestSpec) : string :=
  "{" +:+ quoted "feature" +:+ ":" +:+ quoted (spec_Feature spec) +:+ ","
      +:+ quoted "cmd" +:+ ":" +:+ quoted (spec_Cmd spec) +:+ "}".

Fixpoint objects (specs : list TestSpec) : string :=
  match specs with
  | [] => ""
  | spec :: rest => object spec +:+ (if rest is [] then "" else ",") +:+ objects rest
  end.

(** A stand-in for [json.Marshal] on a [[]TestSpec]: an array of objects
    with the members ["feature"] and ["cmd"], and [null] for no entry. *)
Definition Marshal (specs : list TestSpec) : res string :=
  Ok (if specs is [] then "null" else "[" +:+ objects specs +:+ "]").

Inductive lexer : Type :=
  | Outside
  | Inside (text : string)
  | Escaped (text : string).

Definition unescape (c : ascii) : ascii :=
  if Ascii.eqb c "n" then "010"%char
  else if Ascii.eqb c "r" then "013"%char
  else if Ascii.eqb c "t" then "009"%char
  else c.

(** The string literals of a JSON text, in order. *)
Fixpoint literals (s : string) (st : lexer) : list string :=
  match s with
  | EmptyString => []
  | String c rest =>
      match st with
      | Outside =>
          if Ascii.eqb c dq then literals rest (Inside "") else literals rest Outside
      | Inside text =>
          if Ascii.eqb c dq then text :: literals rest Outside
          else if Ascii.eqb c "\" then literals rest (Escaped text)
          else literals rest (Inside (text +:+ String c ""))
      | Escaped text => literals rest (Inside (text +:+ String (unescape c) ""))
      end
  end.

Fixpoint entries (lits : list string) : res (list TestSpec) :=
  match lits with
  | [] => Ok []
  | k1 :: v1 :: k2 :: v2 :: rest =>
      if decide (k1 = "feature" ∧ k2 = "cmd") then
        match entries rest with
        | Ok specs => Ok ({| spec_Feature := v1; spec_Cmd := v2 |} :: specs)
        | Err err => Err err
        end
      else Err (Errorf "json: cannot unmarshal object into Go value of type main.TestSpec")
  | _ => Err (Errorf "unexpected end of JSON input")
  end.

(** A stand-in for [json.Unmarshal] into a [[]TestSpec]. *)
Definition Unmarshal (text : string) : res (list TestSpec) :=
  entries (literals text Outside).

Lemma literals_escape v rest text :
  literals (escape v +:+ String dq rest) (Inside text)
  = (text +:+ v) :: literals rest Outside.
Proof.
  revert text. induction v as [|c v IH]; intros text.
  - simpl. by rewrite string_app_nil_r.
  - cbn [escape]. rewrite string_app_assoc.
    replace (text +:+ String c v) with ((text +:+ String c "") +:+ v)
      by (by rewrite string_app_assoc).
    destruct (Ascii.eqb c dq) eqn:E1.
    { apply Ascii.eqb_eq in E1 as ->. exact (IH _). }
    destruct (Ascii.eqb c "\") eqn:E2.
    { apply Ascii.eqb_eq in E2 as ->. exact (IH _). }
    destruct (Ascii.eqb c "010") eqn:E3.
    { apply Ascii.eqb_eq in E3 as ->. exact (IH _). }
    destruct (Ascii.eqb c "013") eqn:E4.
    { apply Ascii.eqb_eq in E4 as ->. exact (IH _). }
    destruct (Ascii.eqb c "009") eqn:E5.
    { apply Ascii.eqb_eq in E5 as ->. exact (IH _). }
    rewrite string_app_cons. cbn [literals]. rewrite E1, E2. exact (IH _).
Qed.

Lemma literals_quoted v rest :
  literals (quoted v +:+ rest) Outside = v :: literals rest Outside.
Proof.
  unfold quoted. rewrite string_app_cons, string_app_assoc. cbn [literals].
  rewrite Ascii.eqb_refl. rewrite string_app_cons. apply literals_escape.
Qed.

Lemma literals_skip c rest :
  Ascii.eqb c dq = false → literals (String c rest) Outside = literals rest Outside.
Proof. intros E. cbn [literals]. by rewrite E. Qed.

Lemma string_app_nil_l (s : string) : "" +:+ s = s.
Proof. reflexivity. Qed.

Ltac lex :=
  repeat first
    [ rewrite literals_quoted
    | rewrite string_app_assoc
    | rewrite string_app_cons
    | rewrite string_app_nil_l
    | rewrite literals_skip by reflexivity ].

Lemma literals_object spec rest :
  literals (object spec +:+ rest) Outside
  = "feature" :: spec_Feature spec :: "cmd" :: spec_Cmd spec :: literals rest Outside.
Proof. unfold object. by lex. Qed.

(** The literals of a plan's text: the member names and values in order. *)
Definition plan_literals (specs : list TestSpec) : list string :=
  specs ≫= λ spec, ["feature"; spec_Feature spec; "cmd"; spec_Cmd spec].

Lemma literals_objects specs rest :
  literals (objects specs +:+ rest) Outside = plan_literals specs ++ literals rest Outside.
Proof.
  induction specs as [|spec specs IH]; [done|].
  cbn [objects]. rewrite !string_app_assoc, literals_object.
  unfold plan_literals. rewrite bind_cons. cbn [app]. do 4 f_equal.
  destruct specs as [|spec' specs]; [done|].
  rewrite string_app_cons, string_app_nil_l, literals_skip by reflexivity. apply IH.
Qed.

Lemma entries_plan_literals specs : entries (plan_literals specs) = Ok specs.
Proof.
  induction specs as [|[feature cmd] specs IH]; [done|].
  unfold plan_literals. rewrite bind_cons. cbn [app entries spec_Feature spec_Cmd].
  rewrite decide_True by done. fold (plan_literals specs). by rewrite IH.
Qed.

(** What [Encode] writes, [Decode] reads back. *)
Lemma Unmarshal_Marshal specs text :
  Marshal specs = Ok text → Unmarshal (text +:+ LF) = Ok specs.
Proof.
  intros [= <-]. unfold Unmarshal. destruct specs as [|spec specs]; [done|].
  rewrite string_app_assoc, string_app_cons, string_app_nil_l.
  rewrite literals_skip by reflexivity. rewrite string_app_assoc, literals_objects.
  change (literals ("]" +:+ LF) Outside) with (@nil string).
  rewrite app_nil_r. apply entries_plan_literals.
Qed.

End DemoJson.

(** ** The generator: the properties of the document and of the plan *)

Module MainClaims.
Import Dockerfile DockerfileFacts Main MainFacts.


(** The feature of the repository's test, for which the test asks the base
    image [ubuntu]: the header is [FROM ubuntu:latest]. *)
Example generateDockerfile_python :
  dockerfile
    (generateDockerfile
       {| registry := ""; dockerfile := ""; testSpec := "test_spec.json";
          dockerEndpoint := ""; docker := None |}
       [{| Name := "python";
           DockerData := "RUN apt-get update && apt-get install python --yes";
           TestInstruction := "" |}]).1
  = "FROM ubuntu:latest" +:+ LF +:+ "# python" +:+ LF
      +:+ "RUN apt-get update && apt-get install python --yes" +:+ LF
      +:+ "CMD /bin/bash" +:+ LF.
Proof. vm_compute. reflexivity. Qed.

Section Plan.
Variable json_Marshal : list TestSpec → res string.
Variable json_Unmarshal : string → res (list TestSpec).
(** [Decode] reads back what [Encode] wrote. *)
Hypothesis json_roundtrip : ∀ specs text,
  json_Marshal specs = Ok text → json_Unmarshal (text +:+ LF) = Ok specs.

Lemma testSpec_roundtrip (p p' : Pazuzu) (fs fs' : FileSystem) (features : list Feature) :
  testSpec p' = testSpec p →
  generateTestSpec json_Marshal p fs features = (fs', None) →
  readTestSpec json_Unmarshal p' fs' = Ok (plan features).
Proof.
  intros Hpath Hgen. unfold generateTestSpec in Hgen.
  destruct (os_Create fs (testSpec p)) as [fs1|err] eqn:Hcreate; [|done].
  rewrite collectSpecs_plan in Hgen. unfold Encode in Hgen. cbn [app] in Hgen.
  destruct (json_Marshal (plan features)) as [text|err] eqn:Hmarshal; [|done].
  injection Hgen as <-. unfold readTestSpec. rewrite Hpath.
  rewrite (os_Open_Write fs1 (testSpec p) "" (text +:+ LF)
             (os_Open_Create _ _ _ Hcreate)).
  change ("" +:+ text +:+ LF) with (text +:+ LF).
  by rewrite (json_roundtrip _ _ Hmarshal).
Qed.

(** C9.  The plan has one entry per feature, in the order of the features
    and whatever the test instruction is; when [generateTestSpec] has
    written it without error, [readTestSpec] on the same path, by the same
    or by another process, returns exactly this plan. *)
Theorem testSpec_written_then_read (p p' : Pazuzu) (fs fs' : FileSystem)
    (features : list Feature) :
  testSpec p' = testSpec p →
  generateTestSpec json_Marshal p fs features = (fs', None) →
  collectSpecs features [] = plan features
  ∧ length (plan features) = length features
  ∧ (∀ i feature, features !! i = Some feature →
       plan features !! i
       = Some {| spec_Feature := Name feature; spec_Cmd := TestInstruction feature |})
  ∧ readTestSpec json_Unmarshal p' fs' = Ok (plan features).
Proof.
  intros Hpath Hgen. split; [apply collectSpecs_plan|].
  split; [apply length_fmap|]. split.
  - intros i feature Hi. unfold plan. by rewrite list_lookup_fmap, Hi.
  - by apply (testSpec_roundtrip p p' fs fs').
Qed.

(** Writing succeeds when the path may be created and the plan marshals. *)
Lemma generateTestSpec_succeeds (p : Pazuzu) (fs : FileSystem) (features : list Feature) text :
  testSpec p ∉ Denied fs → json_Marshal (plan features) = Ok text →
  (generateTestSpec json_Marshal p fs features).2 = None.
Proof.
  intros Hfree Hmarshal. unfold generateTestSpec, os_Create.
  rewrite decide_False by done. rewrite collectSpecs_plan. unfold Encode. cbn [app].
  by rewrite Hmarshal.
Qed.

(** The build: after a [Generate] without error the document is the one
    composed from the features of the registry, and a later [readTestSpec]
    finds their plan. *)
Lemma Generate_ok (getFeatures : Pazuzu → list string → res (list Feature))
    (p p' verifier : Pazuzu) (disk disk' : FileSystem) (names : list string) :
  Generate json_Marshal getFeatures p disk names = (p', disk', None) →
  testSpec verifier = testSpec p →
  ∃ features,
    getFeatures p names = Ok features
    ∧ dockerfile p' = "FROM ubuntu:latest" +:+ LF
                      +:+ unlines (features ≫= feature_lines)
                      +:+ "CMD /bin/bash" +:+ LF
    ∧ readTestSpec json_Unmarshal verifier disk' = Ok (plan features).
Proof.
  unfold Generate. destruct (getFeatures p names) as [features|err]; [|done].
  unfold generateDockerfile. cbn [WriteString]. rewrite writeFeatures_buffer.
  destruct (generateTestSpec _ _ disk features) as [disk1 [err|]] eqn:Hgen; [done|].
  intros [= <- <-] Hpath. exists features. split; [done|]. split.
  - cbn [set_dockerfile dockerfile]. by rewrite !string_app_assoc.
  - eapply testSpec_roundtrip; [|exact Hgen]. exact Hpath.
Qed.

End Plan.

(** *** On the features of the example scenario *)

Definition feature_B : Feature :=
  {| Name := "B"; DockerData := "COPY f.txt /f.txt"; TestInstruction := "test -f /f.txt" |}.

(** A feature without a test instruction. *)
Definition feature_A : Feature :=
  {| Name := "A"; DockerData := "RUN a"; TestInstruction := "" |}.

Definition builder : Pazuzu :=
  {| registry := "http://localhost:8080/api"; dockerfile := "";
     testSpec := "test_spec.json"; dockerEndpoint := "unix:///var/run/docker.sock";
     docker := None |}.

(** The process that verifies: it shares the path of the plan only. *)
Definition verifier : Pazuzu :=
  {| registry := ""; dockerfile := ""; testSpec := "test_spec.json";
     dockerEndpoint := "tcp://localhost:2375"; docker := None |}.

Definition empty_disk : FileSystem := {| Files := ∅; Denied := ∅ |}.

Lemma testSpec_written_then_read_witness :
  readTestSpec DemoJson.Unmarshal verifier
    (generateTestSpec DemoJson.Marshal builder empty_disk [feature_B; feature_A]).1
  = Ok [ {| spec_Feature := "B"; spec_Cmd := "test -f /f.txt" |};
         {| spec_Feature := "A"; spec_Cmd := "" |} ].
Proof.
  apply (testSpec_written_then_read DemoJson.Marshal DemoJson.Unmarshal
           DemoJson.Unmarshal_Marshal builder verifier empty_disk _ [feature_B; feature_A]).
  - reflexivity.
  - vm_compute. reflexivity.
Defined.

End MainClaims.

(** ** The generator: the plan file and the build as a whole *)

Module MainExtras.
Import Dockerfile DockerfileFacts Main MainFacts.

(** The document that [generateDockerfile] composes from [features]. *)
Definition document (features : list Feature) : string :=
  "FROM ubuntu:latest" +:+ LF +:+ unlines (features ≫= feature_lines)
    +:+ "CMD /bin/bash" +:+ LF.

Lemma generateDockerfile_sets p features :
  generateDockerfile p features = (set_dockerfile p (document features), None).
Proof.
  unfold generateDockerfile, document. cbn [WriteString].
  rewrite writeFeatures_buffer. by rewrite !string_app_assoc.
Qed.

Section Plan.
Variable json_Marshal : list TestSpec → res string.
Variable json_Unmarshal : string → res (list TestSpec).

Lemma generateTestSpec_written p fs fs' features :
  generateTestSpec json_Marshal p fs features = (fs', None) →
  ∃ text, json_Marshal (plan features) = Ok text
    ∧ Files fs' = <[testSpec p := text +:+ LF]> (Files fs)
    ∧ Denied fs' = Denied fs.
Proof.
  unfold generateTestSpec, os_Create. case_decide as Hdenied; [done|].
  rewrite collectSpecs_plan. cbn [app]. unfold Encode.
  destruct (json_Marshal (plan features)) as [text|err]; [|done].
  intros [= <-]. exists text. split; [done|]. unfold File_Write. simpl.
  rewrite lookup_insert_eq, insert_insert_eq. done.
Qed.

(** X15.  Writing the plan replaces it: after [generateTestSpec] without
    error the file holds the new plan and a line feed and nothing of what
    it held before, and every other file is as it was. *)
Theorem generateTestSpec_overwrites p fs fs' features :
  generateTestSpec json_Marshal p fs features = (fs', None) →
  ∃ text, json_Marshal (plan features) = Ok text
    ∧ Files fs' !! testSpec p = Some (text +:+ LF)
    ∧ (∀ other, other ≠ testSpec p → Files fs' !! other = Files fs !! other)
    ∧ Denied fs' = Denied fs.
Proof.
  intros (text & Hmarshal & -> & Hdenied)%generateTestSpec_written.
  exists text. split; [done|]. rewrite lookup_insert_eq. split; [done|].
  split; [|done]. intros other Hother. by rewrite lookup_insert_ne.
Qed.

Variable getFeatures : Pazuzu → list string → res (list Feature).
(** [Decode] reads back what [Encode] wrote. *)
Hypothesis json_roundtrip : ∀ specs text,
  json_Marshal specs = Ok text → json_Unmarshal (text +:+ LF) = Ok specs.

Lemma Generate_inv p p' disk disk' names :
  Generate json_Marshal getFeatures p disk names = (p', disk', None) →
  ∃ features,
    getFeatures p names = Ok features
    ∧ p' = set_dockerfile p (document features)
    ∧ generateTestSpec json_Marshal p' disk features = (disk', None).
Proof.
  unfold Generate. destruct (getFeatures p names) as [features|err]; [|done].
  rewrite generateDockerfile_sets.
  destruct (generateTestSpec _ _ disk features) as [disk1 [err|]] eqn:Hgen; [done|].
  intros [= <- <-]. by exists features.
Qed.

(** X16.  A [Generate] without error leaves both products of the build,
    made from the same features, those the registry returned for the
    request: the Dockerfile in the generator, nothing else of which has
    changed, and on disk the plan that [readTestSpec] will find. *)
Theorem Generate_products p p' verifier disk disk' names :
  Generate json_Marshal getFeatures p disk names = (p', disk', None) →
  testSpec verifier = testSpec p →
  ∃ features,
    getFeatures p names = Ok features
    ∧ p' = set_dockerfile p (document features)
    ∧ readTestSpec json_Unmarshal verifier disk' = Ok (plan features).
Proof.
  unfold Generate. destruct (getFeatures p names) as [features|err]; [|done].
  rewrite generateDockerfile_sets.
  destruct (generateTestSpec _ _ disk features) as [disk1 [err|]] eqn:Hgen; [done|].
  intros [= <- <-] Hpath. exists features. split; [done|]. split; [done|].
  apply generateTestSpec_written in Hgen as (text & Hmarshal & Hfile & _).
  unfold readTestSpec, os_Open. rewrite Hpath, Hfile.
  cbn [testSpec set_dockerfile]. rewrite lookup_insert_eq.
  by rewrite (json_roundtrip _ _ Hmarshal).
Qed.

(** X17.  A [Generate] that fails has failed in one of two places, and
    returns the error of that place: at the registry, and then nothing has
    changed; or at the plan file, and then the generator holds the new
    Dockerfile all the same. *)
Theorem Generate_failure p p' disk disk' names err :
  Generate json_Marshal getFeatures p disk names = (p', disk', Some err) →
  (getFeatures p names = Err err ∧ p' = p ∧ disk' = disk)
  ∨ ∃ features,
      getFeatures p names = Ok features
      ∧ p' = set_dockerfile p (document features)
      ∧ generateTestSpec json_Marshal p' disk features = (disk', Some err).
Proof.
  unfold Generate. destruct (getFeatures p names) as [features|e].
  - rewrite generateDockerfile_sets.
    destruct (generateTestSpec _ _ disk features) as [disk1 [e|]] eqn:Hgen; [|done].
    intros [= <- <- <-]. right. by exists features.
  - intros [= <- <- <-]. by left.
Qed.

End Plan.

(** *** On the features of the example scenario *)

(** A registry that knows A and B and returns B before A. *)
Definition registry_AB (p : Pazuzu) (names : list string) : res (list Feature) :=
  if decide (names = ["A"])
  then Ok [MainClaims.feature_B; MainClaims.feature_A]
  else Err (Errorf "Feature not found").

(** A disk with an older plan and another file. *)
Definition used_disk : FileSystem :=
  {| Files := {[ "test_spec.json" := "[{}]"; "Dockerfile" := "FROM scratch" ]};
     Denied := {[ "/proc/test_spec.json" ]} |}.

(** A generator whose plan file cannot be created. *)
Definition locked : Pazuzu :=
  {| registry := "http://localhost:8080/api"; dockerfile := "";
     testSpec := "/proc/test_spec.json";
     dockerEndpoint := "unix:///var/run/docker.sock"; docker := None |}.

Lemma generateTestSpec_overwrites_witness :
  ∃ text, DemoJson.Marshal (plan [MainClaims.feature_B]) = Ok text
    ∧ Files (generateTestSpec DemoJson.Marshal MainClaims.builder used_disk
               [MainClaims.feature_B]).1 !! testSpec MainClaims.builder
      = Some (text +:+ LF)
    ∧ (∀ other, other ≠ testSpec MainClaims.builder →
         Files (generateTestSpec DemoJson.Marshal MainClaims.builder used_disk
                  [MainClaims.feature_B]).1 !! other
         = Files used_disk !! other)
    ∧ Denied (generateTestSpec DemoJson.Marshal MainClaims.builder used_disk
                [MainClaims.feature_B]).1 = Denied used_disk.
Proof.
  apply (generateTestSpec_overwrites DemoJson.Marshal MainClaims.builder used_disk).
  vm_compute. reflexivity.
Defined.

Lemma Generate_products_witness :
  ∃ features,
    registry_AB MainClaims.builder ["A"] = Ok features
    ∧ (Generate DemoJson.Marshal registry_AB MainClaims.builder used_disk ["A"]).1.1
      = set_dockerfile MainClaims.builder (document features)
    ∧ readTestSpec DemoJson.Unmarshal MainClaims.verifier
        (Generate DemoJson.Marshal registry_AB MainClaims.builder used_disk ["A"]).1.2
      = Ok (plan features).
Proof.
  apply (Generate_products DemoJson.Marshal DemoJson.Unmarshal registry_AB
           DemoJson.Unmarshal_Marshal MainClaims.builder _ MainClaims.verifier
           used_disk _ ["A"]).
  - vm_compute. reflexivity.
  - reflexivity.
Defined.

Lemma Generate_failure_witness :
  (registry_AB locked ["A"] = Err (Errorf "open /proc/test_spec.json: permission denied")
   ∧ (Generate DemoJson.Marshal registry_AB locked used_disk ["A"]).1.1 = locked
   ∧ (Generate DemoJson.Marshal registry_AB locked used_disk ["A"]).1.2 = used_disk)
  ∨ ∃ features,
      registry_AB locked ["A"] = Ok features
      ∧ (Generate DemoJson.Marshal registry_AB locked used_disk ["A"]).1.1
        = set_dockerfile locked (document features)
      ∧ generateTestSpec DemoJson.Marshal
          (Generate DemoJson.Marshal registry_AB locked used_disk ["A"]).1.1
          used_disk features
        = ((Generate DemoJson.Marshal registry_AB locked used_disk ["A"]).1.2,
           Some (Errorf "open /proc/test_spec.json: permission denied")).
Proof.
  apply (Generate_failure DemoJson.Marshal registry_AB locked _ used_disk _ ["A"]).
  vm_compute. reflexivity.
Defined.

End MainExtras.

(** ** The runner: what a replay does *)

Module RunnerFacts.
Import Dockerfile DockerfileFacts Main.

(** The command line that [dockerExec] hands to the daemon. *)
Definition shell (cmd : string) : list string := ["/bin/bash"; "-c"; cmd].

(** The execs that were asked of the daemon, in order. *)
Definition exec_calls (cs : list Call) : list (string * list string) :=
  omap (λ c, match c with
             | CreateExec container cmd => Some (container, cmd)
             | _ => None
             end) cs.

(** What the loop prints before it runs an entry. *)
Definition announcement (spec : TestSpec) : string :=
  "Running test spec for feature '" +:+ spec_Feature spec +:+ "':" +:+ LF
    +:+ String "009"%char "" +:+ spec_Cmd spec +:+ LF.

Section Replay.
Variable D : Daemon.

(** The outcome of each entry of a plan replayed from [w]: the entry and
    the error of its exec, if any. *)
Fixpoint report (ID : string) (specs : list TestSpec) (w : World)
    : list (TestSpec * option error) :=
  match specs with
  | [] => []
  | spec :: rest =>
      let '(w1, err) := dockerExec D ID (spec_Cmd spec) (printed w (announcement spec)) in
      (spec, err) :: report ID rest (match err with
                                     | Some e => printed w1 (Error e +:+ LF)
                                     | None => w1
                                     end)
  end.

Definition failed (outcome : TestSpec * option error) : Prop := is_Some outcome.2.

Global Instance failed_dec outcome : Decision (failed outcome).
Proof. unfold failed. apply _. Defined.

(** What a replay with these outcomes prints. *)
Definition transcript (outcomes : list (TestSpec * option error)) : string :=
  foldr (λ outcome text,
           announcement outcome.1
           +:+ match outcome.2 with
               | Some e => Error e +:+ LF
               | None => ""
               end +:+ text) "" outcomes.

Lemma exec_calls_app cs1 cs2 : exec_calls (cs1 ++ cs2) = exec_calls cs1 ++ exec_calls cs2.
Proof. apply omap_app. Qed.

Lemma dockerExec_exec_calls ID cmd w :
  exec_calls (calls (dockerExec D ID cmd w).1) = exec_calls (calls w) ++ [(ID, shell cmd)].
Proof.
  unfold dockerExec. fold (shell cmd).
  destruct (reply_CreateExec D (calls w) ID (shell cmd)) as [exec|err]; cbn [fst called calls].
  2: { by rewrite exec_calls_app. }
  destruct (reply_StartExec D _ exec) as [[out errout] [err|]]; cbn [fst called calls].
  { by rewrite !exec_calls_app, app_nil_r. }
  destruct (reply_InspectExec D _ exec) as [code|err]; [case_decide|];
    cbn [fst called calls]; by rewrite !exec_calls_app, !app_nil_r.
Qed.

Lemma dockerExec_stdout ID cmd w : stdout (dockerExec D ID cmd w).1 = stdout w.
Proof.
  unfold dockerExec.
  destruct (reply_CreateExec D (calls w) ID _) as [exec|err]; [|done].
  destruct (reply_StartExec D _ exec) as [[out errout] [err|]]; [done|].
  destruct (reply_InspectExec D _ exec) as [code|err]; [by case_decide | done].
Qed.

(** An exec that the daemon creates, starts and inspects without error
    fails exactly when its exit code is greater than zero. *)
Lemma dockerExec_exit_code ID cmd w exec out errout code :
  reply_CreateExec D (calls w) ID (shell cmd) = Ok exec →
  reply_StartExec D (calls w ++ [CreateExec ID (shell cmd)]) exec = (out, errout, None) →
  reply_InspectExec D (calls w ++ [CreateExec ID (shell cmd)] ++ [StartExec exec]) exec
    = Ok code →
  (dockerExec D ID cmd w).2
  = if decide (code > 0)%Z
    then Some (Errorf ("exit code " +:+ pretty code +:+ ": " +:+ out))
    else None.
Proof.
  intros Hcreate Hstart Hinspect. unfold dockerExec. fold (shell cmd).
  rewrite Hcreate. cbn [called calls]. rewrite Hstart. cbn [called calls].
  rewrite <- app_assoc, Hinspect. by case_decide.
Qed.

Lemma runSpecs_cons ID spec rest w failedTests :
  runSpecs D ID (spec :: rest) w failedTests =
    match dockerExec D ID (spec_Cmd spec) (printed w (announcement spec)) with
    | (w, Some err) => runSpecs D ID rest (printed w (Error err +:+ LF)) (failedTests + 1)
    | (w, None) => runSpecs D ID rest w failedTests
    end.
Proof. reflexivity. Qed.

(** The loop goes through the whole plan, whatever the execs return: it
    asks for the exec of every entry in order, counts the entries whose
    exec returned an error, and prints each outcome. *)
Lemma runSpecs_replay ID specs w failedTests :
  ∃ w', runSpecs D ID specs w failedTests
        = (w', (failedTests + Z.of_nat (length (filter failed (report ID specs w))))%Z)
    ∧ exec_calls (calls w')
      = exec_calls (calls w) ++ ((λ spec, (ID, shell (spec_Cmd spec))) <$> specs)
    ∧ stdout w' = stdout w +:+ transcript (report ID specs w).
Proof.
  revert w failedTests. induction specs as [|spec rest IH]; intros w failedTests.
  - exists w. simpl. rewrite Z.add_0_r, app_nil_r, string_app_nil_r. done.
  - rewrite runSpecs_cons. cbn [report].
    pose proof (dockerExec_exec_calls ID (spec_Cmd spec) (printed w (announcement spec)))
      as Hcalls.
    pose proof (dockerExec_stdout ID (spec_Cmd spec) (printed w (announcement spec)))
      as Hout.
    destruct (dockerExec D ID (spec_Cmd spec) (printed w (announcement spec)))
      as [w1 [err|]]; cbn [fst] in Hcalls, Hout.
    + destruct (IH (printed w1 (Error err +:+ LF)) (failedTests + 1)%Z)
        as (w' & -> & Hc & Ho).
      exists w'. split; [|split].
      * f_equal. rewrite filter_cons_True by (by eexists). simpl length. lia.
      * rewrite Hc. cbn [printed calls] in *. by rewrite Hcalls, fmap_cons, <- app_assoc.
      * rewrite Ho. cbn [printed stdout transcript foldr fst snd] in *.
        rewrite Hout. by rewrite !string_app_assoc.
    + destruct (IH w1 failedTests) as (w' & -> & Hc & Ho).
      exists w'. split; [|split].
      * by f_equal.
      * rewrite Hc. cbn [printed calls] in *. by rewrite Hcalls, fmap_cons, <- app_assoc.
      * rewrite Ho. cbn [printed stdout transcript foldr fst snd] in *.
        rewrite Hout. by rewrite !string_app_assoc.
Qed.

Lemma report_entries ID specs w : (report ID specs w).*1 = specs.
Proof.
  revert w. induction specs as [|spec rest IH]; intros w; [done|].
  cbn [report]. destruct (dockerExec D ID _ _) as [w1 err]. by rewrite fmap_cons, IH.
Qed.

End Replay.
End RunnerFacts.

(** ** The runner: the properties of [RunTestSpec] *)

Module RunnerClaims.
Import Dockerfile DockerfileFacts Main MainFacts RunnerFacts.

Section Run.
Variable D : Daemon.
Variable json_Unmarshal : string → res (list TestSpec).

(** C4, as the code has it.  On a started container the loop runs the
    exec of every entry of the plan, in order, whatever the earlier execs
    returned; an entry whose exec returns an error (it exits with a code
    greater than zero, or cannot be created, started or inspected) is
    counted and printed with its output.  When the container is then
    stopped and removed without error the call fails exactly when the count
    is greater than zero; when stopping or removing fails the call returns
    that error. *)
Theorem RunTestSpec_soft_failures p image fs w specs w1 p1 container :
  readTestSpec json_Unmarshal p fs = Ok specs →
  dockerStart D p image w = (w1, p1, Ok container) →
  ∃ w2 failedTests,
    runSpecs D container specs w1 0 = (w2, failedTests)
    ∧ exec_calls (calls w2)
      = exec_calls (calls w1) ++ ((λ spec, (container, shell (spec_Cmd spec))) <$> specs)
    ∧ (report D container specs w1).*1 = specs
    ∧ failedTests = Z.of_nat (length (filter failed (report D container specs w1)))
    ∧ stdout w2 = stdout w1 +:+ transcript (report D container specs w1)
    ∧ (∀ cmd w exec out errout code,
         reply_CreateExec D (calls w) container (shell cmd) = Ok exec →
         reply_StartExec D (calls w ++ [CreateExec container (shell cmd)]) exec
           = (out, errout, None) →
         reply_InspectExec D
           (calls w ++ [CreateExec container (shell cmd)] ++ [StartExec exec]) exec
           = Ok code →
         (dockerExec D container cmd w).2
         = if decide (code > 0)%Z
           then Some (Errorf ("exit code " +:+ pretty code +:+ ": " +:+ out))
           else None)
    ∧ match dockerStop D container w2 with
      | (w3, None) =>
          ∃ err, RunTestSpec D json_Unmarshal p image fs w = (w3, p1, err)
                 ∧ (is_Some err ↔ (failedTests > 0)%Z)
      | (w3, Some stopErr) =>
          RunTestSpec D json_Unmarshal p image fs w = (w3, p1, Some stopErr)
      end.
Proof.
  intros Hread Hstart.
  destruct (runSpecs_replay D container specs w1 0) as (w2 & Hrun & Hcalls & Hout).
  exists w2, (Z.of_nat (length (filter failed (report D container specs w1)))).
  split; [by rewrite Hrun|]. split; [done|]. split; [apply report_entries|].
  split; [done|]. split; [done|]. split; [apply dockerExec_exit_code|].
  unfold RunTestSpec. rewrite Hread, Hstart, Hrun. cbn [Z.add].
  destruct (dockerStop D container w2) as [w3 [stopErr|]]; [done|].
  case_decide as Hfailed.
  - eexists. split; [done|]. split; [done | by eexists].
  - exists None. split; [done|]. split; [by intros [? ?] | done].
Qed.

End Run.

(** *** On the plan of the example scenario *)

(** A daemon that does what it is asked: the id of an exec is its command,
    and only the command [false] exits with a code other than zero. *)
Definition obliging : Daemon := {|
  reply_NewClient := λ _ _, None;
  reply_CreateContainer := λ _ _, Ok "c0ffee";
  reply_StartContainer := λ _ _, None;
  reply_CreateExec := λ _ _ cmd, Ok (default "" (last cmd));
  reply_StartExec := λ _ _, ("", "", None);
  reply_InspectExec := λ _ exec, Ok (if decide (exec = "false") then 1%Z else 0%Z);
  reply_StopContainer := λ _ _, None;
  reply_RemoveContainer := λ _ _, None
|}.

(** The same daemon, except that it cannot stop a container. *)
Definition stuck : Daemon := {|
  reply_NewClient := reply_NewClient obliging;
  reply_CreateContainer := reply_CreateContainer obliging;
  reply_StartContainer := reply_StartContainer obliging;
  reply_CreateExec := reply_CreateExec obliging;
  reply_StartExec := reply_StartExec obliging;
  reply_InspectExec := reply_InspectExec obliging;
  reply_StopContainer := λ _ _, Some (Errorf "cannot stop container");
  reply_RemoveContainer := reply_RemoveContainer obliging
|}.

Definition fresh : World := {| calls := []; stdout := "" |}.

Definition entry_A : TestSpec := {| spec_Feature := "A"; spec_Cmd := "false" |}.
Definition entry_B : TestSpec := {| spec_Feature := "B"; spec_Cmd := "test -f /f.txt" |}.

(** The disk with the plan [A, B] as [Encode] writes it. *)
Definition disk : FileSystem :=
  {| Files := {[ "test_spec.json" :=
       default "" (match DemoJson.Marshal [entry_A; entry_B] with
                   | Ok text => Some (text +:+ LF)
                   | Err _ => None
                   end) ]};
     Denied := ∅ |}.

Definition disk_passing : FileSystem :=
  {| Files := {[ "test_spec.json" :=
       default "" (match DemoJson.Marshal [entry_B] with
                   | Ok text => Some (text +:+ LF)
                   | Err _ => None
                   end) ]};
     Denied := ∅ |}.

Example RunTestSpec_example :
  (RunTestSpec obliging DemoJson.Unmarshal MainClaims.verifier "pazuzu-img" disk fresh).2
  = Some (Errorf "number of failing tests: 1").
Proof. vm_compute. reflexivity. Qed.

(** A fails first and B still runs: one failure, two execs. *)
Lemma RunTestSpec_soft_failures_witness :
  ∃ w2 failedTests,
    runSpecs obliging "c0ffee" [entry_A; entry_B]
      (dockerStart obliging MainClaims.verifier "pazuzu-img" fresh).1.1 0
    = (w2, failedTests)
    ∧ exec_calls (calls w2) = [("c0ffee", shell "false"); ("c0ffee", shell "test -f /f.txt")]
    ∧ failedTests = 1%Z.
Proof.
  destruct (RunTestSpec_soft_failures obliging DemoJson.Unmarshal MainClaims.verifier
              "pazuzu-img" disk fresh [entry_A; entry_B]
              (dockerStart obliging MainClaims.verifier "pazuzu-img" fresh).1.1
              (dockerStart obliging MainClaims.verifier "pazuzu-img" fresh).1.2
              "c0ffee")
    as (w2 & failedTests & Hrun & Hcalls & _ & Hcount & _).
  - vm_compute. reflexivity.
  - vm_compute. reflexivity.
  - exists w2, failedTests. split; [exact Hrun|]. split; [exact Hcalls | exact Hcount].
Defined.

(** Against C4 as it is stated: with a daemon that cannot stop the
    container the call fails although no entry failed. *)
Lemma RunTestSpec_fails_without_failures :
  ¬ (∀ (D : Daemon) (json_Unmarshal : string → res (list TestSpec))
       p image fs w specs w1 p1 container,
       readTestSpec json_Unmarshal p fs = Ok specs →
       dockerStart D p image w = (w1, p1, Ok container) →
       is_Some (RunTestSpec D json_Unmarshal p image fs w).2
       ↔ ((runSpecs D container specs w1 0).2 > 0)%Z).
Proof.
  intros Hclaim.
  destruct (Hclaim stuck DemoJson.Unmarshal MainClaims.verifier "pazuzu-img"
              disk_passing fresh [entry_B]
              (dockerStart stuck MainClaims.verifier "pazuzu-img" fresh).1.1
              (dockerStart stuck MainClaims.verifier "pazuzu-img" fresh).1.2
              "c0ffee") as [Hfails _].
  - vm_compute. reflexivity.
  - vm_compute. reflexivity.
  - assert (is_Some (RunTestSpec stuck DemoJson.Unmarshal MainClaims.verifier
                       "pazuzu-img" disk_passing fresh).2) as Hsome.
    { vm_compute. by eexists. }
    apply Hfails in Hsome. vm_compute in Hsome. discriminate Hsome.
Qed.

End RunnerClaims.
(** ** The runner: the container and the streams of the execs *)

Module RunnerExtras.
Import Dockerfile DockerfileFacts Main MainFacts RunnerFacts.

(** The calls that create, start, stop or remove a container, in order. *)
Definition container_calls (cs : list Call) : list Call :=
  omap (λ c, match c with
             | CreateContainer _ _ _ | StartContainer _
             | StopContainer _ _ | RemoveContainer _ => Some c
             | _ => None
             end) cs.

(** The life of the container of one run. *)
Definition lifecycle (image container : string) : list Call :=
  [CreateContainer image true ["/bin/bash"]; StartContainer container;
   StopContainer container 1; RemoveContainer container].

(** Two daemons that a caller of [RunTestSpec] cannot tell apart: they
    reply alike, except for what an exec writes to its error stream, and
    for what it writes to its output stream unless it exits with a code
    greater than zero. *)
Record alike (D1 D2 : Daemon) : Prop := {
  alike_NewClient : ∀ h endpoint,
    reply_NewClient D1 h endpoint = reply_NewClient D2 h endpoint;
  alike_CreateContainer : ∀ h image,
    reply_CreateContainer D1 h image = reply_CreateContainer D2 h image;
  alike_StartContainer : ∀ h id,
    reply_StartContainer D1 h id = reply_StartContainer D2 h id;
  alike_CreateExec : ∀ h id cmd,
    reply_CreateExec D1 h id cmd = reply_CreateExec D2 h id cmd;
  alike_StartExec : ∀ h exec,
    (reply_StartExec D1 h exec).2 = (reply_StartExec D2 h exec).2;
  alike_output : ∀ h exec code,
    reply_InspectExec D1 (h ++ [StartExec exec]) exec = Ok code → (code > 0)%Z →
    (reply_StartExec D1 h exec).1.1 = (reply_StartExec D2 h exec).1.1;
  alike_InspectExec : ∀ h exec,
    reply_InspectExec D1 h exec = reply_InspectExec D2 h exec;
  alike_StopContainer : ∀ h id,
    reply_StopContainer D1 h id = reply_StopContainer D2 h id;
  alike_RemoveContainer : ∀ h id,
    reply_RemoveContainer D1 h id = reply_RemoveContainer D2 h id
}.

(** A call of another kind is not in a list of calls. *)
Ltac absent :=
  let H := fresh in
  intros H; cbn [app] in H;
  repeat (apply elem_of_cons in H as [H|H]; [discriminate H|]);
  by apply elem_of_nil in H.

Lemma container_calls_app cs1 cs2 :
  container_calls (cs1 ++ cs2) = container_calls cs1 ++ container_calls cs2.
Proof. apply omap_app. Qed.

Section Container.
Variable D : Daemon.

Lemma dockerExec_container_calls ID cmd w :
  container_calls (calls (dockerExec D ID cmd w).1) = container_calls (calls w).
Proof.
  unfold dockerExec.
  destruct (reply_CreateExec D (calls w) ID _) as [exec|err]; cbn [fst called calls].
  2: { by rewrite container_calls_app, app_nil_r. }
  destruct (reply_StartExec D _ exec) as [[out errout] [err|]]; cbn [fst called calls].
  { by rewrite !container_calls_app, !app_nil_r. }
  destruct (reply_InspectExec D _ exec) as [code|err]; [case_decide|];
    cbn [fst called calls]; by rewrite !container_calls_app, !app_nil_r.
Qed.

Lemma runSpecs_container_calls ID specs w failedTests :
  container_calls (calls (runSpecs D ID specs w failedTests).1) = container_calls (calls w).
Proof.
  revert w failedTests. induction specs as [|spec rest IH]; intros w failedTests; [done|].
  rewrite runSpecs_cons.
  pose proof (dockerExec_container_calls ID (spec_Cmd spec) (printed w (announcement spec)))
    as Hexec.
  destruct (dockerExec D ID (spec_Cmd spec) (printed w (announcement spec)))
    as [w1 [err|]]; rewrite IH; exact Hexec.
Qed.

(** What [dockerStart] asks of the daemon, by its outcome. *)
Lemma dockerStart_calls p image w w1 p1 r :
  dockerStart D p image w = (w1, p1, r) →
  stdout w1 = stdout w
  ∧ exec_calls (calls w1) = exec_calls (calls w)
  ∧ ∃ trace, container_calls (calls w1) = container_calls (calls w) ++ trace
      ∧ match r with
        | Ok container =>
            trace = [CreateContainer image true ["/bin/bash"]; StartContainer container]
        | Err _ =>
            trace = [] ∨ trace = [CreateContainer image true ["/bin/bash"]]
            ∨ ∃ container,
                trace = [CreateContainer image true ["/bin/bash"]; StartContainer container]
        end.
Proof.
  unfold dockerStart.
  destruct (reply_NewClient D (calls w) (dockerEndpoint p)) as [err|].
  { intros [= <- <- <-]. split; [done|]. cbn [called calls].
    rewrite exec_calls_app, container_calls_app. simpl. rewrite !app_nil_r.
    split; [done|]. exists []. by rewrite app_nil_r; split; [|left]. }
  destruct (reply_CreateContainer D _ image) as [container|err].
  2: { intros [= <- <- <-]. split; [done|]. cbn [called calls].
       rewrite !exec_calls_app, !container_calls_app. simpl. rewrite !app_nil_r.
       split; [done|]. eexists. split; [done|]. right. by left. }
  destruct (reply_StartContainer D _ container) as [err|]; intros [= <- <- <-];
    (split; [done|]); cbn [called calls];
    rewrite !exec_calls_app, !container_calls_app; simpl;
    rewrite !app_nil_r, <- ?app_assoc; (split; [done|]);
    (eexists; split; [done|]); [|done].
  right. right. by exists container.
Qed.

Lemma dockerStop_calls ID w :
  ∃ trace, container_calls (calls (dockerStop D ID w).1) = container_calls (calls w) ++ trace
    ∧ ((trace = [StopContainer ID 1] ∧ is_Some (dockerStop D ID w).2)
       ∨ trace = [StopContainer ID 1; RemoveContainer ID]).
Proof.
  unfold dockerStop. destruct (reply_StopContainer D (calls w) ID) as [err|].
  { eexists. cbn [fst snd called calls]. rewrite container_calls_app.
    split; [done|]. left. by split. }
  destruct (reply_RemoveContainer D _ ID) as [err|]; eexists;
    cbn [fst snd called calls]; rewrite !container_calls_app, <- app_assoc;
    (split; [done|]); by right.
Qed.

Section Run.
Variable json_Unmarshal : string → res (list TestSpec).

(** X18.  One run has one container, whatever the plan holds and however
    its execs go: the calls of [RunTestSpec] that create, start, stop or
    remove a container are a beginning of create, start, stop, remove of
    one container of the image, with the stop timeout of one second.  A run
    that returns no error has made all four, and a run whose container
    started has asked to stop it. *)
Theorem RunTestSpec_lifecycle p image fs w w' p' err :
  RunTestSpec D json_Unmarshal p image fs w = (w', p', err) →
  ∃ container trace,
    container_calls (calls w') = container_calls (calls w) ++ trace
    ∧ trace `prefix_of` lifecycle image container
    ∧ (err = None → trace = lifecycle image container)
    ∧ (∀ specs w1 p1 started,
         readTestSpec json_Unmarshal p fs = Ok specs →
         dockerStart D p image w = (w1, p1, Ok started) →
         started = container ∧ StopContainer container 1 ∈ trace).
Proof.
  unfold RunTestSpec. destruct (readTestSpec json_Unmarshal p fs) as [specs|e].
  2: { intros [= <- <- <-]. exists "", []. rewrite app_nil_r.
       split; [done|]. split; [apply prefix_nil|]. split; [done|]. by intros. }
  destruct (dockerStart D p image w) as [[w1 p1] [container|e]] eqn:Hstart;
    apply dockerStart_calls in Hstart as (_ & _ & trace & Hcalls & Htrace).
  - pose proof (runSpecs_container_calls container specs w1 0) as Hrun.
    destruct (runSpecs D container specs w1 0) as [w2 failedTests]. cbn [fst] in Hrun.
    destruct (dockerStop_calls container w2) as (stop & Hstop & Hshape).
    rewrite Hrun, Hcalls, Htrace, <- app_assoc in Hstop. cbn [app] in Hstop.
    assert (∀ e, (w', p', err) = ((dockerStop D container w2).1, p1, e) →
                 (e = None → stop = [StopContainer container 1; RemoveContainer container]) →
            ∃ container0 trace0,
              container_calls (calls w') = container_calls (calls w) ++ trace0
              ∧ trace0 `prefix_of` lifecycle image container0
              ∧ (err = None → trace0 = lifecycle image container0)
              ∧ (∀ specs0 w0 p0 started,
                   Ok specs = Ok specs0 →
                   (w1, p1, Ok container) = (w0, p0, Ok started) →
                   started = container0 ∧ StopContainer container0 1 ∈ trace0))
      as Hdone.
    { intros e [= -> -> ->] Hall. exists container. eexists. split; [exact Hstop|].
      split; [|split].
      - destruct Hshape as [[-> _] | ->]; [|done].
        by exists [RemoveContainer container].
      - intros ->. by rewrite (Hall eq_refl).
      - intros specs0 w0 p0 started _ [= _ _ <-]. split; [done|].
        destruct Hshape as [[-> _] | ->]; rewrite !elem_of_cons; tauto. }
    destruct (dockerStop D container w2) as [w3 [e|]] eqn:Hstopped; cbn [fst snd] in *.
    + intros [= <- <- <-]. by apply (Hdone (Some e)).
    + case_decide; intros [= <- <- <-]; (eapply Hdone; [done|]); intros _;
        by destruct Hshape as [[_ [? [=]]] | ->].
  - intros [= <- <- <-]. destruct Htrace as [-> | [-> | [container ->]]].
    + exists "", []. split; [done|]. split; [apply prefix_nil|]. split; [done|]. by intros.
    + exists "", [CreateContainer image true ["/bin/bash"]]. split; [done|].
      split; [by eexists|]. split; [done|]. by intros.
    + exists container. eexists. split; [done|]. split; [by eexists|].
      split; [done|]. by intros.
Qed.

(** X19.  When the container cannot be started the run ends there, with
    the error of the daemon: no entry of the plan runs, nothing is printed,
    and nothing is asked to stop or removed, also when the container had
    been created. *)
Theorem RunTestSpec_start_failure p image fs w specs w1 p1 err :
  readTestSpec json_Unmarshal p fs = Ok specs →
  dockerStart D p image w = (w1, p1, Err err) →
  RunTestSpec D json_Unmarshal p image fs w = (w1, p1, Some err)
  ∧ stdout w1 = stdout w
  ∧ exec_calls (calls w1) = exec_calls (calls w)
  ∧ ∃ trace, calls w1 = calls w ++ trace
      ∧ (∀ id timeout, (StopContainer id timeout ∉ trace) ∧ (RemoveContainer id ∉ trace))
      ∧ (∀ container,
           reply_NewClient D (calls w) (dockerEndpoint p) = None →
           reply_CreateContainer D (calls w ++ [NewClient (dockerEndpoint p)]) image
             = Ok container →
           CreateContainer image true ["/bin/bash"] ∈ trace).
Proof.
  intros Hread Hstart. unfold RunTestSpec. rewrite Hread, Hstart. split; [done|].
  destruct (dockerStart_calls _ _ _ _ _ _ Hstart) as (Hout & Hexec & _).
  split; [done|]. split; [done|]. revert Hstart. unfold dockerStart.
  destruct (reply_NewClient D (calls w) (dockerEndpoint p)) as [e|].
  { intros [= <- _ _]. eexists. split; [done|]. split; [|done].
    intros id timeout. split; absent. }
  cbn [called calls].
  destruct (reply_CreateContainer D _ image) as [container|e].
  2: { intros [= <- _ _]. cbn [called calls]. eexists.
       split; [by rewrite <- app_assoc|]. split; [|done].
       intros id timeout. split; absent. }
  destruct (reply_StartContainer D _ container) as [e|]; [|done].
  intros [= <- _ _]. cbn [called calls]. eexists.
  split; [by rewrite <- !app_assoc|]. split.
  - intros id timeout. split; absent.
  - intros container0 _ _. cbn [app]. rewrite !elem_of_cons. right. by left.
Qed.

End Run.
End Container.

(** *** The streams of an exec *)

Section Streams.
Variables D1 D2 : Daemon.
Hypothesis Halike : alike D1 D2.

Lemma dockerStart_alike p image w : dockerStart D1 p image w = dockerStart D2 p image w.
Proof.
  unfold dockerStart.
  by rewrite (alike_NewClient _ _ Halike), (alike_CreateContainer _ _ Halike);
    destruct (reply_CreateContainer D2 _ image);
    rewrite ?(alike_StartContainer _ _ Halike).
Qed.

Lemma dockerStop_alike ID w : dockerStop D1 ID w = dockerStop D2 ID w.
Proof.
  unfold dockerStop.
  by rewrite (alike_StopContainer _ _ Halike), (alike_RemoveContainer _ _ Halike).
Qed.

Lemma dockerExec_alike ID cmd w : dockerExec D1 ID cmd w = dockerExec D2 ID cmd w.
Proof.
  unfold dockerExec. rewrite (alike_CreateExec _ _ Halike).
  destruct (reply_CreateExec D2 (calls w) ID _) as [exec|err]; [|done].
  cbn [called calls].
  pose proof (alike_StartExec _ _ Halike (calls w ++ [CreateExec ID ["/bin/bash"; "-c"; cmd]])
                exec) as Herr.
  pose proof (alike_output _ _ Halike (calls w ++ [CreateExec ID ["/bin/bash"; "-c"; cmd]])
                exec) as Hout.
  destruct (reply_StartExec D1 _ exec) as [[out1 errout1] err1].
  destruct (reply_StartExec D2 _ exec) as [[out2 errout2] err2].
  cbn [fst snd] in Herr, Hout. subst err2. destruct err1 as [err|]; [done|].
  cbn [called calls]. rewrite <- (alike_InspectExec _ _ Halike).
  destruct (reply_InspectExec D1 _ exec) as [code|err] eqn:Hinspect; [|done].
  case_decide as Hcode; [|done]. by rewrite (Hout code).
Qed.

Lemma runSpecs_alike ID specs w failedTests :
  runSpecs D1 ID specs w failedTests = runSpecs D2 ID specs w failedTests.
Proof.
  revert w failedTests. induction specs as [|spec rest IH]; intros w failedTests; [done|].
  rewrite !runSpecs_cons, dockerExec_alike.
  by destruct (dockerExec D2 ID (spec_Cmd spec) _) as [w1 [err|]].
Qed.

(** X20.  The error stream of an exec is dropped, and its output stream
    reaches the caller only in the error of an exec that exits with a code
    greater than zero: two daemons that differ in nothing else make the
    same run, with the same calls, the same print-out and the same
    result. *)
Theorem RunTestSpec_streams json_Unmarshal p image fs w :
  RunTestSpec D1 json_Unmarshal p image fs w = RunTestSpec D2 json_Unmarshal p image fs w.
Proof.
  unfold RunTestSpec. destruct (readTestSpec json_Unmarshal p fs) as [specs|err]; [|done].
  rewrite dockerStart_alike.
  destruct (dockerStart D2 p image w) as [[w1 p1] [container|err]]; [|done].
  rewrite runSpecs_alike. destruct (runSpecs D2 container specs w1 0) as [w2 failedTests].
  by rewrite dockerStop_alike.
Qed.

End Streams.

(** *** On the plan of the example scenario *)

(** A daemon that creates containers and cannot start them. *)
Definition unstartable : Daemon := {|
  reply_NewClient := reply_NewClient RunnerClaims.obliging;
  reply_CreateContainer := reply_CreateContainer RunnerClaims.obliging;
  reply_StartContainer := λ _ _, Some (Errorf "cannot start container");
  reply_CreateExec := reply_CreateExec RunnerClaims.obliging;
  reply_StartExec := reply_StartExec RunnerClaims.obliging;
  reply_InspectExec := reply_InspectExec RunnerClaims.obliging;
  reply_StopContainer := reply_StopContainer RunnerClaims.obliging;
  reply_RemoveContainer := reply_RemoveContainer RunnerClaims.obliging
|}.

(** The obliging daemon with commands that write to both streams; only the
    command [false], which fails, writes nothing to its output. *)
Definition noisy : Daemon := {|
  reply_NewClient := reply_NewClient RunnerClaims.obliging;
  reply_CreateContainer := reply_CreateContainer RunnerClaims.obliging;
  reply_StartContainer := reply_StartContainer RunnerClaims.obliging;
  reply_CreateExec := reply_CreateExec RunnerClaims.obliging;
  reply_StartExec := λ _ exec,
    (if decide (exec = "false") then "" else "ok", "warning: no tty", None);
  reply_InspectExec := reply_InspectExec RunnerClaims.obliging;
  reply_StopContainer := reply_StopContainer RunnerClaims.obliging;
  reply_RemoveContainer := reply_RemoveContainer RunnerClaims.obliging
|}.

Lemma obliging_noisy : alike RunnerClaims.obliging noisy.
Proof.
  split; try done. intros h exec code. simpl. case_decide as Hexec; [done|].
  intros [= <-]. lia.
Qed.

Example RunTestSpec_noisy :
  stdout (RunTestSpec noisy DemoJson.Unmarshal MainClaims.verifier "pazuzu-img"
            RunnerClaims.disk_passing RunnerClaims.fresh).1.1
  = "Running test spec for feature 'B':" +:+ LF +:+ String "009"%char ""
      +:+ "test -f /f.txt" +:+ LF.
Proof. vm_compute. reflexivity. Qed.

Lemma RunTestSpec_lifecycle_witness :
  ∃ trace,
    container_calls (calls (RunTestSpec RunnerClaims.obliging DemoJson.Unmarshal
                              MainClaims.verifier "pazuzu-img" RunnerClaims.disk
                              RunnerClaims.fresh).1.1) = trace
    ∧ trace `prefix_of` lifecycle "pazuzu-img" "c0ffee"
    ∧ StopContainer "c0ffee" 1 ∈ trace.
Proof.
  destruct (RunTestSpec_lifecycle RunnerClaims.obliging DemoJson.Unmarshal
              MainClaims.verifier "pazuzu-img" RunnerClaims.disk RunnerClaims.fresh
              (RunTestSpec RunnerClaims.obliging DemoJson.Unmarshal MainClaims.verifier
                 "pazuzu-img" RunnerClaims.disk RunnerClaims.fresh).1.1
              (RunTestSpec RunnerClaims.obliging DemoJson.Unmarshal MainClaims.verifier
                 "pazuzu-img" RunnerClaims.disk RunnerClaims.fresh).1.2
              (RunTestSpec RunnerClaims.obliging DemoJson.Unmarshal MainClaims.verifier
                 "pazuzu-img" RunnerClaims.disk RunnerClaims.fresh).2)
    as (container & trace & Hcalls & Hprefix & _ & Hstarted).
  - vm_compute. reflexivity.
  - destruct (Hstarted [RunnerClaims.entry_A; RunnerClaims.entry_B]
                (dockerStart RunnerClaims.obliging MainClaims.verifier "pazuzu-img"
                   RunnerClaims.fresh).1.1
                (dockerStart RunnerClaims.obliging MainClaims.verifier "pazuzu-img"
                   RunnerClaims.fresh).1.2
                "c0ffee") as [<- Hstop].
    + vm_compute. reflexivity.
    + vm_compute. reflexivity.
    + exists trace. split; [exact Hcalls|]. split; [exact Hprefix | exact Hstop].
Defined.

Lemma RunTestSpec_start_failure_witness :
  RunTestSpec unstartable DemoJson.Unmarshal MainClaims.verifier "pazuzu-img"
    RunnerClaims.disk RunnerClaims.fresh
  = ({| calls := [NewClient "tcp://localhost:2375";
                  CreateContainer "pazuzu-img" true ["/bin/bash"];
                  StartContainer "c0ffee"];
        stdout := "" |},
     set_docker MainClaims.verifier (Some "tcp://localhost:2375"),
     Some (Errorf "cannot start container")).
Proof.
  apply (RunTestSpec_start_failure unstartable DemoJson.Unmarshal MainClaims.verifier
           "pazuzu-img" RunnerClaims.disk RunnerClaims.fresh
           [RunnerClaims.entry_A; RunnerClaims.entry_B]
           {| calls := [NewClient "tcp://localhost:2375";
                        CreateContainer "pazuzu-img" true ["/bin/bash"];
                        StartContainer "c0ffee"];
              stdout := "" |}
           (set_docker MainClaims.verifier (Some "tcp://localhost:2375"))
           (Errorf "cannot start container")).
  - vm_compute. reflexivity.
  - vm_compute. reflexivity.
Defined.

Lemma RunTestSpec_streams_witness :
  alike RunnerClaims.obliging noisy
  ∧ RunTestSpec RunnerClaims.obliging DemoJson.Unmarshal MainClaims.verifier "pazuzu-img"
      RunnerClaims.disk RunnerClaims.fresh
    = RunTestSpec noisy DemoJson.Unmarshal MainClaims.verifier "pazuzu-img"
        RunnerClaims.disk RunnerClaims.fresh.
Proof.
  split; [exact obliging_noisy|].
  apply (RunTestSpec_streams RunnerClaims.obliging noisy obliging_noisy).
Defined.

End RunnerExtras.
(** ** The commands: what a build does, in which order *)

Module CliExtras.
Import Dockerfile DockerfileFacts Main MainFacts RunnerFacts Cli.
Import MainExtras RunnerExtras.

Lemma snoc_neq {A} (l : list A) (x : A) : l ++ [x] ≠ l.
Proof.
  intros Heq. apply (f_equal length) in Heq. rewrite length_app in Heq. simpl in Heq. lia.
Qed.

Section Commands.
Variable D : Daemon.
Variable time_Now : Z.
Variable tar_archive : Header → string → string.
Variable reply_BuildImage :
  list Call → list BuildImageOptions → BuildImageOptions → string * option error.
Variable json_Marshal : list TestSpec → res string.
Variable json_Unmarshal : string → res (list TestSpec).
Variable getFeatures : Pazuzu → list string → res (list Feature).
(** [Decode] reads back what [Encode] wrote. *)
Hypothesis json_roundtrip : ∀ specs text,
  json_Marshal specs = Ok text → json_Unmarshal (text +:+ LF) = Ok specs.

(** What [DockerBuild] asks the daemon to build for a document. *)
Definition build_of (name document : string) : BuildImageOptions :=
  {| opts_Name := name;
     opts_InputStream :=
       tar_archive {| hdr_Name := "Dockerfile";
                      hdr_Size := Z.of_nat (String.length document);
                      hdr_ModTime := time_Now; hdr_AccessTime := time_Now;
                      hdr_ChangeTime := time_Now |} document |}.

(** The calls that [DockerBuild] and then [dockerStart] have made when the
    container has started. *)
Definition started (c : Context) (container : string) : list Call :=
  [NewClient (flag_docker_endpoint c); NewClient (flag_docker_endpoint c);
   CreateContainer (flag_image_name c) true ["/bin/bash"]; StartContainer container].

Lemma DockerBuild_inv p name m m' err :
  DockerBuild D time_Now tar_archive reply_BuildImage p name m = (m', err) →
  m_disk m' = m_disk m
  ∧ (∃ out, m_world m' = printed (called (m_world m) (NewClient (dockerEndpoint p))) out)
  ∧ ((m_built m' = m_built m ∧ is_Some err)
     ∨ m_built m' = m_built m ++ [build_of name (dockerfile p)]).
Proof.
  unfold DockerBuild. destruct (reply_NewClient D _ (dockerEndpoint p)) as [e|].
  { intros [= <- <-]. split; [done|]. split.
    - exists "". unfold printed. cbn. by rewrite string_app_nil_r.
    - left. by split. }
  fold (build_of name (dockerfile p)).
  destruct (reply_BuildImage _ (m_built m) _) as [out [e|]]; intros [= <- <-];
    (split; [done|]); (split; [by exists out | by right]).
Qed.

Lemma printed_calls w out : calls (printed w out) = calls w.
Proof. done. Qed.

Lemma RunTestSpec_set_dockerfile p bytes image fs w :
  RunTestSpec D json_Unmarshal (set_dockerfile p bytes) image fs w
  = let '(w', p', err) := RunTestSpec D json_Unmarshal p image fs w in
    (w', set_dockerfile p' bytes, err).
Proof.
  unfold RunTestSpec. change (readTestSpec json_Unmarshal (set_dockerfile p bytes) fs)
    with (readTestSpec json_Unmarshal p fs).
  destruct (readTestSpec json_Unmarshal p fs) as [specs|err]; [|done].
  unfold dockerStart. cbn [dockerEndpoint set_dockerfile].
  destruct (reply_NewClient D (calls w) (dockerEndpoint p)) as [err|]; [done|].
  destruct (reply_CreateContainer D _ image) as [container|err]; [|done].
  destruct (reply_StartContainer D _ container) as [err|]; [done|].
  destruct (runSpecs D container specs _ 0) as [w2 failedTests].
  destruct (dockerStop D container w2) as [w3 [err|]]; [done|]. by case_decide.
Qed.

(** A run without error: the plan was read, the container started, no
    entry failed, and the container was stopped and removed. *)
Lemma RunTestSpec_ok_inv p image fs w w' p' :
  RunTestSpec D json_Unmarshal p image fs w = (w', p', None) →
  ∃ specs w1 container w2,
    readTestSpec json_Unmarshal p fs = Ok specs
    ∧ dockerStart D p image w = (w1, p', Ok container)
    ∧ runSpecs D container specs w1 0 = (w2, 0%Z)
    ∧ filter failed (report D container specs w1) = []
    ∧ dockerStop D container w2 = (w', None).
Proof.
  unfold RunTestSpec. destruct (readTestSpec json_Unmarshal p fs) as [specs|err]; [|done].
  destruct (dockerStart D p image w) as [[w1 p1] [container|err]]; [|done].
  destruct (runSpecs_replay D container specs w1 0) as (w2 & Hrun & _).
  rewrite Hrun.
  destruct (dockerStop D container w2) as [w3 [err|]] eqn:Hstop; [done|].
  case_decide as Hfailed; [done|]. intros [= <- <-].
  assert (filter failed (report D container specs w1) = []) as Hnone.
  { apply length_zero_iff_nil. lia. }
  exists specs, w1, container, w2. rewrite Hnone in *. done.
Qed.

(** X21.  A build with [--verify] that returns no error has done all of
    this: asked the registry for the features of its arguments; had the
    image of the given name built from the document of the features that
    came back; left their plan in the plan file; started one container of
    that image; run in it the test instruction of every feature, in the
    order of the registry, none of them failing; and stopped and removed
    the container. *)
Theorem buildFeatures_verified c m m' :
  flag_verify c = true →
  buildFeatures D time_Now tar_archive reply_BuildImage json_Marshal json_Unmarshal
    getFeatures c m = (m', None) →
  ∃ features container start,
    Args c ≠ []
    ∧ getFeatures (pazuzu_of c) (Args c) = Ok features
    ∧ m_built m' = m_built m ++ [build_of (flag_image_name c) (document features)]
    ∧ readTestSpec json_Unmarshal (pazuzu_of c) (m_disk m') = Ok (plan features)
    ∧ calls start = calls (m_world m) ++ started c container
    ∧ filter failed (report D container (plan features) start) = []
    ∧ exec_calls (calls (m_world m'))
      = exec_calls (calls (m_world m))
          ++ ((λ feature, (container, shell (TestInstruction feature))) <$> features)
    ∧ container_calls (calls (m_world m'))
      = container_calls (calls (m_world m)) ++ lifecycle (flag_image_name c) container.
Proof.
  intros Hverify. unfold buildFeatures. case_decide as Hargs; [done|].
  destruct (Generate _ _ _ (m_disk m) (Args c)) as [[p1 fs1] [err|]] eqn:Hgen; [done|].
  apply Generate_inv in Hgen as (features & Hfetch & -> & Hwritten).
  destruct (DockerBuild _ _ _ _ _ _ (set_disk m fs1)) as [m1 [err|]] eqn:Hbuild; [done|].
  apply DockerBuild_inv in Hbuild as (Hdisk & [out Hworld] & [[_ [? [=]]] | Hbuilt]).
  rewrite Hverify, Hdisk, Hworld. cbn [set_disk m_disk m_world m_built] in *.
  destruct (RunTestSpec _ _ _ _ fs1 _) as [[w3 p3] [err|]] eqn:Hrun; [done|].
  intros [= <-]. cbn [set_world m_disk m_world m_built].
  apply RunTestSpec_ok_inv in Hrun as (specs & w1 & container & w2
                                       & Hread & Hstart & Hloop & Hnone & Hstop).
  assert (readTestSpec json_Unmarshal (pazuzu_of c) fs1 = Ok (plan features)) as Hplan.
  { eapply (MainClaims.testSpec_roundtrip json_Marshal json_Unmarshal json_roundtrip);
      [|exact Hwritten]. done. }
  change (readTestSpec json_Unmarshal (set_dockerfile (pazuzu_of c) (document features)) fs1)
    with (readTestSpec json_Unmarshal (pazuzu_of c) fs1) in Hread.
  rewrite Hplan in Hread. injection Hread as <-.
  exists features, container, w1. split; [by destruct (Args c)|]. split; [done|].
  split; [done|]. split; [by rewrite Hdisk|].
  assert (calls w1 = calls (m_world m) ++ started c container) as Hcalls.
  { revert Hstart. unfold dockerStart. cbn [dockerEndpoint set_dockerfile pazuzu_of].
    destruct (reply_NewClient D _ _) as [e|]; [done|].
    destruct (reply_CreateContainer D _ _) as [container0|e]; [|done].
    destruct (reply_StartContainer D _ _) as [e|]; [done|].
    intros [= <- _ <-]. cbn [called calls printed]. by rewrite <- !app_assoc. }
  split; [done|]. split; [done|].
  destruct (runSpecs_replay D container (plan features) w1 0) as (w2' & Hrun' & Hexecs & _).
  rewrite Hloop in Hrun'. injection Hrun' as <- _.
  pose proof (runSpecs_container_calls D container (plan features) w1 0) as Hkept.
  rewrite Hloop in Hkept. cbn [fst] in Hkept.
  revert Hstop. unfold dockerStop.
  destruct (reply_StopContainer D (calls w2) container) as [e|]; [done|].
  destruct (reply_RemoveContainer D _ container) as [e|]; [done|].
  intros [= <-]. cbn [called calls].
  rewrite !exec_calls_app, !container_calls_app, Hexecs, Hkept, Hcalls.
  rewrite !exec_calls_app, !container_calls_app. cbn. rewrite !app_nil_r.
  split.
  - f_equal. unfold plan. by rewrite <- list_fmap_compose.
  - by rewrite <- !app_assoc.
Qed.

(** X22.  What a build has done when it returns, with or without error.
    Without arguments it has done nothing, and fails.  An image it had
    built is the image of the given name, built from the document of the
    features of the registry, and their plan is then in the plan file:
    nothing is built before both have been generated.  And it has run
    nothing in a container, nor created one, unless it was told to verify
    and the image had been built. *)
Theorem buildFeatures_stages c m m' err :
  buildFeatures D time_Now tar_archive reply_BuildImage json_Marshal json_Unmarshal
    getFeatures c m = (m', err) →
  (Args c = [] → m' = m ∧ err = Some (Errorf "no features specified"))
  ∧ (m_built m' = m_built m ∧ is_Some err
     ∨ ∃ features,
         getFeatures (pazuzu_of c) (Args c) = Ok features
         ∧ m_built m' = m_built m ++ [build_of (flag_image_name c) (document features)]
         ∧ readTestSpec json_Unmarshal (pazuzu_of c) (m_disk m') = Ok (plan features))
  ∧ (flag_verify c = false ∨ m_built m' = m_built m →
     exec_calls (calls (m_world m')) = exec_calls (calls (m_world m))
     ∧ container_calls (calls (m_world m')) = container_calls (calls (m_world m))).
Proof.
  unfold buildFeatures. case_decide as Hargs.
  { intros [= <- <-]. split; [done|]. split; [left; by split | done]. }
  intros Hdone. split; [intros Hnil; by rewrite Hnil in Hargs|]. revert Hdone.
  destruct (Generate _ _ _ (m_disk m) (Args c)) as [[p1 fs1] [e|]] eqn:Hgen.
  { intros [= <- <-]. split; [left; by split | done]. }
  apply Generate_inv in Hgen as (features & Hfetch & -> & Hwritten).
  assert (readTestSpec json_Unmarshal (pazuzu_of c) fs1 = Ok (plan features)) as Hplan.
  { eapply (MainClaims.testSpec_roundtrip json_Marshal json_Unmarshal json_roundtrip);
      [|exact Hwritten]. done. }
  destruct (DockerBuild _ _ _ _ _ _ (set_disk m fs1)) as [m1 e] eqn:Hbuild.
  apply DockerBuild_inv in Hbuild as (Hdisk & [out Hworld] & Hbuilt).
  cbn [set_disk m_disk m_world m_built set_dockerfile dockerfile dockerEndpoint] in *.
  assert (exec_calls (calls (m_world m1)) = exec_calls (calls (m_world m))
          ∧ container_calls (calls (m_world m1)) = container_calls (calls (m_world m)))
    as Hquiet.
  { rewrite Hworld. cbn [printed called calls].
    rewrite exec_calls_app, container_calls_app. cbn. by rewrite !app_nil_r. }
  destruct e as [e|].
  { intros [= <- <-]. split; [|done].
    destruct Hbuilt as [[Hnone _] | Hsome]; [left; by split|].
    right. exists features. by rewrite Hdisk. }
  destruct Hbuilt as [[_ [? [=]]] | Hbuilt].
  destruct (flag_verify c) eqn:Hverify.
  2: { intros [= <- <-]. split.
       - right. exists features. by rewrite Hdisk.
       - done. }
  destruct (RunTestSpec _ _ _ _ (m_disk m1) (m_world m1)) as [[w3 p3] e] eqn:Hrun.
  intros Hdone.
  assert (m' = set_world m1 w3) as -> by (by destruct e; injection Hdone as <- _).
  cbn [set_world m_disk m_world m_built]. split.
  - right. exists features. by rewrite Hdisk.
  - intros [[=] | Hsame]. rewrite Hbuilt in Hsame. by apply snoc_neq in Hsame.
Qed.

(** X23.  A build with [--verify] is the build without it followed, when
    that returns no error, by the verification of its image: by [verify]
    with the same plan file and endpoint and with the name of the image as
    its argument. *)
Theorem buildFeatures_then_verifyImage build verify m :
  flag_verify build = true →
  flag_test_spec verify = flag_test_spec build →
  flag_docker_endpoint verify = flag_docker_endpoint build →
  Args verify = [flag_image_name build] →
  buildFeatures D time_Now tar_archive reply_BuildImage json_Marshal json_Unmarshal
    getFeatures build m
  = match buildFeatures D time_Now tar_archive reply_BuildImage json_Marshal json_Unmarshal
            getFeatures
            {| flag_image_name := flag_image_name build;
               flag_test_spec := flag_test_spec build; flag_verify := false;
               flag_docker_endpoint := flag_docker_endpoint build;
               Args := Args build |} m with
    | (m1, None) => verifyImage D json_Unmarshal verify m1
    | (m1, Some err) => (m1, Some err)
    end.
Proof.
  intros Hverify Hspec Hendpoint Hargs. unfold buildFeatures, verifyImage.
  cbn [Args flag_image_name flag_verify]. case_decide as Hnone; [done|].
  change (pazuzu_of {| flag_image_name := flag_image_name build;
                       flag_test_spec := flag_test_spec build; flag_verify := false;
                       flag_docker_endpoint := flag_docker_endpoint build;
                       Args := Args build |}) with (pazuzu_of build).
  destruct (Generate _ _ _ (m_disk m) (Args build)) as [[p1 fs1] [e|]] eqn:Hgen; [done|].
  apply Generate_inv in Hgen as (features & _ & -> & _).
  destruct (DockerBuild _ _ _ _ _ _ (set_disk m fs1)) as [m1 [e|]]; [done|].
  rewrite Hverify, RunTestSpec_set_dockerfile.
  unfold Args_First. rewrite Hargs. cbn [head default].
  assert (pazuzu_of verify = pazuzu_of build) as ->.
  { unfold pazuzu_of. by rewrite Hspec, Hendpoint. }
  by destruct (RunTestSpec D json_Unmarshal (pazuzu_of build) _ _ _) as [[w3 p3] [e|]].
Qed.

End Commands.

(** *** The registry *)

Section Registry.
Variable http_Get : string → res Response.
Variable decode_APIError : string → res APIError.
Variable decode_Features : string → res (list Feature).
Variable fmt_Sprintf : string → string.
Variable json_Marshal : list TestSpec → res string.

(** X24.  An answer of the registry with another status than 200 fails
    the generation, whatever its body holds, and leaves the Dockerfile and
    the files as they were.  The error is the message of the API error in
    the body, taken as a format, or what the decoder made of the body. *)
Theorem Generate_registry_refusal p disk names resp :
  http_Get (registry p +:+ "/features?name=" +:+ strings_Join names ",") = Ok resp →
  StatusCode resp ≠ 200%Z →
  ∃ err,
    Generate json_Marshal
      (getFeatures http_Get decode_APIError decode_Features fmt_Sprintf) p disk names
    = (p, disk, Some err)
    ∧ match decode_APIError (Body resp) with
      | Ok errResp => err = Errorf (fmt_Sprintf (Message errResp))
      | Err decodeErr => err = decodeErr
      end.
Proof.
  intros Hget Hstatus. unfold Generate, getFeatures. rewrite Hget.
  rewrite decide_True by done.
  destruct (decode_APIError (Body resp)) as [errResp|err]; by eexists.
Qed.

End Registry.

(** *** On the features of the example scenario *)

(** A stand-in for the archive: the name of the entry, then its bytes. *)
Definition archive (h : Header) (body : string) : string := hdr_Name h +:+ LF +:+ body.

(** A daemon that builds every image. *)
Definition build_reply (h : list Call) (built : list BuildImageOptions)
    (opts : BuildImageOptions) : string * option error :=
  ("Successfully built " +:+ opts_Name opts +:+ LF, None).

(** [pazuzu build --verify A]. *)
Definition build_verify : Context :=
  {| flag_image_name := "pazuzu-img"; flag_test_spec := "test_spec.json";
     flag_verify := true; flag_docker_endpoint := "unix:///var/run/docker.sock";
     Args := ["A"] |}.

(** [pazuzu verify pazuzu-img]. *)
Definition verify_only : Context :=
  {| flag_image_name := ""; flag_test_spec := "test_spec.json";
     flag_verify := false; flag_docker_endpoint := "unix:///var/run/docker.sock";
     Args := ["pazuzu-img"] |}.

Definition machine : Machine :=
  {| m_disk := MainExtras.used_disk; m_world := RunnerClaims.fresh; m_built := [] |}.

(** The build of the example against a daemon. *)
Definition build_on (D : Daemon) (c : Context) : Machine * option error :=
  buildFeatures D 0 archive build_reply DemoJson.Marshal DemoJson.Unmarshal
    MainExtras.registry_AB c machine.

(** A registry that does not know the feature. *)
Definition not_found (url : string) : res Response :=
  Ok {| StatusCode := 404; Body := "{}" |}.

Definition decode_not_found (body : string) : res APIError :=
  Ok {| Code := "feature_not_found"; Message := "Feature not found";
        DetailedMessage := "" |}.

Lemma buildFeatures_verified_witness :
  ∃ features container,
    MainExtras.registry_AB (pazuzu_of build_verify) ["A"] = Ok features
    ∧ m_built (build_on RunnerClaims.obliging build_verify).1
      = [build_of 0 archive "pazuzu-img" (document features)]
    ∧ exec_calls (calls (m_world (build_on RunnerClaims.obliging build_verify).1))
      = (λ feature, (container, shell (TestInstruction feature))) <$> features.
Proof.
  destruct (buildFeatures_verified RunnerClaims.obliging 0 archive build_reply
              DemoJson.Marshal DemoJson.Unmarshal MainExtras.registry_AB
              DemoJson.Unmarshal_Marshal build_verify machine
              (build_on RunnerClaims.obliging build_verify).1)
    as (features & container & start & _ & Hfetch & Hbuilt & _ & _ & _ & Hexecs & _).
  - reflexivity.
  - vm_compute. reflexivity.
  - exists features, container. split; [exact Hfetch|].
    split; [exact Hbuilt | exact Hexecs].
Defined.

(** The container cannot be started: the build fails, and the image is
    built all the same. *)
Lemma buildFeatures_stages_witness :
  is_Some (build_on RunnerExtras.unstartable build_verify).2
  ∧ ∃ features,
      MainExtras.registry_AB (pazuzu_of build_verify) ["A"] = Ok features
      ∧ m_built (build_on RunnerExtras.unstartable build_verify).1
        = [build_of 0 archive "pazuzu-img" (document features)]
      ∧ readTestSpec DemoJson.Unmarshal (pazuzu_of build_verify)
          (m_disk (build_on RunnerExtras.unstartable build_verify).1)
        = Ok (plan features).
Proof.
  split; [vm_compute; by eexists|].
  destruct (buildFeatures_stages RunnerExtras.unstartable 0 archive build_reply
              DemoJson.Marshal DemoJson.Unmarshal MainExtras.registry_AB
              DemoJson.Unmarshal_Marshal build_verify machine
              (build_on RunnerExtras.unstartable build_verify).1
              (build_on RunnerExtras.unstartable build_verify).2)
    as (_ & [[Hnone _] | Hsome] & _).
  - vm_compute. reflexivity.
  - vm_compute in Hnone. discriminate Hnone.
  - exact Hsome.
Defined.

Lemma buildFeatures_then_verifyImage_witness :
  build_on RunnerClaims.obliging build_verify
  = verifyImage RunnerClaims.obliging DemoJson.Unmarshal verify_only
      (build_on RunnerClaims.obliging
         {| flag_image_name := "pazuzu-img"; flag_test_spec := "test_spec.json";
            flag_verify := false; flag_docker_endpoint := "unix:///var/run/docker.sock";
            Args := ["A"] |}).1.
Proof.
  pose proof (buildFeatures_then_verifyImage RunnerClaims.obliging 0 archive build_reply
                DemoJson.Marshal DemoJson.Unmarshal MainExtras.registry_AB
                build_verify verify_only machine eq_refl eq_refl eq_refl eq_refl)
    as Hseq.
  exact Hseq.
Defined.

Lemma Generate_registry_refusal_witness :
  ∃ err,
    Generate DemoJson.Marshal
      (getFeatures not_found decode_not_found (λ _, Ok []) (λ format, format))
      MainClaims.builder MainExtras.used_disk ["A"]
    = (MainClaims.builder, MainExtras.used_disk, Some err)
    ∧ err = Errorf "Feature not found".
Proof.
  apply (Generate_registry_refusal not_found decode_not_found (λ _, Ok [])
           (λ format, format) DemoJson.Marshal MainClaims.builder MainExtras.used_disk
           ["A"] {| StatusCode := 404; Body := "{}" |}).
  - reflexivity.
  - done.
Defined.

End CliExtras.
